(** * Least-squares fitting of fluorescence decays (lectures/03-scipy.ipynb)

    A shallow embedding of the code cells of the notebook and the properties
    of its residual functions, its preprocessing and its error analysis.

    Conventions of the embedding:
    - a NumPy float64 is a real number of [R]: rounding, overflow, [inf] and
      [nan] are outside the model: where a divisor is zero and the division
      does not raise, the quotient of the model is not the float64 value;
      [np.expm1 z] is [exp z - 1];
      the underflow of a square to [0.0] is modelled where cell 21 divides
      by it ([F64.square]);
    - a 1-D array, a tuple and a list are a [list]; a 2-D array is a [matrix]
      (shape and entries), the two-column table of a data file a list of rows;
    - a Python exception is the [Raise] result of the [result] monad; NumPy's
      handling of a division by zero follows the [errstate]: a warning and a
      value by default, [FloatingPointError] under [np.seterr(all='raise')];
    - SciPy, pandas and the file system are parameters of the cells that use
      them. *)

From Stdlib Require Import Reals Lra Lia ZArith Sorted.
From stdpp Require Import base decidable option list gmap strings.

Open Scope R_scope.

(** ** Python exceptions and results *)

Inductive exn :=
  | IndexError | ValueError | KeyError | FloatingPointError | LinAlgError | OSError.

Inductive result (A : Type) :=
  | Ok (a : A)
  | Raise (e : exn).
Arguments Ok {A} a.
Arguments Raise {A} e.

#[export] Instance result_ret : MRet result := fun A a => Ok a.
#[export] Instance result_bind : MBind result :=
  fun A B k m => match m with Ok a => k a | Raise e => Raise e end.

(** [l[i]] for a non-negative index: [IndexError] out of range. *)
Definition getitem {A} (l : list A) (i : nat) : result A :=
  match l !! i with
  | Some a => Ok a
  | None => Raise IndexError
  end.

(** Comparisons of float64 values, as decidable propositions on [R]. *)
#[export] Instance R_eq_dec : EqDecision R := Req_dec_T.
#[export] Instance Rlt_decision (a b : R) : Decision (a < b) := Rlt_dec a b.
#[export] Instance Rgt_decision (a b : R) : Decision (a > b) := Rgt_dec a b.

(** ** NumPy arrays *)

Module Np.

(** [np.seterr]: what a floating-point division by zero does. *)
Inductive errstate := ErrWarn | ErrRaise.

(** [a / b] on float64 scalars. *)
Definition divide (st : errstate) (a b : R) : result R :=
  match st with
  | ErrWarn => Ok (a / b)
  | ErrRaise => if decide (b = 0) then Raise FloatingPointError else Ok (a / b)
  end.

Definition subtract (a b : R) : result R := Ok (a - b).
Definition add (a b : R) : result R := Ok (a + b).

(** A binary operation on two 1-D arrays with NumPy's broadcasting: equal
    lengths go elementwise, a length-one array is stretched, any other pair
    of shapes raises [ValueError]. *)
Definition broadcast {A B C} (f : A → B → result C) (a : list A) (b : list B)
    : result (list C) :=
  if decide (length a = length b) then mapM (λ ab, f ab.1 ab.2) (zip a b)
  else match a, b with
       | [u], _ => mapM (f u) b
       | _, [v] => mapM (λ u, f u v) a
       | _, _ => Raise ValueError
       end.

Definition expm1 (z : R) : R := exp z - 1.

(** [a.max()]: [ValueError] on an array of size zero. *)
Definition amax (a : list R) : result R :=
  match a with
  | [] => Raise ValueError
  | v :: a' => Ok (foldl Rmax v a')
  end.

(** [a[mask]] for a boolean mask: the shapes have to agree. *)
Definition bool_index {A} (a : list A) (mask : list bool) : result (list A) :=
  if decide (length a = length mask)
  then Ok ((filter (λ am, am.2 = true) (zip a mask)).*1)
  else Raise IndexError.

End Np.

(** ** Cell 13: single-exponential decay and its weighted residuals *)

Module SingleExp.

(** [def func(x, param): return param[0] * np.exp( - x / param[1] )] *)
Definition func (st : Np.errstate) (x param : list R) : result (list R) :=
  p0 ← getitem param 0;
  p1 ← getitem param 1;
  q ← mapM (λ xi, Np.divide st (- xi) p1) x;
  mret (map (λ qi, p0 * exp qi) q).

(** [def leastsq_function(param, *args):
       return ( args[1] - func(args[0], param) ) / args[2]]
    [func] is the global binding of that name when the call is made. *)
Definition leastsq_function (func : list R → list R → result (list R))
    (st : Np.errstate) (param : list R) (args : list (list R)) : result (list R) :=
  y ← getitem args 1;
  x ← getitem args 0;
  f ← func x param;
  d ← Np.broadcast Np.subtract y f;
  yerr ← getitem args 2;
  Np.broadcast (Np.divide st) d yerr.

End SingleExp.

(** ** Cell 25: the model function handed to [curve_fit] *)

Module CurveFit.

(** [def func(x, F0, tau0): return F0 * np.exp( - x / tau0 )] *)
Definition func (st : Np.errstate) (x : list R) (F0 tau0 : R) : result (list R) :=
  q ← mapM (λ xi, Np.divide st (- xi) tau0) x;
  mret (map (λ qi, F0 * exp qi) q).

End CurveFit.

(** ** Cell 30: the quenching model and the residuals of the global fit *)

Module GlobalFit.

(** [def func(x, param):
       return param[0]*np.exp( - x/param[1] + param[3]*np.expm1(-param[2]*x) )] *)
Definition func (st : Np.errstate) (x param : list R) : result (list R) :=
  p0 ← getitem param 0;
  p1 ← getitem param 1;
  a ← mapM (λ xi, Np.divide st (- xi) p1) x;
  p3 ← getitem param 3;
  p2 ← getitem param 2;
  let b := map (λ xi, p3 * Np.expm1 (- p2 * xi)) x in
  s ← Np.broadcast Np.add a b;
  mret (map (λ si, p0 * exp si) s).

(** The body of [for i,m in enumerate(p[3:])], run on the remaining items
    [ms] from index [i] on, with the array [residuals] built so far:
    [param = p[0], p[1], p[2], m
     r = ( args[1][i] - func(args[0][i], param) ) / args[2][i]
     residuals = np.append(residuals, r)] *)
Fixpoint loop (func : list R → list R → result (list R)) (st : Np.errstate)
    (p : list R) (args : list (list (list R))) (i : nat) (ms : list R)
    (residuals : list R) : result (list R) :=
  match ms with
  | [] => Ok residuals
  | m :: ms' =>
      p0 ← getitem p 0;
      p1 ← getitem p 1;
      p2 ← getitem p 2;
      let param := [p0; p1; p2; m] in
      ally ← getitem args 1;
      y ← getitem ally i;
      allx ← getitem args 0;
      x ← getitem allx i;
      f ← func x param;
      d ← Np.broadcast Np.subtract y f;
      allyerr ← getitem args 2;
      yerr ← getitem allyerr i;
      r ← Np.broadcast (Np.divide st) d yerr;
      loop func st p args (S i) ms' (residuals ++ r)
  end.

(** [def leastsq_function(p, *args)]: [residuals = np.empty(0)], the loop,
    [return residuals]. [func] is the global binding of that name when the
    call is made (cell 35 rebinds it before cell 36 calls this function). *)
Definition leastsq_function (func : list R → list R → result (list R))
    (st : Np.errstate) (p : list R) (args : list (list (list R)))
    : result (list R) :=
  loop func st p args 0 (drop 3 p) [].

End GlobalFit.

(** ** Cell 35: the linearized model *)

Module LogFit.

(** [def func(x, param):
       return param[0] - x/param[1] + param[3]*np.expm1(-param[2]*x)] *)
Definition func (st : Np.errstate) (x param : list R) : result (list R) :=
  p0 ← getitem param 0;
  p1 ← getitem param 1;
  q ← mapM (λ xi, Np.divide st xi p1) x;
  let a := map (λ qi, p0 - qi) q in
  p3 ← getitem param 3;
  p2 ← getitem param 2;
  let b := map (λ xi, p3 * Np.expm1 (- p2 * xi)) x in
  Np.broadcast Np.add a b.

End LogFit.

(** ** 2-D arrays *)

Record matrix := Matrix { nrows : nat; ncols : nat; entry : nat → nat → R }.

Module Mat.

(** [sum_upto n f] is [f 0 + ... + f (n-1)]. *)
Fixpoint sum_upto (n : nat) (f : nat → R) : R :=
  match n with
  | O => 0
  | S n' => sum_upto n' f + f n'
  end.

(** [M.T] *)
Definition transpose (M : matrix) : matrix :=
  Matrix (ncols M) (nrows M) (λ i j, entry M j i).

(** [M[:k]] *)
Definition first_rows (k : nat) (M : matrix) : matrix :=
  Matrix (Nat.min k (nrows M)) (ncols M) (entry M).

(** The length of a broadcast axis: equal lengths, or one of them is 1. *)
Definition broadcast_dim (a b : nat) : option nat :=
  if decide (a = b) then Some a
  else if decide (a = 1%nat) then Some b
  else if decide (b = 1%nat) then Some a
  else None.

(** [M / v] for a 2-D [M] and a 1-D [v]: [v] runs along the columns. *)
Definition divide_columns (st : Np.errstate) (M : matrix) (v : list R)
    : result matrix :=
  match broadcast_dim (ncols M) (length v) with
  | None => Raise ValueError
  | Some n =>
      let mcol j := if decide (ncols M = 1%nat) then O else j in
      let vcol j := nth (if decide (length v = 1%nat) then O else j) v 0 in
      let q := Matrix (nrows M) n (λ i j, entry M i (mcol j) / vcol j) in
      match st with
      | Np.ErrWarn => Ok q
      | Np.ErrRaise =>
          if decide ((0 < nrows M)%nat ∧ Exists (λ j, vcol j = 0) (seq 0 n))
          then Raise FloatingPointError
          else Ok q
      end
  end.

(** [np.dot(A, B)] *)
Definition dot (A B : matrix) : result matrix :=
  if decide (ncols A = nrows B)
  then Ok (Matrix (nrows A) (ncols B)
             (λ i j, sum_upto (ncols A) (λ l, entry A i l * entry B l j)))
  else Raise ValueError.

(** [M * c] for a scalar [c] *)
Definition scale (M : matrix) (c : R) : matrix :=
  Matrix (nrows M) (ncols M) (λ i j, entry M i j * c).

(** [np.diag(M)] *)
Definition diag (M : matrix) : list R :=
  map (λ i, entry M i i) (seq 0 (Nat.min (nrows M) (ncols M))).

End Mat.

(** ** Cell 21: goodness of fit and errors of the fitting parameters *)

(** The fields of [scipy.optimize.OptimizeResult] that the notebook reads. *)
Record OptimizeResult := {
  x : list R;        (* res.x *)
  cost : R;          (* res.cost *)
  fun_ : list R;     (* res.fun *)
  jac : matrix       (* res.jac *)
}.

(** [np.finfo(float).eps] *)
Definition eps : R := / 2 ^ 52.

Section ErrorAnalysis.

(** [scipy.linalg.svd(., full_matrices=False)] *)
Variable svd : matrix → result (matrix * list R * matrix).

(** [def error_analysis(res)] *)
Definition error_analysis (st : Np.errstate) (res : OptimizeResult)
    : result (list R * R) :=
  let cost := 2 * cost res in
  s_sq ← Np.divide st cost
           (IZR (Z.of_nat (length (fun_ res)) - Z.of_nat (length (x res))));
  usv ← svd (jac res);
  let s := usv.1.2 in
  let VT := usv.2 in
  s0 ← getitem s 0;
  let threshold := eps * INR (Nat.max (nrows (jac res)) (ncols (jac res))) * s0 in
  let s := filter (λ si, si > threshold) s in
  let VT := Mat.first_rows (length s) VT in
  q ← Mat.divide_columns st (Mat.transpose VT) (map (λ si, si ^ 2) s);
  d ← Mat.dot q VT;
  let pcov := Mat.scale d s_sq in
  mret (map sqrt (Mat.diag pcov), s_sq).

End ErrorAnalysis.

(** ** Cells 9 and 11: discarding the rise of the signal *)

(** What [np.loadtxt] returns for a two-column file: a 2-D array of rows
    [(t, F)], or a 1-D array when the file holds fewer than two rows. *)
Inductive ndarray :=
  | Arr1 (a : list R)
  | Arr2 (rows : list (R * R)).

(** The dictionary [{ 't': ..., 'F': ..., 'Ferr': ... }] of one curve. *)
Module Curve.
Record curve := Build { t : list R; F : list R; Ferr : list R }.
End Curve.
Abbreviation curve := Curve.curve.

Module Prep.

(** [d[:, j]] needs two dimensions. *)
Definition rows_of (d : ndarray) : result (list (R * R)) :=
  match d with
  | Arr1 _ => Raise IndexError
  | Arr2 rows => Ok rows
  end.

Definition gt (a b : R) : result bool := Ok (bool_decide (a > b)).

(** [d[ d[:,0] > d[d[:,1]==d[:,1].max(), 0] ]] *)
Definition discard_before_max (d : list (R * R)) : result (list (R * R)) :=
  fmax ← Np.amax (d.*2);
  let tmax := (filter (λ r, r.2 = fmax) d).*1 in
  mask ← Np.broadcast gt (d.*1) tmax;
  Np.bool_index d mask.

(** [d[0,0]] *)
Definition first_time (d : list (R * R)) : result R :=
  r ← getitem d 0; mret (r.1).

(** [{ 't': d[:,0]-d[0,0], 'F': d[:,1], 'Ferr': np.sqrt(d[:,1]) }] *)
Definition shifted (d : list (R * R)) : result curve :=
  t0 ← first_time d;
  mret (Curve.Build (map (λ ti, ti - t0) (d.*1)) (d.*2) (map sqrt (d.*2))).

(** The two statements of the loop body after the file is loaded. *)
Definition preprocess (d : ndarray) : result curve :=
  rows ← rows_of d;
  kept ← discard_before_max rows;
  shifted kept.

End Prep.

(** ** The notebook as a program over the file system *)

(** A [pandas.DataFrame] built from a dictionary of curves: its columns, in
    order, keyed by the quencher concentration. *)
Definition DataFrame := list (R * curve).

(** [data[k] = v] on a dictionary kept in insertion order. *)
Fixpoint dict_set {V} (k : R) (v : V) (d : list (R * V)) : list (R * V) :=
  match d with
  | [] => [(k, v)]
  | kv :: d' => if decide (kv.1 = k) then (kv.1, v) :: d' else kv :: dict_set k v d'
  end.

(** [data[k]] *)
Fixpoint dict_get {V} (k : R) (d : list (R * V)) : result V :=
  match d with
  | [] => Raise KeyError
  | kv :: d' => if decide (kv.1 = k) then Ok (kv.2) else dict_get k d'
  end.

(** The library calls of the code cells, as functions of their arguments. *)
Record library := {
  (* '{:1.1f}'.format(conc) *)
  format_1_1f : R → string;
  (* np.loadtxt(., skiprows=n) on the content of a file *)
  parse_table : nat → string → result ndarray;
  (* pickle: DataFrame.to_pickle and pd.read_pickle on the content of a file *)
  pickle_dumps : DataFrame → string;
  pickle_loads : string → result DataFrame;
  (* plt.errorbar(x, y, yerr, ...) *)
  errorbar : list R → list R → list R → result unit;
  (* cells 14-26: fit of the first curve, histogram, tables, curve_fit *)
  fit_first : curve → result unit;
  (* the rest of cell 28 and cells 30-41: the global fits and their tables *)
  fit_global : DataFrame → result unit
}.

Inductive fs_event :=
  | EvRead (path : string)
  | EvList (dir : string)
  | EvWrite (path : string).

(** The files by path, and the file-system calls made so far. *)
Record world := World { files : gmap string string; events : list fs_event }.

(** A cell: it returns or raises, and leaves a world behind either way. *)
Definition NB (A : Type) : Type := world → result A * world.

#[export] Instance NB_ret : MRet NB := fun A a w => (Ok a, w).
#[export] Instance NB_bind : MBind NB :=
  fun A B k m w =>
    match m w with
    | (Ok a, w') => k a w'
    | (Raise e, w') => (Raise e, w')
    end.

Definition lift {A} (r : result A) : NB A := fun w => (r, w).

Definition log (e : fs_event) : NB unit :=
  fun w => (Ok (), World (files w) (events w ++ [e])).

(** Opening a file to read it: [OSError] when there is none at [path]. *)
Definition read_file (path : string) : NB string :=
  fun w =>
    (match files w !! path with
     | Some c => Ok c
     | None => Raise OSError
     end, World (files w) (events w ++ [EvRead path])).

(** Writing a file: it is created or replaced. *)
Definition write_file (path content : string) : NB unit :=
  fun w =>
    (Ok (), World (<[path := content]> (files w)) (events w ++ [EvWrite path])).

(** [for a in l: body] *)
Fixpoint for_ {A} (l : list A) (body : A → NB unit) : NB unit :=
  match l with
  | [] => mret ()
  | a :: l' => _ ← body a; for_ l' body
  end.

(** [for a in l: s = body(a, s)] for a loop that updates a variable. *)
Fixpoint for_acc {A S} (l : list A) (body : A → S → NB S) (s : S) : NB S :=
  match l with
  | [] => mret s
  | a :: l' => s' ← body a s; for_acc l' body s'
  end.

Section Notebook.

Variable L : library.

Definition loadtxt (path : string) (skiprows : nat) : NB ndarray :=
  c ← read_file path; lift (parse_table L skiprows c).

Definition read_pickle (path : string) : NB DataFrame :=
  c ← read_file path; lift (pickle_loads L c).

Definition to_pickle (df : DataFrame) (path : string) : NB unit :=
  write_file path (pickle_dumps L df).

(** [for conc in [0,0.2,0.5,1.0,1.5]] *)
Definition concs : list R := [0; 0.2; 0.5; 1.0; 1.5].

(** ['data/fluorescence/quencher_{:1.1f}.txt'.format(conc)] *)
Definition quencher_file (conc : R) : string :=
  "data/fluorescence/quencher_" +:+ format_1_1f L conc +:+ ".txt".

Definition pickle_file : string := "data/fluorescence.p".

(** [!head -n 13 'data/fluorescence/quencher_0.0.txt']: a shell command;
    a missing file is no Python exception. *)
Definition cell6 : NB unit := log (EvRead "data/fluorescence/quencher_0.0.txt").

(** [!ls 'data/fluorescence'] *)
Definition cell7 : NB unit := log (EvList "data/fluorescence").

(** [t,F = np.loadtxt(..., unpack=True, skiprows=9)]: two rows to unpack. *)
Definition unpack2 (d : ndarray) : result (list R * list R) :=
  match d with
  | Arr2 rows => Ok (rows.*1, rows.*2)
  | Arr1 [t; F] => Ok ([t], [F])
  | Arr1 _ => Raise ValueError
  end.

Definition cell8 : NB unit :=
  for_ concs (λ conc,
    d ← loadtxt (quencher_file conc) 9;
    tF ← lift (unpack2 d);
    lift (errorbar L tF.1 tF.2 (map sqrt tF.2))).

Definition cell9 : NB unit :=
  for_ concs (λ conc,
    d ← loadtxt (quencher_file conc) 9;
    c ← lift (Prep.preprocess d);
    lift (errorbar L (Curve.t c) (Curve.F c) (Curve.Ferr c))).

(** The dictionary [data] after the loop of cell 11. *)
Definition cell11_data : NB DataFrame :=
  for_acc concs (λ conc data,
    d ← loadtxt (quencher_file conc) 9;
    c ← lift (Prep.preprocess d);
    mret (dict_set conc c data)) [].

(** [dataframe = pd.DataFrame(data); dataframe.to_pickle('data/fluorescence.p')] *)
Definition cell11 : NB DataFrame :=
  data ← cell11_data;
  let dataframe := data in
  _ ← to_pickle dataframe pickle_file;
  mret dataframe.

(** [d = pd.read_pickle('data/fluorescence.p')[0.0]], then cells 14-26. *)
Definition cell13 : NB unit :=
  df ← read_pickle pickle_file;
  d ← lift (dict_get 0.0 df);
  lift (fit_first L d).

(** [data = pd.read_pickle('data/fluorescence.p')], then the global fits. *)
Definition cell28 : NB unit :=
  data ← read_pickle pickle_file;
  lift (fit_global L data).

(** The cells in order; the run stops at the first exception. *)
Definition run : NB unit :=
  _ ← cell6;
  _ ← cell7;
  _ ← cell8;
  _ ← cell9;
  _ ← cell11;
  _ ← cell13;
  cell28.

End Notebook.

(** ** The formulas of the text cells *)

(** Cell 3: [F(t) = F(0) exp(-t/tau0)]. *)
Definition single_exponential_decay (F0 tau0 t : R) : R :=
  F0 * exp (- t / tau0).

(** Cell 4: [F(t) = F(0) exp{-t/tau0 - m [1 - exp(-k_q t)]}]. *)
Definition quenching_decay (F0 tau0 k_q m t : R) : R :=
  F0 * exp (- t / tau0 - m * (1 - exp (- k_q * t))).

(** A dataset of the global fit: the arrays [(x, y, yerr)] of one curve. *)
Definition dataset : Type := list R * list R * list R.

(** The residuals of a dataset against a model curve, weighted by [yerr]. *)
Definition weighted_residuals (model : R → R) (d : dataset) : list R :=
  zip_with Rdiv (zip_with Rminus d.1.2 (map model d.1.1)) d.2.

(** A dataset has one length, and weights that are positive. *)
Definition dataset_ok (d : dataset) : Prop :=
  length d.1.1 = length d.1.2 ∧ length d.1.2 = length d.2 ∧ Forall (λ e, 0 < e) d.2.

(** The intensity column attains its maximum [fmax] at one row only, the row
    [(tmax, fmax)]. *)
Definition unique_max (rows : list (R * R)) (tmax fmax : R) : Prop :=
  ∃ pre post, rows = pre ++ (tmax, fmax) :: post
              ∧ Forall (λ r, r.2 < fmax) (pre ++ post).

(** ** What a run may do to the file system *)

(** A path of the form [data/fluorescence/quencher_*.txt]. *)
Definition is_quencher_file (path : string) : Prop :=
  ∃ s, path = "data/fluorescence/quencher_" +:+ s +:+ ".txt".

(** The calls of the cells: reading a data file or the pickle, listing the
    directory of the data files, writing the pickle. *)
Definition notebook_interaction (e : fs_event) : Prop :=
  match e with
  | EvRead path => is_quencher_file path ∨ path = "data/fluorescence.p"
  | EvList dir => dir = "data/fluorescence"
  | EvWrite path => path = "data/fluorescence.p"
  end.

(** The calls among them that read a data file, or write or read the pickle. *)
Definition named_interaction (e : fs_event) : Prop :=
  match e with
  | EvList _ => False
  | _ => notebook_interaction e
  end.

Definition is_write (e : fs_event) : bool :=
  match e with
  | EvWrite _ => true
  | _ => false
  end.

(** The number of writes among the calls [evs]. *)
Definition writes (evs : list fs_event) : nat :=
  length (filter (λ e, is_write e = true) evs).

Definition is_Ok {A} (r : result A) : Prop :=
  match r with
  | Ok _ => True
  | Raise _ => False
  end.

(** A cell [m] that makes calls of the notebook only, writes at most [n]
    times, [n] times when it returns, and leaves every file but the pickle
    as it was. *)
Definition confined {A} (n : nat) (m : NB A) : Prop :=
  ∀ w, ∃ evs,
    events (m w).2 = events w ++ evs
    ∧ Forall notebook_interaction evs
    ∧ (writes evs ≤ n)%nat
    ∧ (is_Ok (m w).1 → writes evs = n)
    ∧ ∀ path, path ≠ "data/fluorescence.p" → files (m w).2 !! path = files w !! path.

(** The curve stored for [conc] comes from the file of [conc] in the world
    [w]: [F] holds the intensities of the rows that the filter kept, [Ferr]
    their square roots. *)
Definition stored_curve (L : library) (w : world) (conc : R) (c : curve) : Prop :=
  ∃ content rows kept,
    files w !! quencher_file L conc = Some content
    ∧ parse_table L 9 content = Ok (Arr2 rows)
    ∧ Prep.discard_before_max rows = Ok kept
    ∧ Curve.F c = kept.*2
    ∧ Curve.Ferr c = map sqrt (Curve.F c).

(** ** A small world to run the cells in *)

Module Demo.

(** A decay of four points; the maximum sits at [t = 1]. *)
Definition rows : list (R * R) := [(0, 1); (1, 5); (2, 3); (3, 2)].

(** The curve that cell 11 stores for [rows]. *)
Definition stored : curve := Curve.Build [2 - 2; 3 - 2] [3; 2] [sqrt 3; sqrt 2].

(** A library whose calls all return: every concentration is printed as
    ["0.0"], every file parses to [rows], and the pickle is a tag. *)
Definition lib : library :=
  {| format_1_1f := λ _, "0.0";
     parse_table := λ _ _, Ok (Arr2 rows);
     pickle_dumps := λ _, "pickle";
     pickle_loads := λ _, Ok [(0, stored)];
     errorbar := λ _ _ _, Ok ();
     fit_first := λ _, Ok ();
     fit_global := λ _, Ok () |}.

Definition data_file : string := "data/fluorescence/quencher_0.0.txt".

(** One data file and nothing else. *)
Definition start : world := World {[ data_file := "t F" ]} [].

(** A library on an empty disk. *)
Definition bare : library :=
  {| format_1_1f := λ _, "0.0";
     parse_table := λ _ _, Raise ValueError;
     pickle_dumps := λ _, "";
     pickle_loads := λ _, Raise ValueError;
     errorbar := λ _ _ _, Ok ();
     fit_first := λ _, Ok ();
     fit_global := λ _, Ok () |}.

(** A fit of one parameter to two points: the Jacobian [[3], [4]] has
    the singular value 5. *)
Definition J : matrix := Matrix 2 1 (λ i _, match i with O => 3 | _ => 4 end).

Definition res : OptimizeResult :=
  {| x := [1]; cost := 2.5; fun_ := [1; 2]; jac := J |}.

Definition U : matrix := Matrix 2 1 (λ i _, match i with O => 0.6 | _ => 0.8 end).

Definition VT : matrix := Matrix 1 1 (λ _ _, 1).

Definition svd (M : matrix) : result (matrix * list R * matrix) :=
  Ok (U, [5], VT).

End Demo.

(** ** The covariance matrix in the words of the text *)

Module Spec.

(** The product of two matrices. *)
Definition mmul (A B : matrix) : matrix :=
  Matrix (nrows A) (ncols B)
    (λ i j, Mat.sum_upto (ncols A) (λ l, entry A i l * entry B l j)).

(** [diag(1/s^2)], the singular values that do not exceed the threshold
    discarded. *)
Definition inv_sq_diag (s : list R) (threshold : R) : matrix :=
  Matrix (length s) (length s)
    (λ a b, if decide (a = b ∧ nth a s 0 > threshold)
            then 1 / (nth a s 0) ^ 2 else 0).

(** [pcov = V * diag(1/s^2) * V^T * s_sq] for [V] the transpose of [VT]. *)
Definition pcov (VT : matrix) (s : list R) (threshold s_sq : R) : matrix :=
  Mat.scale (mmul (mmul (Mat.transpose VT) (inv_sq_diag s threshold)) VT) s_sq.

(** The sum of the squared residuals. *)
Definition sum_sq (r : list R) : R := foldr (λ ri acc, ri ^ 2 + acc) 0 r.

End Spec.

(** What [scipy.linalg.svd(J, full_matrices=False)] promises of its result
    [(U, s, VT)]: one row of [VT] per singular value, and the singular
    values non-negative, in non-increasing order. *)
Definition svd_result_ok (usv : matrix * list R * matrix) : Prop :=
  nrows usv.2 = length usv.1.2
  ∧ Forall (λ v, 0 <= v) usv.1.2
  ∧ StronglySorted Rge usv.1.2.

(** ** Cell 28: the arguments of the global fit *)

Module Cell28.

(** [for conc in data.columns: allx.append(data[conc]['t']); ...], then
    [args = allx, ally, allyerr]; the columns of a DataFrame have distinct
    keys. *)
Definition args (data : DataFrame) : list (list (list R)) :=
  [map (λ kc, Curve.t kc.2) data;
   map (λ kc, Curve.F kc.2) data;
   map (λ kc, Curve.Ferr kc.2) data].

(** [param0 = [3000, 160, 0.04, 0] + [0.5]*4] *)
Definition param0 : list R := [3000; 160; 0.04; 0] ++ replicate 4 0.5.

End Cell28.

(** ** Cell 35: the data of the linearized fit *)

#[export] Instance Rle_decision (a b : R) : Decision (a <= b) := Rle_dec a b.

Module Linearize.

(** [np.log] on a float64 scalar: zero and the negative numbers warn by
    default and raise under [np.seterr(all='raise')]. *)
Definition log (st : Np.errstate) (v : R) : result R :=
  match st with
  | Np.ErrWarn => Ok (ln v)
  | Np.ErrRaise => if decide (v <= 0) then Raise FloatingPointError else Ok (ln v)
  end.

(** [a[i][j] = v] for a tuple [a] of lists: [IndexError] out of range. *)
Definition setitem2 {A} (a : list (list A)) (i j : nat) (v : A)
    : result (list (list A)) :=
  row ← getitem a i;
  if decide (j < length row)%nat
  then Ok (<[i := <[j := v]> row]> a)
  else Raise IndexError.

(** The body of the loop, on the three lists of cell 28:
    [args[2][i] = args[2][i]/args[1][i]
     args[1][i] = np.log(args[1][i])] *)
Definition step (st : Np.errstate) (args : list (list (list R))) (i : nat)
    : result (list (list (list R))) :=
  allyerr ← getitem args 2;
  yerr ← getitem allyerr i;
  ally ← getitem args 1;
  y ← getitem ally i;
  q ← Np.broadcast (Np.divide st) yerr y;
  args1 ← setitem2 args 2 i q;
  ally1 ← getitem args1 1;
  y1 ← getitem ally1 i;
  l ← mapM (log st) y1;
  setitem2 args1 1 i l.

(** [for i in range(n)] *)
Fixpoint loop (st : Np.errstate) (args : list (list (list R))) (i n : nat)
    : result (list (list (list R))) :=
  match n with
  | O => Ok args
  | S n' => args' ← step st args i; loop st args' (S i) n'
  end.

(** [for i in range( data.columns.size )] *)
Definition cell35 (st : Np.errstate) (args : list (list (list R)))
    (data : DataFrame) : result (list (list (list R))) :=
  loop st args 0 (length data).

End Linearize.

(** ** Cells 23, 33 and 38: parameters and errors side by side *)

Module Table.

(** [np.repeat(a, 2)] *)
Definition repeat2 (a : list R) : list R := a ≫= λ v, [v; v].

(** The values [v] on the odd positions of [a]. *)
Fixpoint put_odd (a v : list R) : list R :=
  match a, v with
  | a0 :: _ :: a', e :: v' => a0 :: e :: put_odd a' v'
  | _, _ => a
  end.

(** [a[1::2] = v]: one value per odd position of [a], or one value for all
    of them; any other shape raises [ValueError]. *)
Definition assign_odd (a v : list R) : result (list R) :=
  let k := (length a / 2)%nat in
  if decide (length v = k) then Ok (put_odd a v)
  else match v with
       | [e] => Ok (put_odd a (replicate k e))
       | _ => Raise ValueError
       end.

Section Cells.

Variable svd : matrix → result (matrix * list R * matrix).

(** [p_and_err = np.repeat(res.x, 2)
     p_and_err[1::2] = error_analysis(res)[0]
     print('Reduced chi squared:',error_analysis(res)[1])]:
    the number printed and the row of the table. *)
Definition p_and_err (st : Np.errstate) (res : OptimizeResult)
    : result (R * list R) :=
  let p := repeat2 (x res) in
  ea ← error_analysis svd st res;
  p' ← assign_odd p ea.1;
  ea' ← error_analysis svd st res;
  mret (ea'.2, p').

End Cells.

End Table.

(** ** Reading the files *)

(** A cell that leaves every file as it was. *)
Definition read_only {A} (m : NB A) : Prop :=
  ∀ w, files (m w).2 = files w.

(** A cell whose result is the same in two worlds whose files are related
    by [Rel]. *)
Definition respects (Rel : gmap string string → gmap string string → Prop)
    {A} (m : NB A) : Prop :=
  ∀ w w', Rel (files w) (files w') → (m w).1 = (m w').1.

(** The same files, the pickle apart. *)
Definition same_inputs (f f' : gmap string string) : Prop :=
  ∀ path, path ≠ "data/fluorescence.p" → f !! path = f' !! path.

(** ** The Gram matrix of the Jacobian *)


(** The rows and the columns of the square matrix [M] are orthonormal. *)
Definition orthogonal (M : matrix) : Prop :=
  nrows M = ncols M
  ∧ (∀ a b, (a < nrows M)%nat → (b < nrows M)%nat →
       Mat.sum_upto (ncols M) (λ m, entry M a m * entry M b m)
       = if decide (a = b) then 1 else 0)
  ∧ (∀ i j, (i < ncols M)%nat → (j < ncols M)%nat →
       Mat.sum_upto (nrows M) (λ l, entry M l i * entry M l j)
       = if decide (i = j) then 1 else 0).

(** ** The linearized data *)

(** The dataset [(x, ln y, yerr / y)] of the task of cell 34. *)
Definition linearized (d : dataset) : dataset :=
  (d.1.1, map ln d.1.2, zip_with Rdiv d.2 d.1.2).

(** The columns of a DataFrame as the datasets of the fit. *)
Definition datasets_of (data : DataFrame) : list dataset :=
  map (λ kc, (Curve.t kc.2, Curve.F kc.2, Curve.Ferr kc.2)) data.

(** ** A library whose pickle holds what was written *)

(** The DataFrame that cell 11 builds in the world [Demo.start]. *)
Definition demo_dataframe : DataFrame :=
  foldl (λ data conc, dict_set conc Demo.stored data) [] concs.

(** [Demo.lib] with a pickle that loads to the DataFrame of cell 11. *)
Definition demo_roundtrip : library :=
  {| format_1_1f := λ _, "0.0";
     parse_table := λ _ _, Ok (Arr2 Demo.rows);
     pickle_dumps := λ _, "pickle";
     pickle_loads := λ _, Ok demo_dataframe;
     errorbar := λ _ _ _, Ok ();
     fit_first := λ _, Ok ();
     fit_global := λ _, Ok () |}.


(** ** The contract of the singular value decomposition *)

(** What [scipy.linalg.svd(J, full_matrices=False)] returns for a matrix [J]
    with at least as many rows as columns: [J = U diag(s) VT], one singular
    value per column of [J], orthonormal columns of [U] and an orthogonal
    [VT]. *)
Definition thin_svd (J : matrix) (usv : matrix * list R * matrix) : Prop :=
  let U := usv.1.1 in
  let s := usv.1.2 in
  let VT := usv.2 in
  length s = ncols J
  ∧ nrows VT = ncols J
  ∧ (∀ r i, (r < nrows J)%nat → (i < ncols J)%nat →
       entry J r i
       = Mat.sum_upto (ncols J) (λ l, entry U r l * (nth l s 0 * entry VT l i)))
  ∧ (∀ l m, (l < ncols J)%nat → (m < ncols J)%nat →
       Mat.sum_upto (nrows J) (λ r, entry U r l * entry U r m)
       = if decide (l = m) then 1 else 0)
  ∧ orthogonal VT.


(** ** Cell 21 with the squares of float64 *)

Module F64.

(** [s**2] on float64 values: a square of at most [2^-1075], half the
    smallest positive float64, is rounded to [0.0]; every other square is
    taken as the real square (its rounding is outside the model). *)
Definition square (v : R) : R :=
  if decide (v ^ 2 <= / 2 ^ 1075) then 0 else v ^ 2.

Section ErrorAnalysis.

Variable svd : matrix → result (matrix * list R * matrix).

(** [def error_analysis(res)], the squares [s**2] taken in float64. *)
Definition error_analysis (st : Np.errstate) (res : OptimizeResult)
    : result (list R * R) :=
  let cost := 2 * cost res in
  s_sq ← Np.divide st cost
           (IZR (Z.of_nat (length (fun_ res)) - Z.of_nat (length (x res))));
  usv ← svd (jac res);
  let s := usv.1.2 in
  let VT := usv.2 in
  s0 ← getitem s 0;
  let threshold := eps * INR (Nat.max (nrows (jac res)) (ncols (jac res))) * s0 in
  let s := filter (λ si, si > threshold) s in
  let VT := Mat.first_rows (length s) VT in
  q ← Mat.divide_columns st (Mat.transpose VT) (map square s);
  d ← Mat.dot q VT;
  let pcov := Mat.scale d s_sq in
  mret (map sqrt (Mat.diag pcov), s_sq).

End ErrorAnalysis.

End F64.

(** A fit of one parameter to two points whose Jacobian [[2^-600], [0]] has
    the singular value [2^-600]. *)
Module Tiny.

Definition J : matrix :=
  Matrix 2 1 (λ i _, match i with O => / 2 ^ 600 | _ => 0 end).

Definition res : OptimizeResult :=
  {| x := [1]; cost := 2.5; fun_ := [1; 2]; jac := J |}.

Definition U : matrix := Matrix 2 1 (λ i _, match i with O => 1 | _ => 0 end).

Definition VT : matrix := Matrix 1 1 (λ _ _, 1).

Definition svd (M : matrix) : result (matrix * list R * matrix) :=
  Ok (U, [/ 2 ^ 600], VT).

End Tiny.

(** ** Statements in sequence, without handlers *)

(** The call [m] raises [e], or it returns a value with which [rest] holds:
    how [e] comes out of a statement that is followed by others. *)
Definition raises_or {A} (m : result A) (e : exn) (rest : A → Prop) : Prop :=
  m = Raise e ∨ ∃ a, m = Ok a ∧ rest a.

(** The same for a cell that runs in the world [w] and stops in [w']. *)
Definition stops_or {A} (m : NB A) (w : world) (e : exn) (w' : world)
    (rest : A → world → Prop) : Prop :=
  m w = (Raise e, w') ∨ ∃ a w1, m w = (Ok a, w1) ∧ rest a w1.

(** The body of the loop of cell 30 for the item [m] of index [i]; it
    returns the array [r]. *)
Definition loop_body (func : list R → list R → result (list R))
    (st : Np.errstate) (p : list R) (args : list (list (list R))) (i : nat) (m : R)
    : result (list R) :=
  p0 ← getitem p 0;
  p1 ← getitem p 1;
  p2 ← getitem p 2;
  let param := [p0; p1; p2; m] in
  ally ← getitem args 1;
  y ← getitem ally i;
  allx ← getitem args 0;
  x ← getitem allx i;
  f ← func x param;
  d ← Np.broadcast Np.subtract y f;
  allyerr ← getitem args 2;
  yerr ← getitem allyerr i;
  Np.broadcast (Np.divide st) d yerr.

(** The bodies of the loops of cells 8, 9 and 11. *)
Definition cell8_body (L : library) (conc : R) : NB unit :=
  d ← loadtxt L (quencher_file L conc) 9;
  tF ← lift (unpack2 d);
  lift (errorbar L tF.1 tF.2 (map sqrt tF.2)).

Definition cell9_body (L : library) (conc : R) : NB unit :=
  d ← loadtxt L (quencher_file L conc) 9;
  c ← lift (Prep.preprocess d);
  lift (errorbar L (Curve.t c) (Curve.F c) (Curve.Ferr c)).

Definition cell11_body (L : library) (conc : R) (data : DataFrame) : NB DataFrame :=
  d ← loadtxt L (quencher_file L conc) 9;
  c ← lift (Prep.preprocess d);
  mret (dict_set conc c data).


(** * Properties *)

(** ** The result monad and array operations *)

(** Closes [Forall P [a; b; ...]] for a linear condition [P] on reals. *)
Ltac Forall_lra :=
  repeat (apply Forall_cons_2; [cbv beta; cbn [fst snd]; lra|]); apply Forall_nil_2.

Lemma bind_Ok {A B} (k : A → result B) (a : A) : (Ok a ≫= k) = k a.
Proof. reflexivity. Qed.

Lemma bind_Raise {A B} (k : A → result B) (e : exn) : (Raise e ≫= k) = Raise e.
Proof. reflexivity. Qed.

Lemma bind_Ok_inv {A B} (m : result A) (k : A → result B) (b : B) :
  (m ≫= k) = Ok b → ∃ a, m = Ok a ∧ k a = Ok b.
Proof. destruct m as [a|e]; [eauto | discriminate]. Qed.

Lemma mapM_Ok {A B} (f : A → result B) (g : A → B) (l : list A) :
  Forall (λ a, f a = Ok (g a)) l → mapM f l = Ok (map g l).
Proof.
  induction 1 as [|a l Ha _ IH]; [reflexivity|].
  cbn. rewrite Ha. cbn. rewrite IH. reflexivity.
Qed.

Lemma mapM_zip_Ok {A B C} (f : A → B → result C) (g : A → B → C) a b :
  Forall (λ ab, f ab.1 ab.2 = Ok (g ab.1 ab.2)) (zip a b) →
  mapM (λ ab, f ab.1 ab.2) (zip a b) = Ok (zip_with g a b).
Proof.
  revert b. induction a as [|u a IH]; intros [|v b] H; try reflexivity.
  cbn in *. inversion H as [|? ? Huv Hrest]; subst. cbn in Huv.
  rewrite Huv. cbn. rewrite (IH b Hrest). reflexivity.
Qed.

Lemma divide_Ok st a b : (st = Np.ErrRaise → b ≠ 0) → Np.divide st a b = Ok (a / b).
Proof.
  intros Hb. destruct st; [reflexivity|]. unfold Np.divide.
  rewrite decide_False; [reflexivity | auto].
Qed.

Lemma broadcast_same_length {A B C} (f : A → B → result C) a b :
  length a = length b →
  Np.broadcast f a b = mapM (λ ab, f ab.1 ab.2) (zip a b).
Proof. intros H. unfold Np.broadcast. rewrite decide_True; [reflexivity | exact H]. Qed.

Lemma broadcast_Ok {A B C} (f : A → B → result C) (g : A → B → C) a b :
  length a = length b →
  Forall (λ ab, f ab.1 ab.2 = Ok (g ab.1 ab.2)) (zip a b) →
  Np.broadcast f a b = Ok (zip_with g a b).
Proof.
  intros Hlen H. rewrite broadcast_same_length by exact Hlen.
  apply mapM_zip_Ok, H.
Qed.

Lemma broadcast_subtract a b :
  length a = length b → Np.broadcast Np.subtract a b = Ok (zip_with Rminus a b).
Proof.
  intros H. apply broadcast_Ok; [exact H|]. apply Forall_forall. reflexivity.
Qed.

Lemma broadcast_add a b :
  length a = length b → Np.broadcast Np.add a b = Ok (zip_with Rplus a b).
Proof.
  intros H. apply broadcast_Ok; [exact H|]. apply Forall_forall. reflexivity.
Qed.

Lemma broadcast_divide st a b :
  length a = length b → (st = Np.ErrRaise → Forall (λ e, e ≠ 0) b) →
  Np.broadcast (Np.divide st) a b = Ok (zip_with Rdiv a b).
Proof.
  intros Hlen Hb. apply broadcast_Ok; [exact Hlen|].
  apply Forall_forall. intros [u v] Hin. cbn. apply divide_Ok.
  intros Hst. specialize (Hb Hst). rewrite Forall_forall in Hb. apply Hb.
  apply (elem_of_zip_r _ _ _ _ Hin).
Qed.

Lemma mapM_divide st (p : R) (g : R → R) (l : list R) :
  (st = Np.ErrRaise → p ≠ 0) →
  mapM (λ xi, Np.divide st (g xi) p) l = Ok (map (λ xi, g xi / p) l).
Proof.
  intros Hp. apply mapM_Ok, Forall_forall. intros a _. apply divide_Ok, Hp.
Qed.

(** ** The single-exponential residuals (cell 13) *)

Lemma single_func_Ok st x F0 tau0 :
  (st = Np.ErrRaise → tau0 ≠ 0) →
  SingleExp.func st x [F0; tau0] = Ok (map (λ xi, F0 * exp (- xi / tau0)) x).
Proof.
  intros Htau. unfold SingleExp.func. cbn.
  rewrite (mapM_divide st tau0 Ropp x Htau). cbn.
  rewrite map_map. reflexivity.
Qed.

(** C5. The residual function of the single-exponential fit returns,
    element by element, [(y - F0 * exp(-x / tau0)) / yerr] for the parameter
    pair [(F0, tau0)] with [tau0] not zero and a dataset [(x, y, yerr)] of
    three arrays of one length with non-zero errors, under either error
    state of NumPy. At [tau0 = 0] the quotient [-x / tau0] is no real number
    ([-inf] or [nan] in float64), and the statement says nothing there. *)
Theorem leastsq_function_weighted_residuals st F0 tau0 (x y yerr : list R) :
  tau0 ≠ 0 →
  length x = length y → length y = length yerr →
  Forall (λ e, e ≠ 0) yerr →
  SingleExp.leastsq_function (SingleExp.func st) st [F0; tau0] [x; y; yerr]
  = Ok (zip_with Rdiv
          (zip_with Rminus y (map (λ xi, F0 * exp (- xi / tau0)) x)) yerr).
Proof.
  intros Htau Hxy Hye Hnz. unfold SingleExp.leastsq_function.
  cbn -[SingleExp.func]. rewrite (single_func_Ok st x F0 tau0 (λ _, Htau)). cbn.
  rewrite broadcast_subtract by (rewrite length_map; congruence). cbn.
  apply broadcast_divide; [|auto].
  rewrite length_zip_with, length_map. lia.
Qed.

Lemma leastsq_function_weighted_residuals_witness :
  SingleExp.leastsq_function (SingleExp.func Np.ErrWarn) Np.ErrWarn
    [3000; 150] [[0; 1]; [2900; 2800]; [50; 40]]
  = Ok [(2900 - 3000 * exp (- 0 / 150)) / 50; (2800 - 3000 * exp (- 1 / 150)) / 40].
Proof.
  apply (leastsq_function_weighted_residuals Np.ErrWarn 3000 150
           [0; 1] [2900; 2800] [50; 40]).
  - lra.
  - reflexivity.
  - reflexivity.
  - Forall_lra.
Defined.

(** ** The quenching model (cell 30) *)

Lemma global_func_Ok st x p0 p1 p2 m :
  (st = Np.ErrRaise → p1 ≠ 0) →
  GlobalFit.func st x [p0; p1; p2; m]
  = Ok (map (λ t, p0 * exp (- t / p1 + m * Np.expm1 (- p2 * t))) x).
Proof.
  intros Hp1. unfold GlobalFit.func. cbn.
  rewrite (mapM_divide st p1 Ropp x Hp1). cbn.
  rewrite broadcast_add by (rewrite !length_map; reflexivity). cbn.
  f_equal. clear Hp1. induction x as [|t x IH]; [reflexivity|].
  cbn. f_equal. exact IH.
Qed.

Lemma quenching_decay_expm1 F0 tau0 k_q m t :
  F0 * exp (- t / tau0 + m * Np.expm1 (- k_q * t)) = quenching_decay F0 tau0 k_q m t.
Proof.
  unfold quenching_decay, Np.expm1. f_equal. f_equal. lra.
Qed.

(** C3. For a lifetime [tau0 > 0], times [t >= 0] and [k_q >= 0], [m >= 0],
    the model function of the global fit computes, at every time of its
    array, the quenching decay [F0 * exp(-t/tau0 - m * (1 - exp(-k_q * t)))]
    of the text, and with [m = 0] the single-exponential decay
    [F0 * exp(-t/tau0)], which is also what the model function of cell 13
    returns. *)
Theorem func_is_quenching_decay st F0 tau0 k_q m (x : list R) :
  tau0 > 0 → k_q >= 0 → m >= 0 → Forall (λ t, t >= 0) x →
  GlobalFit.func st x [F0; tau0; k_q; m] = Ok (map (quenching_decay F0 tau0 k_q m) x)
  ∧ GlobalFit.func st x [F0; tau0; k_q; 0]
    = Ok (map (single_exponential_decay F0 tau0) x)
  ∧ GlobalFit.func st x [F0; tau0; k_q; 0] = SingleExp.func st x [F0; tau0].
Proof.
  intros Htau _ _ _.
  assert (Hne : st = Np.ErrRaise → tau0 ≠ 0) by (intros _; lra).
  assert (H0 : GlobalFit.func st x [F0; tau0; k_q; 0]
               = Ok (map (single_exponential_decay F0 tau0) x)).
  { rewrite global_func_Ok by exact Hne. f_equal. apply map_ext. intros t.
    unfold single_exponential_decay. f_equal. f_equal. lra. }
  split; [|split].
  - rewrite global_func_Ok by exact Hne. f_equal. apply map_ext. intros t.
    apply quenching_decay_expm1.
  - exact H0.
  - rewrite H0, single_func_Ok by exact Hne. reflexivity.
Qed.

Lemma func_is_quenching_decay_witness :
  GlobalFit.func Np.ErrWarn [0; 10] [3000; 160; 0.04; 0.5]
  = Ok (map (quenching_decay 3000 160 0.04 0.5) [0; 10]).
Proof.
  apply (func_is_quenching_decay Np.ErrWarn 3000 160 0.04 0.5 [0; 10]).
  - lra.
  - lra.
  - lra.
  - Forall_lra.
Defined.

(** ** The residuals of the global fit (cell 30) *)

Lemma getitem_middle {A} (pre : list A) (a : A) (post : list A) :
  getitem (pre ++ a :: post) (length pre) = Ok a.
Proof. unfold getitem. rewrite list_lookup_middle; reflexivity. Qed.

Lemma getitem_fmap {A B} (f : A → B) (l : list A) (i : nat) (a : A) :
  getitem l i = Ok a → getitem (f <$> l) i = Ok (f a).
Proof.
  unfold getitem. rewrite list_lookup_fmap.
  destruct (l !! i); [|discriminate]. intros [= ->]. reflexivity.
Qed.

Lemma weighted_residuals_Ok st (model : R → R) (d : dataset) :
  dataset_ok d →
  (d0 ← Np.broadcast Np.subtract d.1.2 (map model d.1.1);
   Np.broadcast (Np.divide st) d0 d.2) = Ok (weighted_residuals model d).
Proof.
  intros (Hxy & Hye & Hpos).
  rewrite broadcast_subtract by (rewrite length_map; congruence). cbn.
  apply broadcast_divide.
  - rewrite length_zip_with, length_map. lia.
  - intros _. eapply Forall_impl; [exact Hpos|]. cbn. intros e He. lra.
Qed.

(** The loop from dataset [length pre] on appends one block per dataset. *)
Lemma loop_appends st p0 p1 p2 tl (pre ds : list dataset) (ms acc : list R) :
  (st = Np.ErrRaise → p1 ≠ 0) →
  length ms = length ds →
  Forall dataset_ok ds →
  GlobalFit.loop (GlobalFit.func st) st (p0 :: p1 :: p2 :: tl)
    [(pre ++ ds).*1.*1; (pre ++ ds).*1.*2; (pre ++ ds).*2] (length pre) ms acc
  = Ok (acc ++ concat (zip_with
          (λ m, weighted_residuals
                  (λ t, p0 * exp (- t / p1 + m * Np.expm1 (- p2 * t)))) ms ds)).
Proof.
  intros Hp1. revert pre ds acc.
  induction ms as [|m ms IH]; intros pre [|d ds] acc Hlen Hok; try discriminate.
  - cbn. rewrite app_nil_r. reflexivity.
  - inversion Hok as [|? ? Hd Hds]; subst.
    assert (Hget : getitem (pre ++ d :: ds) (length pre) = Ok d)
      by apply getitem_middle.
    cbn [GlobalFit.loop]. cbn [getitem lookup list_lookup mbind result_bind].
    rewrite (getitem_fmap snd _ _ _ (getitem_fmap fst _ _ _ Hget)).
    cbn [mbind result_bind].
    rewrite (getitem_fmap fst _ _ _ (getitem_fmap fst _ _ _ Hget)).
    cbn [mbind result_bind].
    rewrite (global_func_Ok st _ p0 p1 p2 m Hp1). cbn [mbind result_bind].
    rewrite (getitem_fmap snd _ _ _ Hget).
    pose proof (weighted_residuals_Ok st
      (λ t, p0 * exp (- t / p1 + m * Np.expm1 (- p2 * t))) d Hd) as Hr.
    destruct (Np.broadcast Np.subtract d.1.2 _) as [d0|e] eqn:Hsub; [|discriminate].
    cbn [mbind result_bind] in Hr |- *. rewrite Hr. cbn [mbind result_bind].
    specialize (IH (pre ++ [d]) ds (acc ++ weighted_residuals
      (λ t, p0 * exp (- t / p1 + m * Np.expm1 (- p2 * t))) d)).
    rewrite <- !(assoc_L (++) pre [d] ds) in IH. cbn [app] in IH.
    rewrite length_app in IH. cbn [length] in IH.
    replace (length pre + 1)%nat with (S (length pre)) in IH by lia.
    rewrite IH; [|cbn in Hlen; lia|exact Hds].
    cbn [zip_with concat]. rewrite <- !(assoc_L (++)). reflexivity.
Qed.

Lemma zip_with_imap_nth {B} (g : R → dataset → B) (ms : list R) (ds : list dataset) :
  length ms = length ds →
  zip_with g ms ds = imap (λ i d, g (nth i ms 0) d) ds.
Proof.
  revert ds. induction ms as [|m ms IH]; intros [|d ds] Hlen; try discriminate.
  - reflexivity.
  - cbn. f_equal. apply IH. cbn in Hlen. lia.
Qed.

(** C1. For a parameter vector [p] of length [3 + n] and [n] datasets
    [(x_i, y_i, yerr_i)] with positive weights, the residual function of the
    global fit returns the concatenation, in the order of the datasets, of
    the arrays [(y_i - func(x_i, (p[0], p[1], p[2], p[3+i]))) / yerr_i]:
    [p[0]], [p[1]] and [p[2]] enter every block, [p[3+i]] only block [i].
    Here [p[1]] is not zero: at [p[1] = 0] the quotient [-x / p[1]] is no
    real number ([-inf] or [nan] in float64), and the statement says nothing
    there. *)
Theorem global_leastsq_function_concatenates st (p : list R) (ds : list dataset) :
  length p = (3 + length ds)%nat →
  nth 1 p 0 ≠ 0 →
  Forall dataset_ok ds →
  let model i t :=
    nth 0 p 0 * exp (- t / nth 1 p 0 + nth (3 + i) p 0 * Np.expm1 (- nth 2 p 0 * t)) in
  GlobalFit.leastsq_function (GlobalFit.func st) st p [ds.*1.*1; ds.*1.*2; ds.*2]
  = Ok (concat (imap (λ i d, weighted_residuals (model i) d) ds))
  ∧ ∀ i d, ds !! i = Some d →
      GlobalFit.func st d.1.1 [nth 0 p 0; nth 1 p 0; nth 2 p 0; nth (3 + i) p 0]
      = Ok (map (model i) d.1.1).
Proof.
  intros Hlen Hp1 Hok model. split.
  - destruct p as [|p0 [|p1 [|p2 ms]]]; try (cbn in Hlen; lia).
    cbn in Hp1. unfold GlobalFit.leastsq_function.
    change (drop 3 (p0 :: p1 :: p2 :: ms)) with ms.
    assert (Hms : length ms = length ds) by (cbn in Hlen; lia).
    pose proof (loop_appends st p0 p1 p2 ms [] ds ms [] (λ _, Hp1) Hms Hok) as H.
    cbn [app length] in H. rewrite H. cbn [app]. f_equal. f_equal.
    apply (zip_with_imap_nth
             (λ m, weighted_residuals
                     (λ t, p0 * exp (- t / p1 + m * Np.expm1 (- p2 * t)))) ms ds Hms).
  - intros i d _. apply global_func_Ok. intros _. exact Hp1.
Qed.

Lemma global_leastsq_function_concatenates_witness :
  GlobalFit.leastsq_function (GlobalFit.func Np.ErrWarn) Np.ErrWarn
    [3000; 160; 0.04; 0; 0.5] [[[0; 1]; [0]]; [[2900; 2800]; [2700]]; [[50; 40]; [30]]]
  = Ok (concat (imap (λ i d, weighted_residuals
                 (λ t, nth 0 [3000; 160; 0.04; 0; 0.5] 0
                       * exp (- t / nth 1 [3000; 160; 0.04; 0; 0.5] 0
                              + nth (3 + i) [3000; 160; 0.04; 0; 0.5] 0
                                * Np.expm1 (- nth 2 [3000; 160; 0.04; 0; 0.5] 0 * t))) d)
          [([0; 1], [2900; 2800], [50; 40]); ([0], [2700], [30])])).
Proof.
  refine (proj1 (global_leastsq_function_concatenates Np.ErrWarn
                   [3000; 160; 0.04; 0; 0.5]
                   [([0; 1], [2900; 2800], [50; 40]); ([0], [2700], [30])] _ _ _)).
  - reflexivity.
  - cbn [nth]. lra.
  - repeat (apply Forall_cons_2;
            [split; [reflexivity | split; [reflexivity | Forall_lra]]|]).
    apply Forall_nil_2.
Defined.

(** ** Discarding the rise of the signal (cells 9 and 11) *)

Lemma foldl_Rmax_le (b v : R) (l : list R) :
  v <= b → Forall (λ u, u <= b) l → foldl Rmax v l <= b.
Proof.
  revert v. induction l as [|u l IH]; intros v Hv Hl; [exact Hv|].
  inversion Hl; subst. cbn. apply IH; [apply Rmax_lub|]; assumption.
Qed.

Lemma foldl_Rmax_init (v : R) (l : list R) : v <= foldl Rmax v l.
Proof.
  revert v. induction l as [|u l IH]; intros v; [apply Rle_refl|].
  cbn. eapply Rle_trans; [apply (Rmax_l v u) | apply IH].
Qed.

Lemma foldl_Rmax_elem (v u : R) (l : list R) : u ∈ l → u <= foldl Rmax v l.
Proof.
  revert v. induction l as [|u' l IH]; intros v Hin; [inversion Hin|].
  cbn. apply elem_of_cons in Hin as [->|Hin].
  - eapply Rle_trans; [apply (Rmax_r v u') | apply foldl_Rmax_init].
  - apply IH, Hin.
Qed.

Lemma amax_Ok (l : list R) (m : R) :
  m ∈ l → Forall (λ u, u <= m) l → Np.amax l = Ok m.
Proof.
  intros Hin Hle. destruct l as [|v l]; [inversion Hin|].
  cbn. f_equal. inversion Hle; subst. apply Rle_antisym.
  - apply foldl_Rmax_le; assumption.
  - apply elem_of_cons in Hin as [->|Hin];
      [apply foldl_Rmax_init | apply foldl_Rmax_elem, Hin].
Qed.

Lemma filter_none {A} (P : A → Prop) `{!∀ a, Decision (P a)} (l : list A) :
  Forall (λ a, ¬ P a) l → filter P l = [].
Proof.
  induction 1 as [|a l Ha _ IH]; [reflexivity|].
  rewrite filter_cons_False by exact Ha. exact IH.
Qed.

(** A one-element right operand is stretched over the left one. *)
Lemma broadcast_stretch_r {A B C} (f : A → B → result C) (g : A → C) a (v : B) :
  (∀ u, f u v = Ok (g u)) → Np.broadcast f a [v] = Ok (map g a).
Proof.
  intros Hf. unfold Np.broadcast. destruct (decide (length a = length [v])) as [Hl|Hl].
  - destruct a as [|u [|? ?]]; try discriminate. cbn. rewrite Hf. reflexivity.
  - destruct a as [|u [|u' a]].
    + reflexivity.
    + exfalso. apply Hl. reflexivity.
    + apply mapM_Ok, Forall_forall. intros ? _. apply Hf.
Qed.

Lemma bool_index_filter {A} (P : A → Prop) `{!∀ a, Decision (P a)} (l : list A) :
  Np.bool_index l (map (λ a, bool_decide (P a)) l) = Ok (filter P l).
Proof.
  unfold Np.bool_index. rewrite decide_True by (rewrite length_map; reflexivity).
  f_equal. induction l as [|a l IH]; [reflexivity|].
  cbn [map zip zip_with]. destruct (decide (P a)) as [Ha|Ha].
  - rewrite filter_cons_True by (cbn; apply bool_decide_eq_true_2, Ha).
    rewrite (filter_cons_True P) by exact Ha. cbn. f_equal. exact IH.
  - rewrite filter_cons_False
      by (cbn; rewrite bool_decide_eq_false_2 by exact Ha; discriminate).
    rewrite (filter_cons_False P) by exact Ha. exact IH.
Qed.

Lemma unique_max_amax rows tmax fmax :
  unique_max rows tmax fmax → Np.amax (rows.*2) = Ok fmax.
Proof.
  intros (pre & post & -> & Hlt). apply Forall_app in Hlt as [Hpre Hpost].
  apply amax_Ok.
  - rewrite fmap_app, fmap_cons. apply elem_of_app. right. apply elem_of_cons. left.
    reflexivity.
  - rewrite fmap_app, fmap_cons. apply Forall_app. split; [|apply Forall_cons_2].
    + apply Forall_fmap. eapply Forall_impl; [exact Hpre|]. cbn. intros; lra.
    + cbn. lra.
    + apply Forall_fmap. eapply Forall_impl; [exact Hpost|]. cbn. intros; lra.
Qed.

Lemma unique_max_filter rows tmax fmax :
  unique_max rows tmax fmax → filter (λ r, r.2 = fmax) rows = [(tmax, fmax)].
Proof.
  intros (pre & post & -> & Hlt). apply Forall_app in Hlt as [Hpre Hpost].
  rewrite filter_app, filter_cons_True by reflexivity.
  rewrite !filter_none; [reflexivity| |].
  - eapply Forall_impl; [exact Hpost|]. cbn. intros; lra.
  - eapply Forall_impl; [exact Hpre|]. cbn. intros; lra.
Qed.

(** With a unique maximum, the filter keeps the rows later than its time. *)
Lemma discard_before_max_unique rows tmax fmax :
  unique_max rows tmax fmax →
  Prep.discard_before_max rows = Ok (filter (λ r, r.1 > tmax) rows).
Proof.
  intros Hu. unfold Prep.discard_before_max.
  rewrite (unique_max_amax rows tmax fmax Hu). cbn [mbind result_bind].
  rewrite (unique_max_filter rows tmax fmax Hu). cbn [fmap list_fmap fst].
  rewrite (broadcast_stretch_r Prep.gt (λ t, bool_decide (t > tmax)))
    by reflexivity.
  cbn [mbind result_bind].
  change (map (λ t, bool_decide (t > tmax)) (rows.*1))
    with ((λ t, bool_decide (t > tmax)) <$> (fst <$> rows)).
  rewrite <- list_fmap_compose.
  apply (bool_index_filter (λ r, r.1 > tmax)).
Qed.

(** Evaluates [filter] on a list of concrete rows. *)
Ltac filter_lra :=
  repeat first [ rewrite filter_cons_True by (cbn; lra)
               | rewrite filter_cons_False by (cbn; lra)
               | rewrite filter_nil ].

Lemma preprocess_kept rows tmax fmax r0 rest :
  unique_max rows tmax fmax →
  filter (λ r, r.1 > tmax) rows = r0 :: rest →
  Prep.preprocess (Arr2 rows)
  = Ok (Curve.Build (map (λ t, t - r0.1) ((r0 :: rest).*1)) ((r0 :: rest).*2)
          (map sqrt ((r0 :: rest).*2))).
Proof.
  intros Hu Hk. unfold Prep.preprocess. cbn [Prep.rows_of mbind result_bind].
  rewrite (discard_before_max_unique rows tmax fmax Hu), Hk. reflexivity.
Qed.

Lemma preprocess_nothing_kept rows tmax fmax :
  unique_max rows tmax fmax →
  filter (λ r, r.1 > tmax) rows = [] →
  Prep.preprocess (Arr2 rows) = Raise IndexError.
Proof.
  intros Hu Hk. unfold Prep.preprocess. cbn [Prep.rows_of mbind result_bind].
  rewrite (discard_before_max_unique rows tmax fmax Hu), Hk. reflexivity.
Qed.

(** C8, as the code has it. For a loaded table whose intensity column
    attains its maximum at one row only, the filter keeps exactly the rows
    whose time is strictly greater than the time of that row, in their
    order, and so drops the row of the maximum; when a row is kept, the
    times are shifted by the first kept time, which becomes 0; when no row
    is kept, the step raises [IndexError] at [d[0,0]]. *)
Theorem preprocess_retains_rows_after_max rows tmax fmax :
  unique_max rows tmax fmax →
  let kept := filter (λ r, r.1 > tmax) rows in
  Prep.discard_before_max rows = Ok kept
  ∧ (∀ r, r ∈ kept ↔ r ∈ rows ∧ r.1 > tmax)
  ∧ ((tmax, fmax) ∉ kept)
  ∧ kept `sublist_of` rows
  ∧ (∀ r0 rest, kept = r0 :: rest →
       Prep.preprocess (Arr2 rows)
       = Ok (Curve.Build (map (λ t, t - r0.1) (kept.*1)) (kept.*2)
               (map sqrt (kept.*2)))
       ∧ head (map (λ t, t - r0.1) (kept.*1)) = Some 0)
  ∧ (kept = [] → Prep.preprocess (Arr2 rows) = Raise IndexError).
Proof.
  intros Hu kept. split; [|split; [|split; [|split; [|split]]]].
  - apply (discard_before_max_unique rows tmax fmax Hu).
  - intros r. subst kept. rewrite list_elem_of_filter. tauto.
  - intros Hin. apply list_elem_of_filter in Hin as [Hgt _]. cbn in Hgt. lra.
  - apply sublist_filter.
  - intros r0 rest Hk. subst kept. rewrite Hk. split.
    + apply (preprocess_kept rows tmax fmax r0 rest Hu Hk).
    + cbn. f_equal. lra.
  - apply (preprocess_nothing_kept rows tmax fmax Hu).
Qed.

Lemma preprocess_retains_rows_after_max_witness :
  let rows := [(0, 1); (1, 5); (2, 3); (3, 2)] in
  let kept := filter (λ r, r.1 > 1) rows in
  Prep.discard_before_max rows = Ok kept
  ∧ (∀ r, r ∈ kept ↔ r ∈ rows ∧ r.1 > 1)
  ∧ ((1, 5) ∉ kept)
  ∧ kept `sublist_of` rows
  ∧ (∀ r0 rest, kept = r0 :: rest →
       Prep.preprocess (Arr2 rows)
       = Ok (Curve.Build (map (λ t, t - r0.1) (kept.*1)) (kept.*2)
               (map sqrt (kept.*2)))
       ∧ head (map (λ t, t - r0.1) (kept.*1)) = Some 0)
  ∧ (kept = [] → Prep.preprocess (Arr2 rows) = Raise IndexError).
Proof.
  refine (preprocess_retains_rows_after_max [(0, 1); (1, 5); (2, 3); (3, 2)] 1 5 _).
  exists [(0, 1)], [(2, 3); (3, 2)]. split; [reflexivity|].
  cbn [app]. Forall_lra.
Defined.

(** C8 as stated fails where the maximum sits at the latest time: the
    maximum is unique, nothing is kept, and [d[0,0]] raises. *)
Lemma preprocess_maximum_at_last_row :
  unique_max [(0, 1); (1, 5)] 1 5
  ∧ Prep.discard_before_max [(0, 1); (1, 5)] = Ok []
  ∧ Prep.preprocess (Arr2 [(0, 1); (1, 5)]) = Raise IndexError.
Proof.
  assert (Hu : unique_max [(0, 1); (1, 5)] 1 5).
  { exists [(0, 1)], []. split; [reflexivity|]. cbn [app]. Forall_lra. }
  assert (Hk : filter (λ r : R * R, r.1 > 1) [(0, 1); (1, 5)] = [])
    by (filter_lra; reflexivity).
  split; [exact Hu|]. split.
  - rewrite (discard_before_max_unique _ 1 5 Hu), Hk. reflexivity.
  - apply (preprocess_nothing_kept _ 1 5 Hu Hk).
Qed.

(** ** Cells and the file system *)

Lemma NB_bind_unfold {A B} (m : NB A) (k : A → NB B) (w : world) :
  (m ≫= k) w = match m w with
               | (Ok a, w') => k a w'
               | (Raise e, w') => (Raise e, w')
               end.
Proof. reflexivity. Qed.

Lemma NB_bind_Ok_inv {A B} (m : NB A) (k : A → NB B) w b w' :
  (m ≫= k) w = (Ok b, w') → ∃ a w1, m w = (Ok a, w1) ∧ k a w1 = (Ok b, w').
Proof.
  rewrite NB_bind_unfold. destruct (m w) as [[a|e] w1]; [eauto | discriminate].
Qed.

Lemma writes_app evs1 evs2 : writes (evs1 ++ evs2) = (writes evs1 + writes evs2)%nat.
Proof. unfold writes. rewrite filter_app, length_app. reflexivity. Qed.

Lemma writes_one (e : fs_event) : writes [e] = if is_write e then 1%nat else 0%nat.
Proof.
  unfold writes. destruct (is_write e) eqn:He.
  - rewrite filter_cons_True by exact He. reflexivity.
  - rewrite filter_cons_False by (rewrite He; discriminate). reflexivity.
Qed.

Lemma confined_ret {A} (a : A) : confined 0 (mret a : NB A).
Proof.
  intros w. exists []. cbn. rewrite app_nil_r.
  split; [reflexivity|]. split; [apply Forall_nil_2|]. split; [reflexivity|].
  split; reflexivity.
Qed.

Lemma confined_lift {A} (r : result A) : confined 0 (lift r).
Proof.
  intros w. exists []. cbn. rewrite app_nil_r.
  split; [reflexivity|]. split; [apply Forall_nil_2|]. split; [reflexivity|].
  split; reflexivity.
Qed.

Lemma confined_bind {A B} n n' (m : NB A) (k : A → NB B) :
  confined n m → (∀ a, confined n' (k a)) → confined (n + n') (m ≫= k).
Proof.
  intros Hm Hk w. rewrite NB_bind_unfold.
  destruct (Hm w) as (evs & Hev & Hall & Hle & Hok & Hfr).
  destruct (m w) as [[a|e] w1]; cbn in *.
  - destruct (Hk a w1) as (evs' & Hev' & Hall' & Hle' & Hok' & Hfr').
    exists (evs ++ evs'). rewrite Hev', Hev, (assoc_L (++)), writes_app.
    rewrite (Hok I). split; [reflexivity|]. split; [apply Forall_app; auto|].
    split; [lia|]. split.
    + intros H. rewrite (Hok' H). reflexivity.
    + intros path Hp. rewrite (Hfr' path Hp). apply Hfr, Hp.
  - exists evs. split; [exact Hev|]. split; [exact Hall|]. split; [lia|].
    split; [intros []|exact Hfr].
Qed.

Lemma confined_bind_0 {A B} (m : NB A) (k : A → NB B) :
  confined 0 m → (∀ a, confined 0 (k a)) → confined 0 (m ≫= k).
Proof. apply (confined_bind 0 0). Qed.

Lemma confined_for {A} (l : list A) (body : A → NB unit) :
  (∀ a, confined 0 (body a)) → confined 0 (for_ l body).
Proof.
  intros Hb. induction l as [|a l IH]; [apply confined_ret|].
  cbn [for_]. apply confined_bind_0; [apply Hb | intros _; exact IH].
Qed.

Lemma confined_for_acc {A S} (l : list A) (body : A → S → NB S) (s : S) :
  (∀ a s', confined 0 (body a s')) → confined 0 (for_acc l body s).
Proof.
  intros Hb. revert s. induction l as [|a l IH]; intros s; [apply confined_ret|].
  cbn [for_acc]. apply confined_bind_0; [apply Hb | intros s'; apply IH].
Qed.

Lemma confined_log (e : fs_event) :
  notebook_interaction e → is_write e = false → confined 0 (log e).
Proof.
  intros He Hw w. exists [e]. rewrite writes_one, Hw.
  split; [reflexivity|]. split; [apply Forall_cons_2; [exact He|apply Forall_nil_2]|].
  split; [reflexivity|]. split; [reflexivity|]. reflexivity.
Qed.

Lemma confined_read_file (path : string) :
  is_quencher_file path ∨ path = "data/fluorescence.p" → confined 0 (read_file path).
Proof.
  intros Hp w. exists [EvRead path]. rewrite writes_one.
  split; [reflexivity|]. split; [apply Forall_cons_2; [exact Hp|apply Forall_nil_2]|].
  split; [reflexivity|]. split; [reflexivity|]. reflexivity.
Qed.

Lemma confined_write_pickle (content : string) :
  confined 1 (write_file "data/fluorescence.p" content).
Proof.
  intros w. exists [EvWrite "data/fluorescence.p"]. rewrite writes_one.
  split; [reflexivity|].
  split; [apply Forall_cons_2; [reflexivity|apply Forall_nil_2]|].
  split; [reflexivity|]. split; [reflexivity|].
  intros path Hp. cbn. apply lookup_insert_ne. congruence.
Qed.

Lemma quencher_file_is_quencher_file L conc : is_quencher_file (quencher_file L conc).
Proof. exists (format_1_1f L conc). reflexivity. Qed.

Lemma quencher_file_not_pickle path :
  is_quencher_file path → path ≠ "data/fluorescence.p".
Proof. intros [s ->]. cbn. discriminate. Qed.

Lemma confined_loadtxt L conc n : confined 0 (loadtxt L (quencher_file L conc) n).
Proof.
  apply confined_bind_0.
  - apply confined_read_file. left. apply quencher_file_is_quencher_file.
  - intros c. apply confined_lift.
Qed.

Lemma confined_read_pickle L : confined 0 (read_pickle L pickle_file).
Proof.
  apply confined_bind_0.
  - apply confined_read_file. right. reflexivity.
  - intros c. apply confined_lift.
Qed.

Lemma confined_cell6 : confined 0 cell6.
Proof.
  apply confined_log; [|reflexivity]. left. exists "0.0". reflexivity.
Qed.

Lemma confined_cell7 : confined 0 cell7.
Proof. apply confined_log; reflexivity. Qed.

Lemma confined_cell8 L : confined 0 (cell8 L).
Proof.
  apply confined_for. intros conc.
  apply confined_bind_0; [apply confined_loadtxt|]. intros d.
  apply confined_bind_0; [apply confined_lift|]. intros tF. apply confined_lift.
Qed.

Lemma confined_cell9 L : confined 0 (cell9 L).
Proof.
  apply confined_for. intros conc.
  apply confined_bind_0; [apply confined_loadtxt|]. intros d.
  apply confined_bind_0; [apply confined_lift|]. intros c. apply confined_lift.
Qed.

Lemma confined_cell11_data L : confined 0 (cell11_data L).
Proof.
  apply confined_for_acc. intros conc data.
  apply confined_bind_0; [apply confined_loadtxt|]. intros d.
  apply confined_bind_0; [apply confined_lift|]. intros c. apply confined_ret.
Qed.

Lemma confined_cell11 L : confined 1 (cell11 L).
Proof.
  apply (confined_bind 0 1); [apply confined_cell11_data|]. intros data.
  apply (confined_bind 1 0); [apply confined_write_pickle|]. intros _.
  apply confined_ret.
Qed.

Lemma confined_cell13 L : confined 0 (cell13 L).
Proof.
  apply confined_bind_0; [apply confined_read_pickle|]. intros df.
  apply confined_bind_0; [apply confined_lift|]. intros d. apply confined_lift.
Qed.

Lemma confined_cell28 L : confined 0 (cell28 L).
Proof.
  apply confined_bind_0; [apply confined_read_pickle|]. intros df.
  apply confined_lift.
Qed.

Lemma confined_run L : confined 1 (run L).
Proof.
  unfold run.
  apply (confined_bind 0 1); [apply confined_cell6|]. intros _.
  apply (confined_bind 0 1); [apply confined_cell7|]. intros _.
  apply (confined_bind 0 1); [apply confined_cell8|]. intros _.
  apply (confined_bind 0 1); [apply confined_cell9|]. intros _.
  apply (confined_bind 1 0); [apply confined_cell11|]. intros _.
  apply (confined_bind 0 0); [apply confined_cell13|]. intros _.
  apply confined_cell28.
Qed.

Lemma confined_events {A} n (m : NB A) w r w' :
  confined n m → m w = (r, w') → ∃ evs, events w' = events w ++ evs.
Proof.
  intros Hm Hw. destruct (Hm w) as (evs & Hev & _). rewrite Hw in Hev.
  exists evs. exact Hev.
Qed.

Lemma lift_world {A} (r : result A) w r' w' : lift r w = (r', w') → w' = w.
Proof. unfold lift. intros [= _ <-]. reflexivity. Qed.

(** A run that returns wrote the pickle once and read it afterwards. *)
Lemma run_reads_back L w w' :
  run L w = (Ok (), w') →
  ∃ pre post, events w' = events w ++ pre ++ EvWrite "data/fluorescence.p" :: post
              ∧ EvRead "data/fluorescence.p" ∈ post.
Proof.
  unfold run. intros H.
  apply NB_bind_Ok_inv in H as ([] & w1 & H6 & H).
  apply NB_bind_Ok_inv in H as ([] & w2 & H7 & H).
  apply NB_bind_Ok_inv in H as ([] & w3 & H8 & H).
  apply NB_bind_Ok_inv in H as ([] & w4 & H9 & H).
  apply NB_bind_Ok_inv in H as (df & w5 & H11 & H).
  apply NB_bind_Ok_inv in H as ([] & w6 & H13 & H28).
  apply (confined_events 0 _ _ _ _ confined_cell6) in H6 as [a1 E1].
  apply (confined_events 0 _ _ _ _ confined_cell7) in H7 as [a2 E2].
  apply (confined_events 0 _ _ _ _ (confined_cell8 L)) in H8 as [a3 E3].
  apply (confined_events 0 _ _ _ _ (confined_cell9 L)) in H9 as [a4 E4].
  apply (confined_events 0 _ _ _ _ (confined_cell28 L)) in H28 as [a7 E7].
  unfold cell11 in H11.
  apply NB_bind_Ok_inv in H11 as (data & w4' & Hdata & H11).
  apply (confined_events 0 _ _ _ _ (confined_cell11_data L)) in Hdata as [a5 E5].
  apply NB_bind_Ok_inv in H11 as ([] & w5' & Hw & Hret).
  injection Hret as _ <-. injection Hw as <-.
  unfold cell13, read_pickle in H13.
  apply NB_bind_Ok_inv in H13 as (df' & w6' & Hrd & H13).
  apply NB_bind_Ok_inv in Hrd as (c & wr & Hrd & Hl).
  apply lift_world in Hl as ->.
  apply NB_bind_Ok_inv in H13 as (d & w6'' & Hl1 & Hl2).
  apply lift_world in Hl1 as ->. apply lift_world in Hl2 as ->.
  injection Hrd as _ <-. cbn [events] in E7.
  exists (a1 ++ a2 ++ a3 ++ a4 ++ a5), (EvRead "data/fluorescence.p" :: a7).
  split; [|apply elem_of_cons; left; reflexivity].
  rewrite E7, E5, E4, E3, E2, E1. rewrite <- !(assoc_L (++)). reflexivity.
Qed.

(** C6, as the code has it. Every call that a run makes on the file system
    lists the directory [data/fluorescence], reads a file
    [data/fluorescence/quencher_*.txt], or writes or reads
    [data/fluorescence.p]; a run writes at most once, and a run that returns
    has written the pickle exactly once and read it afterwards; every other
    file, and so every data file, holds after the run what it held before. *)
Theorem run_touches_only_the_pickle (L : library) (w : world) :
  ∃ evs,
    events (run L w).2 = events w ++ evs
    ∧ Forall notebook_interaction evs
    ∧ (writes evs ≤ 1)%nat
    ∧ ((run L w).1 = Ok () →
         writes evs = 1%nat
         ∧ ∃ pre post, evs = pre ++ EvWrite "data/fluorescence.p" :: post
                       ∧ EvRead "data/fluorescence.p" ∈ post)
    ∧ (∀ path, path ≠ "data/fluorescence.p" →
         files (run L w).2 !! path = files w !! path)
    ∧ (∀ path, is_quencher_file path →
         files (run L w).2 !! path = files w !! path).
Proof.
  destruct (confined_run L w) as (evs & Hev & Hall & Hle & Hok & Hfr).
  exists evs. split; [exact Hev|]. split; [exact Hall|]. split; [exact Hle|].
  split; [|split; [exact Hfr|]].
  - intros Hr. split; [apply Hok; rewrite Hr; exact I|].
    destruct (run L w) as [r w'] eqn:Hrun. cbn in Hr, Hev. subst r.
    destruct (run_reads_back L w w' Hrun) as (pre & post & Hev' & Hin).
    exists pre, post. split; [|exact Hin].
    rewrite Hev in Hev'. apply (inj (app (events w))) in Hev'. exact Hev'.
  - intros path Hq. apply Hfr, quencher_file_not_pickle, Hq.
Qed.

(** *** A run that returns *)

Lemma for_Ok {A} (fs : gmap string string) (ev : A → list fs_event)
    (l : list A) (body : A → NB unit) (w : world) :
  files w = fs →
  (∀ a w0, files w0 = fs → body a w0 = (Ok (), World fs (events w0 ++ ev a))) →
  for_ l body w = (Ok (), World fs (events w ++ concat (map ev l))).
Proof.
  intros Hfs Hb. revert w Hfs. induction l as [|a l IH]; intros w Hfs.
  - cbn. rewrite app_nil_r. destruct w as [f e]. cbn in Hfs. subst f. reflexivity.
  - cbn [for_]. rewrite NB_bind_unfold, (Hb a w Hfs).
    rewrite (IH (World fs (events w ++ ev a)) eq_refl). cbn [events map concat].
    rewrite <- (assoc_L (++)). reflexivity.
Qed.

Lemma for_acc_Ok {A S} (fs : gmap string string) (ev : A → list fs_event)
    (g : A → S → S) (l : list A) (body : A → S → NB S) (s : S) (w : world) :
  files w = fs →
  (∀ a s0 w0, files w0 = fs →
     body a s0 w0 = (Ok (g a s0), World fs (events w0 ++ ev a))) →
  for_acc l body s w
  = (Ok (foldl (λ s0 a, g a s0) s l), World fs (events w ++ concat (map ev l))).
Proof.
  intros Hfs Hb. revert s w Hfs. induction l as [|a l IH]; intros s w Hfs.
  - cbn. rewrite app_nil_r. destruct w as [f e]. cbn in Hfs. subst f. reflexivity.
  - cbn [for_acc]. rewrite NB_bind_unfold, (Hb a s w Hfs).
    rewrite (IH (g a s) (World fs (events w ++ ev a)) eq_refl).
    cbn [events map concat foldl].
    rewrite <- (assoc_L (++)). reflexivity.
Qed.

Lemma loadtxt_Ok L path n content (w : world) :
  files w !! path = Some content →
  loadtxt L path n w
  = (parse_table L n content, World (files w) (events w ++ [EvRead path])).
Proof.
  intros Hf. unfold loadtxt. rewrite NB_bind_unfold. unfold read_file. rewrite Hf.
  reflexivity.
Qed.

Lemma demo_unique_max : unique_max Demo.rows 1 5.
Proof.
  exists [(0, 1)], [(2, 3); (3, 2)]. split; [reflexivity|]. cbn [app]. Forall_lra.
Qed.

Lemma demo_kept : filter (λ r : R * R, r.1 > 1) Demo.rows = [(2, 3); (3, 2)].
Proof. unfold Demo.rows. filter_lra. reflexivity. Qed.

Lemma demo_preprocess : Prep.preprocess (Arr2 Demo.rows) = Ok Demo.stored.
Proof.
  rewrite (preprocess_kept _ 1 5 (2, 3) [(3, 2)] demo_unique_max demo_kept).
  reflexivity.
Qed.

Lemma demo_data_file conc : quencher_file Demo.lib conc = Demo.data_file.
Proof. reflexivity. Qed.

(** The dictionary of cell 11 in the demo world. *)
Lemma demo_cell11_data (w : world) :
  files w = files Demo.start →
  cell11_data Demo.lib w
  = (Ok (foldl (λ data conc, dict_set conc Demo.stored data) [] concs),
     World (files Demo.start)
       (events w ++ concat (map (λ _, [EvRead Demo.data_file]) concs))).
Proof.
  intros Hfs. unfold cell11_data.
  apply (for_acc_Ok (files Demo.start) (λ _, [EvRead Demo.data_file])
           (λ conc data, dict_set conc Demo.stored data)); [exact Hfs|].
  intros conc data w0 Hw0. rewrite NB_bind_unfold, demo_data_file.
  rewrite (loadtxt_Ok Demo.lib Demo.data_file 9 "t F") by (rewrite Hw0; reflexivity).
  cbn [parse_table Demo.lib]. rewrite NB_bind_unfold. unfold lift.
  rewrite demo_preprocess, Hw0. reflexivity.
Qed.

Lemma demo_cell8 (w : world) :
  files w = files Demo.start →
  cell8 Demo.lib w
  = (Ok (), World (files Demo.start)
              (events w ++ concat (map (λ _, [EvRead Demo.data_file]) concs))).
Proof.
  intros Hfs. unfold cell8.
  apply (for_Ok (files Demo.start) (λ _, [EvRead Demo.data_file])); [exact Hfs|].
  intros conc w0 Hw0. rewrite NB_bind_unfold, demo_data_file.
  rewrite (loadtxt_Ok Demo.lib Demo.data_file 9 "t F") by (rewrite Hw0; reflexivity).
  rewrite Hw0. reflexivity.
Qed.

Lemma demo_cell9 (w : world) :
  files w = files Demo.start →
  cell9 Demo.lib w
  = (Ok (), World (files Demo.start)
              (events w ++ concat (map (λ _, [EvRead Demo.data_file]) concs))).
Proof.
  intros Hfs. unfold cell9.
  apply (for_Ok (files Demo.start) (λ _, [EvRead Demo.data_file])); [exact Hfs|].
  intros conc w0 Hw0. rewrite NB_bind_unfold, demo_data_file.
  rewrite (loadtxt_Ok Demo.lib Demo.data_file 9 "t F") by (rewrite Hw0; reflexivity).
  cbn [parse_table Demo.lib]. rewrite NB_bind_unfold. unfold lift.
  rewrite demo_preprocess, Hw0. reflexivity.
Qed.

Lemma demo_cell11 (w : world) :
  files w = files Demo.start →
  cell11 Demo.lib w
  = (Ok (foldl (λ data conc, dict_set conc Demo.stored data) [] concs),
     World (<["data/fluorescence.p" := "pickle"]> (files Demo.start))
       (events w ++ concat (map (λ _, [EvRead Demo.data_file]) concs)
          ++ [EvWrite "data/fluorescence.p"])).
Proof.
  intros Hfs. unfold cell11. rewrite NB_bind_unfold, (demo_cell11_data w Hfs).
  rewrite NB_bind_unfold. unfold to_pickle, write_file, pickle_file.
  cbn [files events]. rewrite <- (assoc_L (++)). reflexivity.
Qed.

Lemma demo_run_returns : (run Demo.lib Demo.start).1 = Ok ().
Proof.
  unfold run. rewrite NB_bind_unfold. cbn [cell6 log].
  rewrite NB_bind_unfold. cbn [cell7 log].
  rewrite NB_bind_unfold, demo_cell8 by reflexivity.
  rewrite NB_bind_unfold, demo_cell9 by reflexivity.
  rewrite NB_bind_unfold, demo_cell11 by reflexivity.
  rewrite NB_bind_unfold. unfold cell13, read_pickle, read_file, pickle_file.
  rewrite !NB_bind_unfold. cbn [files]. rewrite lookup_insert_eq.
  unfold lift. cbn [pickle_loads Demo.lib dict_get fst snd].
  rewrite decide_True by lra. cbn [fit_first Demo.lib].
  unfold cell28, read_pickle, read_file, pickle_file.
  rewrite !NB_bind_unfold. cbn [files]. rewrite lookup_insert_eq. reflexivity.
Qed.

Lemma run_lists (L : library) (w : world) :
  EvList "data/fluorescence" ∈ events (run L w).2.
Proof.
  unfold run. rewrite NB_bind_unfold. cbn [cell6 log].
  rewrite NB_bind_unfold. cbn [cell7 log].
  set (w2 := World _ _).
  set (rest := cell8 L ≫= _).
  assert (Hrest : confined 1 rest).
  { apply (confined_bind 0 1); [apply confined_cell8|]. intros _.
    apply (confined_bind 0 1); [apply confined_cell9|]. intros _.
    apply (confined_bind 1 0); [apply confined_cell11|]. intros _.
    apply (confined_bind 0 0); [apply confined_cell13|]. intros _.
    apply confined_cell28. }
  destruct (Hrest w2) as (evs & -> & _). subst w2. cbn [events].
  apply elem_of_app. left. apply elem_of_app. right. apply elem_of_cons. left.
  reflexivity.
Qed.

(** C6 as stated fails. Cell 7 lists the directory of the data files, in a
    run that returns as in any other; and a run that stops early (in cell 8,
    on an empty disk) has written nothing. *)
Lemma run_lists_the_directory :
  ((run Demo.lib Demo.start).1 = Ok ()
   ∧ EvList "data/fluorescence" ∈ events (run Demo.lib Demo.start).2
   ∧ ¬ named_interaction (EvList "data/fluorescence"))
  ∧ ((run Demo.bare (World ∅ [])).1 = Raise OSError
     ∧ events (run Demo.bare (World ∅ [])).2
       = [EvRead "data/fluorescence/quencher_0.0.txt";
          EvList "data/fluorescence";
          EvRead "data/fluorescence/quencher_0.0.txt"]
     ∧ writes (events (run Demo.bare (World ∅ [])).2) = 0%nat).
Proof.
  split.
  - split; [exact demo_run_returns|]. split; [apply run_lists|]. intros [].
  - assert (Hrun : run Demo.bare (World ∅ [])
                   = (Raise OSError,
                      World ∅ [EvRead "data/fluorescence/quencher_0.0.txt";
                               EvList "data/fluorescence";
                               EvRead "data/fluorescence/quencher_0.0.txt"]))
      by reflexivity.
    rewrite Hrun. cbn [fst snd events]. split; [reflexivity|].
    split; reflexivity.
Qed.

(** ** The DataFrame that is pickled (cell 11) *)

Lemma for_acc_inv {A S} (I : S → Prop) (Q : world → Prop)
    (l : list A) (body : A → S → NB S) (s : S) (w : world) s' w' :
  I s → Q w →
  (∀ a s0 w0 s1 w1, a ∈ l → I s0 → Q w0 → body a s0 w0 = (Ok s1, w1) → I s1 ∧ Q w1) →
  for_acc l body s w = (Ok s', w') → I s' ∧ Q w'.
Proof.
  revert s w. induction l as [|a l IH]; intros s w Hs Hw Hb H.
  - cbn in H. injection H as <- <-. split; assumption.
  - cbn [for_acc] in H. apply NB_bind_Ok_inv in H as (s1 & w1 & H1 & H).
    destruct (Hb a s w s1 w1) as [Hs1 Hw1]; [apply elem_of_cons; left; reflexivity|..];
      try assumption.
    apply (IH s1 w1 Hs1 Hw1); [|exact H].
    intros a0 s0 w0 s2 w2 Hin. apply Hb. apply elem_of_cons. right. exact Hin.
Qed.

Lemma dict_set_Forall {V} (P : R → V → Prop) (k : R) (v : V) (d : list (R * V)) :
  Forall (λ kv, P kv.1 kv.2) d → P k v → Forall (λ kv, P kv.1 kv.2) (dict_set k v d).
Proof.
  intros Hd Hkv. induction Hd as [|kv d Hkv' Hd IH]; cbn [dict_set].
  - apply Forall_cons_2; [exact Hkv | apply Forall_nil_2].
  - destruct (decide (kv.1 = k)) as [->|Hne].
    + apply Forall_cons_2; [exact Hkv | exact Hd].
    + apply Forall_cons_2; [exact Hkv' | exact IH].
Qed.

Lemma loadtxt_Ok_inv L path n d (w w' : world) :
  loadtxt L path n w = (Ok d, w') →
  files w' = files w
  ∧ ∃ content, files w !! path = Some content ∧ parse_table L n content = Ok d.
Proof.
  unfold loadtxt. intros H. apply NB_bind_Ok_inv in H as (c & w1 & Hr & Hl).
  unfold read_file in Hr. destruct (files w !! path) as [c'|] eqn:Hf; [|discriminate].
  injection Hr as -> <-. unfold lift in Hl. injection Hl as Hp <-.
  split; [reflexivity|]. exists c. split; [reflexivity | exact Hp].
Qed.

Lemma preprocess_Ok_inv d c :
  Prep.preprocess d = Ok c →
  ∃ rows kept, d = Arr2 rows ∧ Prep.discard_before_max rows = Ok kept
               ∧ Curve.F c = kept.*2 ∧ Curve.Ferr c = map sqrt (Curve.F c).
Proof.
  unfold Prep.preprocess. intros H.
  apply bind_Ok_inv in H as (rows & Hrows & H).
  apply bind_Ok_inv in H as (kept & Hkept & H).
  destruct d as [a|rows']; [discriminate|]. injection Hrows as ->.
  unfold Prep.shifted in H. apply bind_Ok_inv in H as (t0 & _ & H).
  injection H as <-. exists rows, kept. repeat split. exact Hkept.
Qed.

Lemma cell11_data_stored L (w : world) data w1 :
  cell11_data L w = (Ok data, w1) →
  Forall (λ kc, kc.1 ∈ concs ∧ stored_curve L w kc.1 kc.2) data ∧ files w1 = files w.
Proof.
  apply (for_acc_inv
           (λ data, Forall (λ kc, kc.1 ∈ concs ∧ stored_curve L w kc.1 kc.2) data)
           (λ w0, files w0 = files w)); [apply Forall_nil_2 | reflexivity |].
  intros conc data0 w0 data1 w2 Hin Hdata Hw0 H.
  apply NB_bind_Ok_inv in H as (d & w0' & Hload & H).
  apply NB_bind_Ok_inv in H as (c & w0'' & Hpre & Hret).
  apply loadtxt_Ok_inv in Hload as (Hf & content & Hlk & Hparse).
  unfold lift in Hpre. injection Hpre as Hpre <-. injection Hret as <- <-.
  apply preprocess_Ok_inv in Hpre as (rows & kept & -> & Hkept & HF & HFerr).
  split; [|congruence].
  apply (dict_set_Forall (λ k v, k ∈ concs ∧ stored_curve L w k v)); [exact Hdata|].
  split; [exact Hin|]. exists content, rows, kept. rewrite <- Hw0. auto.
Qed.

Lemma dict_set_keys {V} (k : R) (v : V) (d : list (R * V)) :
  k ∉ d.*1 → (dict_set k v d).*1 = d.*1 ++ [k].
Proof.
  induction d as [|kv d IH]; intros Hk; [reflexivity|].
  rewrite fmap_cons in Hk. apply not_elem_of_cons in Hk as [Hne Hk].
  cbn [dict_set]. rewrite decide_False by congruence.
  rewrite !fmap_cons, IH by exact Hk. reflexivity.
Qed.

Lemma dict_get_elem {V} (k : R) (d : list (R * V)) :
  k ∈ d.*1 → ∃ v, dict_get k d = Ok v ∧ (k, v) ∈ d.
Proof.
  induction d as [|[k' v'] d IH]; intros Hk; [inversion Hk|].
  cbn [dict_get fst snd]. destruct (decide (k' = k)) as [->|Hne].
  - exists v'. split; [reflexivity | apply elem_of_cons; left; reflexivity].
  - rewrite fmap_cons in Hk. apply elem_of_cons in Hk as [Hk|Hk];
      [cbn in Hk; congruence|].
    destruct (IH Hk) as (v & Hget & Hin). exists v.
    split; [exact Hget | apply elem_of_cons; right; exact Hin].
Qed.

Lemma cell11_loop_keys L (l : list R) (s : DataFrame) (w : world) s' w' :
  for_acc l (λ conc data,
    d ← loadtxt L (quencher_file L conc) 9;
    c ← lift (Prep.preprocess d);
    mret (dict_set conc c data)) s w = (Ok s', w') →
  NoDup (s.*1 ++ l) → s'.*1 = s.*1 ++ l.
Proof.
  revert s w. induction l as [|conc l IH]; intros s w H Hnd.
  - cbn in H. injection H as <- _. rewrite app_nil_r. reflexivity.
  - cbn [for_acc] in H. apply NB_bind_Ok_inv in H as (s1 & w1 & Hb & H).
    apply NB_bind_Ok_inv in Hb as (d & w0 & _ & Hb).
    apply NB_bind_Ok_inv in Hb as (c & w0' & _ & Hret). injection Hret as <- _.
    assert (Hfresh : conc ∉ s.*1).
    { apply NoDup_app in Hnd as (_ & Hdis & _). intros Hin.
      apply (Hdis conc Hin). apply elem_of_cons. left. reflexivity. }
    apply IH in H.
    + rewrite H, dict_set_keys by exact Hfresh. rewrite <- (assoc_L (++)). reflexivity.
    + rewrite dict_set_keys by exact Hfresh. rewrite <- (assoc_L (++)). exact Hnd.
Qed.

Lemma concs_NoDup : NoDup concs.
Proof.
  unfold concs.
  repeat (apply NoDup_cons_2;
          [rewrite ?elem_of_cons, elem_of_nil; intros Hin;
           repeat (destruct Hin as [Hin|Hin]; [lra|]); exact Hin|]).
  apply NoDup_nil_2.
Qed.

Lemma cell11_data_keys L (w : world) data w1 :
  cell11_data L w = (Ok data, w1) → data.*1 = concs.
Proof.
  unfold cell11_data. intros H. apply cell11_loop_keys in H; [exact H|].
  exact concs_NoDup.
Qed.

(** C9. When cell 11 has pickled its DataFrame, the file holds that
    DataFrame; the DataFrame has one column for each concentration of the
    loop, in the order of the loop, so the curve of every dataset is in it;
    and every column, keyed by a concentration of the loop, stores as [F]
    the intensities of the rows that the filter kept of the data file of
    that concentration, unchanged, and as [Ferr] the square roots of [F],
    element by element. *)
Theorem pickled_dataframe_invariant (L : library) (w : world) df w' :
  cell11 L w = (Ok df, w') →
  files w' !! "data/fluorescence.p" = Some (pickle_dumps L df)
  ∧ df.*1 = [0; 0.2; 0.5; 1.0; 1.5]
  ∧ (∀ conc, conc ∈ concs →
       ∃ c, dict_get conc df = Ok c ∧ stored_curve L w conc c)
  ∧ Forall (λ kc, kc.1 ∈ concs ∧ stored_curve L w kc.1 kc.2) df
  ∧ Forall (λ kc, Curve.Ferr kc.2 = map sqrt (Curve.F kc.2)) df.
Proof.
  unfold cell11. intros H. apply NB_bind_Ok_inv in H as (data & w1 & Hdata & H).
  apply NB_bind_Ok_inv in H as ([] & w2 & Hw & Hret).
  injection Hret as <- <-. unfold to_pickle, write_file in Hw. injection Hw as <-.
  pose proof (cell11_data_keys L w data w1 Hdata) as Hkeys.
  apply cell11_data_stored in Hdata as [Hall _].
  split; [apply lookup_insert_eq|]. split; [exact Hkeys|]. split; [|split].
  - intros conc Hin.
    destruct (dict_get_elem conc data) as (c & Hget & Hc); [rewrite Hkeys; exact Hin|].
    exists c. split; [exact Hget|].
    rewrite Forall_forall in Hall. exact (proj2 (Hall (conc, c) Hc)).
  - exact Hall.
  - eapply Forall_impl; [exact Hall|]. cbn.
    intros kc (_ & content & rows & kept & _ & _ & _ & _ & HFerr). exact HFerr.
Qed.

Lemma pickled_dataframe_invariant_witness :
  let df := foldl (λ data conc, dict_set conc Demo.stored data) [] concs in
  files (cell11 Demo.lib Demo.start).2 !! "data/fluorescence.p"
  = Some (pickle_dumps Demo.lib df)
  ∧ df.*1 = [0; 0.2; 0.5; 1.0; 1.5]
  ∧ (∀ conc, conc ∈ concs →
       ∃ c, dict_get conc df = Ok c ∧ stored_curve Demo.lib Demo.start conc c)
  ∧ Forall (λ kc, kc.1 ∈ concs ∧ stored_curve Demo.lib Demo.start kc.1 kc.2) df
  ∧ Forall (λ kc, Curve.Ferr kc.2 = map sqrt (Curve.F kc.2)) df.
Proof.
  intros df. rewrite (demo_cell11 Demo.start eq_refl). cbn [snd].
  refine (pickled_dataframe_invariant Demo.lib Demo.start df _ _).
  apply (demo_cell11 Demo.start eq_refl).
Defined.

(** ** Sums and singular values *)

Lemma sum_upto_ext n (f g : nat → R) :
  (∀ l, (l < n)%nat → f l = g l) → Mat.sum_upto n f = Mat.sum_upto n g.
Proof.
  induction n as [|n IH]; intros H; [reflexivity|].
  cbn. rewrite IH by (intros l Hl; apply H; lia). rewrite (H n) by lia. reflexivity.
Qed.

Lemma sum_upto_zero n (f : nat → R) :
  (∀ l, (l < n)%nat → f l = 0) → Mat.sum_upto n f = 0.
Proof.
  induction n as [|n IH]; intros H; [reflexivity|].
  cbn. rewrite IH by (intros l Hl; apply H; lia). rewrite (H n) by lia. lra.
Qed.

(** A sum that picks the term of index [k]. *)
Lemma sum_upto_pick n k (f : nat → R) :
  (k < n)%nat → (∀ l, (l < n)%nat → l ≠ k → f l = 0) → Mat.sum_upto n f = f k.
Proof.
  induction n as [|n IH]; intros Hk H; [lia|].
  cbn. destruct (decide (k = n)) as [->|Hne].
  - rewrite sum_upto_zero by (intros l Hl; apply H; lia). lra.
  - rewrite IH by (try lia; intros l Hl Hlk; apply H; lia).
    rewrite (H n) by lia. lra.
Qed.

(** A sum whose terms vanish from index [r] on. *)
Lemma sum_upto_prefix n r (f : nat → R) :
  (r ≤ n)%nat → (∀ l, (r ≤ l < n)%nat → f l = 0) →
  Mat.sum_upto n f = Mat.sum_upto r f.
Proof.
  intros Hr. induction n as [|n IH]; intros H.
  - replace r with O by lia. reflexivity.
  - destruct (decide (r = S n)) as [->|Hne]; [reflexivity|].
    cbn. rewrite IH by (try lia; intros l Hl; apply H; lia).
    rewrite (H n) by lia. lra.
Qed.

(** In a non-increasing list, the values above a threshold are a prefix. *)
Lemma sorted_filter_prefix (thr : R) (s : list R) :
  StronglySorted Rge s →
  let r := length (filter (λ v, v > thr) s) in
  filter (λ v, v > thr) s = take r s
  ∧ (∀ l, (l < r)%nat → nth l s 0 > thr)
  ∧ (∀ l, (r ≤ l < length s)%nat → ¬ nth l s 0 > thr).
Proof.
  induction 1 as [|a s Hs IH Ha]; cbn zeta.
  - split; [reflexivity|]. split; cbn; intros; lia.
  - destruct (decide (a > thr)) as [Hgt|Hle].
    + rewrite filter_cons_True by exact Hgt. cbn [length take].
      cbn zeta in IH. destruct IH as (IH1 & IH2 & IH3).
      split; [f_equal; exact IH1|]. split.
      * intros [|l] Hl; [exact Hgt|]. cbn. apply IH2. lia.
      * intros [|l] Hl; [lia|]. cbn. apply IH3. cbn in Hl. lia.
    + assert (Hnone : filter (λ v, v > thr) s = []).
      { apply filter_none. eapply Forall_impl; [exact Ha|]. cbn. intros v Hv. lra. }
      rewrite filter_cons_False by exact Hle. rewrite Hnone. cbn [length take].
      split; [reflexivity|]. split; [intros; lia|].
      intros [|l] Hl; [exact Hle|]. cbn.
      rewrite Forall_forall in Ha. intros Hgt.
      assert (Hin : nth l s 0 ∈ s).
      { apply list_elem_of_In, nth_In. cbn in Hl. lia. }
      specialize (Ha _ Hin). lra.
Qed.

Lemma nth_take_lt {A} (d : A) (r l : nat) (s : list A) :
  (l < r)%nat → nth l (take r s) d = nth l s d.
Proof.
  revert l s. induction r as [|r IH]; intros l s Hl; [lia|].
  destruct s as [|a s]; [reflexivity|]. destruct l as [|l]; [reflexivity|].
  cbn. apply IH. lia.
Qed.

Lemma nth_map_lt {A B} (f : A → B) (d : A) (d' : B) (l : nat) (s : list A) :
  (l < length s)%nat → nth l (map f s) d' = f (nth l s d).
Proof.
  revert l. induction s as [|a s IH]; intros l Hl; [cbn in Hl; lia|].
  destruct l as [|l]; [reflexivity|]. cbn. apply IH. cbn in Hl. lia.
Qed.

Lemma eps_pos : 0 < eps.
Proof. unfold eps. apply Rinv_0_lt_compat, pow_lt. lra. Qed.

Lemma threshold_nonneg (m : nat) (s0 : R) : 0 <= s0 → 0 <= eps * INR m * s0.
Proof.
  intros Hs0. apply Rmult_le_pos; [|exact Hs0].
  apply Rmult_le_pos; [left; apply eps_pos | apply pos_INR].
Qed.

(** The values kept above a non-negative threshold are positive. *)
Lemma kept_positive (thr : R) (s : list R) :
  0 <= thr → Forall (λ v, 0 < v) (filter (λ v, v > thr) s).
Proof.
  intros Hthr. apply Forall_forall. intros v Hv.
  apply list_elem_of_filter in Hv as [Hgt _]. lra.
Qed.

Lemma degrees_of_freedom_nonzero (n k : nat) :
  (k < n)%nat → IZR (Z.of_nat n - Z.of_nat k) ≠ 0.
Proof. intros H. apply not_0_IZR. lia. Qed.

(** No entry of [v] is zero where [M / v] reads it. *)
Lemma broadcast_dim_reads (a b n j : nat) :
  Mat.broadcast_dim a b = Some n → (j < n)%nat →
  ((if decide (b = 1%nat) then O else j) < b)%nat.
Proof.
  unfold Mat.broadcast_dim. intros H Hj.
  destruct (decide (a = b)) as [->|Hab].
  - injection H as ->. destruct (decide (n = 1%nat)); lia.
  - destruct (decide (a = 1%nat)) as [->|Ha].
    + injection H as ->. destruct (decide (n = 1%nat)); lia.
    + destruct (decide (b = 1%nat)) as [->|Hb]; [lia|discriminate].
Qed.

Lemma divide_columns_modes (M : matrix) (v : list R) :
  Forall (λ e, e ≠ 0) v →
  Mat.divide_columns Np.ErrRaise M v = Mat.divide_columns Np.ErrWarn M v.
Proof.
  intros Hv. unfold Mat.divide_columns.
  destruct (Mat.broadcast_dim (ncols M) (length v)) as [n|] eqn:Hn; [|reflexivity].
  rewrite decide_False; [reflexivity|].
  intros [_ Hex]. apply Exists_exists in Hex as (j & Hj & Hz).
  apply elem_of_seq in Hj. pose proof (broadcast_dim_reads _ _ _ j Hn) as Hlt.
  rewrite Forall_forall in Hv. apply (Hv (nth (if decide (length v = 1%nat) then O else j) v 0)).
  - apply list_elem_of_In, nth_In. apply Hlt. lia.
  - exact Hz.
Qed.

Lemma divide_columns_same st (M : matrix) (v : list R) :
  ncols M = length v → Forall (λ e, e ≠ 0) v →
  Mat.divide_columns st M v
  = Ok (Matrix (nrows M) (ncols M)
          (λ i j, entry M i (if decide (ncols M = 1%nat) then O else j)
                  / nth (if decide (length v = 1%nat) then O else j) v 0)).
Proof.
  intros Hlen Hv.
  assert (H : Mat.divide_columns Np.ErrWarn M v = Ok (Matrix (nrows M) (ncols M)
          (λ i j, entry M i (if decide (ncols M = 1%nat) then O else j)
                  / nth (if decide (length v = 1%nat) then O else j) v 0))).
  { unfold Mat.divide_columns, Mat.broadcast_dim.
    rewrite decide_True by exact Hlen. reflexivity. }
  destruct st; [exact H|]. rewrite divide_columns_modes by exact Hv. exact H.
Qed.

Lemma dot_Ok (A B : matrix) :
  ncols A = nrows B →
  Mat.dot A B = Ok (Matrix (nrows A) (ncols B)
                      (λ i j, Mat.sum_upto (ncols A) (λ l, entry A i l * entry B l j))).
Proof. intros H. unfold Mat.dot. rewrite decide_True by exact H. reflexivity. Qed.

Lemma sq_nonzero (v : R) : 0 < v → v ^ 2 ≠ 0.
Proof. intros Hv. apply pow_nonzero. lra. Qed.

(** The code's [np.dot(VT.T / s**2, VT) * s_sq] is the matrix of the text. *)
Lemma pcov_entry (VT : matrix) (s : list R) (thr s_sq : R) (i j : nat) :
  nrows VT = length s → StronglySorted Rge s →
  let kept := filter (λ si, si > thr) s in
  Mat.sum_upto (length kept)
    (λ l, entry VT (if decide (length kept = 1%nat) then O else l) i
          / nth (if decide (length (map (λ si, si ^ 2) kept) = 1%nat) then O else l)
              (map (λ si, si ^ 2) kept) 0
          * entry VT l j) * s_sq
  = entry (Spec.pcov VT s thr s_sq) i j.
Proof.
  intros Hshape Hsorted kept.
  destruct (sorted_filter_prefix thr s Hsorted) as (Hpre & Hin & Hout).
  fold kept in Hpre, Hin, Hout.
  assert (Hr : (length kept ≤ length s)%nat) by apply length_filter.
  unfold Spec.pcov, Spec.mmul, Spec.inv_sq_diag.
  cbn [entry nrows ncols Mat.scale Mat.transpose]. f_equal.
  rewrite (sum_upto_prefix (length s) (length kept)); [|exact Hr|].
  - apply sum_upto_ext. intros l Hl.
    rewrite (sum_upto_pick (nrows VT) l) by
      (try lia; intros m _ Hm; rewrite decide_False by (intros [? _]; lia); lra).
    rewrite (decide_True (P := l = l ∧ nth l s 0 > thr))
      by (split; [reflexivity | apply Hin, Hl]).
    rewrite length_map.
    assert (Hidx : (if decide (length kept = 1%nat) then O else l) = l)
      by (destruct (decide (length kept = 1%nat)); lia).
    rewrite Hidx, (nth_map_lt _ 0) by exact Hl.
    rewrite Hpre, nth_take_lt by exact Hl.
    unfold Rdiv. ring.
  - intros l Hl.
    rewrite (sum_upto_pick (nrows VT) l) by
      (try lia; intros m _ Hm; rewrite decide_False by (intros [? _]; lia); lra).
    rewrite (decide_False (P := l = l ∧ nth l s 0 > thr))
      by (intros [_ Hgt]; exact (Hout l Hl Hgt)).
    ring.
Qed.

(** ** Goodness of fit and errors of the parameters (cell 21) *)

Lemma error_analysis_Ok svd st res U s VT :
  (length (x res) < length (fun_ res))%nat →
  svd (jac res) = Ok (U, s, VT) →
  svd_result_ok (U, s, VT) →
  s ≠ [] →
  let s_sq := 2 * cost res / (INR (length (fun_ res)) - INR (length (x res))) in
  let threshold :=
    eps * INR (Nat.max (nrows (jac res)) (ncols (jac res))) * nth 0 s 0 in
  error_analysis svd st res
  = Ok (map sqrt (Mat.diag (Spec.pcov VT s threshold s_sq)), s_sq).
Proof.
  intros Hnk Hsvd (Hshape & Hnonneg & Hsorted) Hne s_sq threshold.
  cbn [fst snd] in Hshape, Hnonneg, Hsorted.
  unfold error_analysis.
  rewrite divide_Ok by (intros _; apply degrees_of_freedom_nonzero, Hnk).
  cbn [mbind result_bind]. rewrite Hsvd. cbn [mbind result_bind fst snd].
  destruct s as [|s0 s']; [contradiction|].
  change (getitem (s0 :: s') 0) with (Ok s0). cbn [mbind result_bind].
  change (nth 0 (s0 :: s') 0) with s0 in threshold.
  fold threshold.
  set (kept := filter (λ si, si > threshold) (s0 :: s')).
  assert (Hr : (length kept ≤ length (s0 :: s'))%nat) by apply length_filter.
  assert (Hthr : 0 <= threshold).
  { apply threshold_nonneg. apply Forall_cons_1 in Hnonneg as [H0 _]. exact H0. }
  rewrite divide_columns_same.
  2:{ cbn [ncols Mat.transpose nrows Mat.first_rows]. rewrite length_map. lia. }
  2:{ apply Forall_fmap. eapply Forall_impl; [apply (kept_positive threshold _ Hthr)|].
      cbn. intros v Hv. apply sq_nonzero, Hv. }
  cbn [mbind result_bind]. rewrite dot_Ok.
  2:{ cbn [ncols Mat.transpose nrows Mat.first_rows]. reflexivity. }
  cbn [mbind result_bind mret result_ret].
  cbn [ncols nrows entry Mat.transpose Mat.first_rows].
  rewrite (Nat.min_l (length kept) (nrows VT)) by lia.
  rewrite minus_IZR, <- !INR_IZR_INZ. fold s_sq.
  change (mret ?a) with (Ok a). f_equal. f_equal. f_equal.
  unfold Mat.diag. cbn [nrows ncols Mat.scale entry].
  unfold Spec.pcov at 1 2. cbn [nrows ncols Mat.scale Spec.mmul Mat.transpose].
  apply map_ext. intros i.
  apply (pcov_entry VT (s0 :: s') threshold s_sq i i Hshape Hsorted).
Qed.

(** C2. For a result of the least-squares fit with more residuals than
    parameters ([n > k]) whose Jacobian has the singular value decomposition
    [(U, s, VT)] (at least one singular value, as SciPy returns them),
    [error_analysis] returns the pair [(sqrt(diag(pcov)), s_sq)] with
    [s_sq = 2 * res.cost / (n - k)], the sum of the squared residuals over
    the degrees of freedom when [res.cost] is half that sum, and
    [pcov = V * diag(1/s^2) * V^T * s_sq], the singular values that do not
    exceed [eps * max(J.shape) * s[0]] discarded. *)
Theorem error_analysis_covariance svd st res U s VT :
  (length (x res) < length (fun_ res))%nat →
  svd (jac res) = Ok (U, s, VT) →
  svd_result_ok (U, s, VT) →
  s ≠ [] →
  let dof := INR (length (fun_ res)) - INR (length (x res)) in
  let s_sq := 2 * cost res / dof in
  let threshold :=
    eps * INR (Nat.max (nrows (jac res)) (ncols (jac res))) * nth 0 s 0 in
  let pcov := Spec.pcov VT s threshold s_sq in
  error_analysis svd st res = Ok (map sqrt (Mat.diag pcov), s_sq)
  ∧ (cost res = / 2 * Spec.sum_sq (fun_ res) → s_sq = Spec.sum_sq (fun_ res) / dof)
  ∧ length (Mat.diag pcov) = ncols VT
  ∧ ∀ i j, entry pcov i j
           = Mat.sum_upto (length s)
               (λ l, if decide (nth l s 0 > threshold)
                     then entry VT l i * (1 / (nth l s 0) ^ 2) * entry VT l j
                     else 0) * s_sq.
Proof.
  intros Hnk Hsvd Hok Hne dof s_sq threshold pcov.
  split; [apply (error_analysis_Ok svd st res U s VT Hnk Hsvd Hok Hne)|].
  split; [|split].
  - intros Hcost. subst s_sq. rewrite Hcost. unfold Rdiv. lra.
  - unfold Mat.diag. rewrite length_map, length_seq. cbn. lia.
  - intros i j. destruct Hok as (Hshape & _ & _). cbn [fst snd] in Hshape.
    subst pcov. unfold Spec.pcov, Spec.mmul, Spec.inv_sq_diag.
    cbn [entry nrows ncols Mat.scale Mat.transpose]. f_equal.
    apply sum_upto_ext. intros l Hl.
    rewrite (sum_upto_pick (nrows VT) l) by
      (try lia; intros m _ Hm; rewrite decide_False by (intros [? _]; lia); lra).
    destruct (decide (nth l s 0 > threshold)) as [Hgt|Hngt].
    + rewrite decide_True by (split; [reflexivity | exact Hgt]). reflexivity.
    + rewrite decide_False by (intros [_ Hgt]; exact (Hngt Hgt)). ring.
Qed.

Lemma demo_svd_result_ok : svd_result_ok (Demo.U, [5], Demo.VT).
Proof.
  split; [reflexivity|]. split; [Forall_lra|].
  apply SSorted_cons; [apply SSorted_nil | apply List.Forall_nil].
Qed.

Lemma error_analysis_covariance_witness :
  let dof := INR (length (fun_ Demo.res)) - INR (length (x Demo.res)) in
  let s_sq := 2 * cost Demo.res / dof in
  let threshold :=
    eps * INR (Nat.max (nrows (jac Demo.res)) (ncols (jac Demo.res))) * nth 0 [5] 0 in
  let pcov := Spec.pcov Demo.VT [5] threshold s_sq in
  error_analysis Demo.svd Np.ErrWarn Demo.res = Ok (map sqrt (Mat.diag pcov), s_sq).
Proof.
  refine (proj1 (error_analysis_covariance Demo.svd Np.ErrWarn Demo.res
                   Demo.U [5] Demo.VT _ _ demo_svd_result_ok _)).
  - cbn. lia.
  - reflexivity.
  - discriminate.
Defined.

Lemma eps_small : eps < / 2.
Proof.
  unfold eps. apply Rinv_lt_contravar.
  - apply Rmult_lt_0_compat; [lra | apply pow_lt; lra].
  - change (2 ^ 52) with (2 * 2 ^ 51).
    assert (1 < 2 ^ 51) by (apply Rlt_pow_R1; [lra | lia]). lra.
Qed.

Lemma square_nonzero (v : R) : / 2 ^ 1075 < v ^ 2 → F64.square v ≠ 0.
Proof.
  intros Hv. unfold F64.square. rewrite decide_False by lra.
  assert (0 < / 2 ^ 1075) by (apply Rinv_0_lt_compat, pow_lt; lra). lra.
Qed.

Lemma tiny_square : F64.square (/ 2 ^ 600) = 0.
Proof.
  unfold F64.square. rewrite decide_True; [reflexivity|].
  rewrite pow_inv, <- pow_mult.
  apply Rinv_le_contravar; [apply pow_lt; lra|].
  apply Rle_pow; [lra | lia].
Qed.

Lemma tiny_kept :
  filter (λ si, si > eps * INR (Nat.max (nrows Tiny.J) (ncols Tiny.J)) * / 2 ^ 600)
    [/ 2 ^ 600]
  = [/ 2 ^ 600].
Proof.
  rewrite filter_cons_True; [reflexivity|].
  cbn [Tiny.J nrows ncols Nat.max]. change (INR 2) with (1 + 1).
  assert (Ht : 0 < / 2 ^ 600) by (apply Rinv_0_lt_compat, pow_lt; lra).
  revert Ht. generalize (/ 2 ^ 600). intros t Ht.
  pose proof eps_small. pose proof eps_pos. nra.
Qed.

(** Away from the underflow of a square, the float64 squares change nothing:
    the two embeddings of [error_analysis] return the same. *)
Lemma f64_error_analysis_exact svd st res :
  (∀ usv s0, svd (jac res) = Ok usv → getitem usv.1.2 0 = Ok s0 →
     Forall (λ v, / 2 ^ 1075 < v ^ 2)
       (filter (λ si, si > eps * INR (Nat.max (nrows (jac res)) (ncols (jac res))) * s0)
               usv.1.2)) →
  F64.error_analysis svd st res = error_analysis svd st res.
Proof.
  intros Hbig. unfold F64.error_analysis, error_analysis.
  destruct (Np.divide st _ _) as [s_sq|e]; [|reflexivity]. cbn [mbind result_bind].
  destruct (svd (jac res)) as [usv|e] eqn:Hsvd; [|reflexivity].
  cbn [mbind result_bind].
  destruct (getitem usv.1.2 0) as [s0|e] eqn:Hs0; [|reflexivity].
  cbn [mbind result_bind].
  specialize (Hbig usv s0 eq_refl Hs0).
  assert (Hmap : ∀ l, Forall (λ v, / 2 ^ 1075 < v ^ 2) l →
                   map F64.square l = map (λ si, si ^ 2) l).
  { induction 1 as [|v l Hv _ IH]; [reflexivity|].
    cbn [map]. rewrite IH. f_equal. unfold F64.square.
    rewrite decide_False by lra. reflexivity. }
  rewrite (Hmap _ Hbig). reflexivity.
Qed.

(** C10, as the code has it. For a result with more residuals than
    parameters and singular values that are non-negative, the degrees of
    freedom [res.fun.size - res.x.size] are not zero and every singular
    value kept above the threshold [eps * max(jac.shape) * s[0]] is strictly
    positive. The divisor of [VT.T / s**2] is the square of a kept value,
    taken in float64: when no such square underflows, that is when every
    kept [s] has [s^2 > 2^-1075], [error_analysis] meets no division by
    zero, and with [np.seterr(all='raise')] it returns what it returns by
    default. *)
Theorem error_analysis_divides_by_zero_only_on_underflow svd res :
  (length (x res) < length (fun_ res))%nat →
  (∀ usv, svd (jac res) = Ok usv → Forall (λ v, 0 <= v) usv.1.2) →
  let kept (usv : matrix * list R * matrix) (s0 : R) :=
    filter (λ si, si > eps * INR (Nat.max (nrows (jac res)) (ncols (jac res))) * s0)
           usv.1.2 in
  IZR (Z.of_nat (length (fun_ res)) - Z.of_nat (length (x res))) ≠ 0
  ∧ (∀ usv s0, svd (jac res) = Ok usv → getitem usv.1.2 0 = Ok s0 →
       Forall (λ v, 0 < v) (kept usv s0))
  ∧ (∀ v, F64.square v = 0 ↔ v ^ 2 <= / 2 ^ 1075)
  ∧ ((∀ usv s0, svd (jac res) = Ok usv → getitem usv.1.2 0 = Ok s0 →
        Forall (λ v, / 2 ^ 1075 < v ^ 2) (kept usv s0)) →
     F64.error_analysis svd Np.ErrRaise res = F64.error_analysis svd Np.ErrWarn res).
Proof.
  intros Hnk Hnonneg kept.
  split; [apply degrees_of_freedom_nonzero, Hnk|]. split; [|split].
  - intros usv s0 Hsvd Hs0. specialize (Hnonneg usv Hsvd).
    assert (H0 : 0 <= s0).
    { unfold getitem in Hs0. destruct (usv.1.2) as [|a s']; [discriminate|].
      injection Hs0 as <-. apply Forall_cons_1 in Hnonneg as [H0 _]. exact H0. }
    apply kept_positive, threshold_nonneg, H0.
  - intros v. split.
    + intros Hz. destruct (Rle_or_lt (v ^ 2) (/ 2 ^ 1075)) as [Hle|Hlt]; [exact Hle|].
      exfalso. exact (square_nonzero v Hlt Hz).
    + intros Hle. unfold F64.square. rewrite decide_True by exact Hle. reflexivity.
  - intros Hbig. unfold F64.error_analysis.
    rewrite !divide_Ok by (intros _; apply degrees_of_freedom_nonzero, Hnk).
    cbn [mbind result_bind].
    destruct (svd (jac res)) as [usv|e] eqn:Hsvd; [|reflexivity].
    cbn [mbind result_bind].
    destruct (getitem usv.1.2 0) as [s0|e] eqn:Hs0; [|reflexivity].
    cbn [mbind result_bind].
    rewrite divide_columns_modes; [reflexivity|].
    apply Forall_fmap. eapply Forall_impl; [exact (Hbig usv s0 eq_refl Hs0)|].
    cbn. intros v Hv. apply square_nonzero, Hv.
Qed.

Lemma error_analysis_divides_by_zero_only_on_underflow_witness :
  F64.error_analysis Demo.svd Np.ErrRaise Demo.res
  = F64.error_analysis Demo.svd Np.ErrWarn Demo.res.
Proof.
  refine (proj2 (proj2 (proj2
            (error_analysis_divides_by_zero_only_on_underflow Demo.svd Demo.res _ _))) _).
  - cbn. lia.
  - intros usv [= <-]. cbn [fst snd]. Forall_lra.
  - intros usv s0 [= <-] _. cbn [fst snd]. apply Forall_forall. intros v Hv.
    apply list_elem_of_filter in Hv as [_ Hv].
    apply list_elem_of_singleton in Hv as ->.
    assert (Hs : / 2 ^ 1075 < 1).
    { assert (H1 : 1 < 2 ^ 1075) by (apply Rlt_pow_R1; [lra | lia]).
      pose proof (Rinv_1_lt_contravar 1 (2 ^ 1075) (Rle_refl 1) H1) as Hinv.
      rewrite Rinv_1 in Hinv. exact Hinv. }
    revert Hs. generalize (/ 2 ^ 1075). intros t Hs. lra.
Defined.

(** C10 as stated fails in float64: the Jacobian [[2^-600], [0]] is not
    zero, the result has two residuals for one parameter, the singular value
    [2^-600] is positive and above the threshold, so it is kept; but its
    square underflows to [0.0], and [VT.T / s**2] divides by zero: where a
    division by zero raises, [error_analysis] raises
    [FloatingPointError]. *)
Lemma error_analysis_square_underflows :
  (length (x Tiny.res) < length (fun_ Tiny.res))%nat
  ∧ entry (jac Tiny.res) 0 0 ≠ 0
  ∧ thin_svd (jac Tiny.res) (Tiny.U, [/ 2 ^ 600], Tiny.VT)
  ∧ svd_result_ok (Tiny.U, [/ 2 ^ 600], Tiny.VT)
  ∧ filter (λ si, si > eps * INR (Nat.max (nrows (jac Tiny.res)) (ncols (jac Tiny.res)))
                       * / 2 ^ 600) [/ 2 ^ 600]
    = [/ 2 ^ 600]
  ∧ 0 < / 2 ^ 600
  ∧ map F64.square [/ 2 ^ 600] = [0]
  ∧ F64.error_analysis Tiny.svd Np.ErrRaise Tiny.res = Raise FloatingPointError.
Proof.
  assert (Ht : 0 < / 2 ^ 600) by (apply Rinv_0_lt_compat, pow_lt; lra).
  split; [cbn [Tiny.res x fun_ length]; lia|].
  split; [cbn [Tiny.res jac Tiny.J entry]; lra|].
  split; [|split; [|split; [exact tiny_kept|split; [exact Ht|split]]]].
  - split; [reflexivity|]. split; [reflexivity|]. split; [|split].
    + intros r i Hr Hi. cbn [Tiny.res jac Tiny.J nrows ncols] in Hr, Hi.
      destruct i as [|i]; [|lia].
      cbn [Tiny.res jac Tiny.J Tiny.U Tiny.VT ncols entry fst snd Mat.sum_upto nth].
      destruct r as [|[|r]]; [| |lia]; lra.
    + intros l m Hl Hm. cbn [Tiny.res jac Tiny.J nrows ncols] in Hl, Hm.
      destruct l as [|l]; [|lia]. destruct m as [|m]; [|lia].
      cbn [Tiny.res jac Tiny.J Tiny.U nrows entry fst snd Mat.sum_upto].
      rewrite decide_True by reflexivity. lra.
    + split; [reflexivity|]. split.
      * intros a b Ha Hb. cbn [Tiny.VT nrows ncols snd] in Ha, Hb.
        destruct a as [|a]; [|lia]. destruct b as [|b]; [|lia].
        cbn [Tiny.VT ncols entry snd Mat.sum_upto].
        rewrite decide_True by reflexivity. lra.
      * intros i j Hi Hj. cbn [Tiny.VT nrows ncols snd] in Hi, Hj.
        destruct i as [|i]; [|lia]. destruct j as [|j]; [|lia].
        cbn [Tiny.VT nrows entry snd Mat.sum_upto].
        rewrite decide_True by reflexivity. lra.
  - split; [reflexivity|]. cbn [fst snd]. split.
    + apply Forall_cons_2; [lra | apply Forall_nil_2].
    + apply SSorted_cons; [apply SSorted_nil | apply List.Forall_nil].
  - cbn [map]. rewrite tiny_square. reflexivity.
  - unfold F64.error_analysis.
    rewrite divide_Ok by (intros _; apply degrees_of_freedom_nonzero;
                          cbn [Tiny.res x fun_ length]; lia).
    cbn [mbind result_bind Tiny.svd Tiny.res jac fst snd].
    change (getitem [/ 2 ^ 600] 0) with (Ok (/ 2 ^ 600)). cbn [mbind result_bind].
    pose proof tiny_kept as Hk. cbn [Tiny.res jac] in *. rewrite Hk.
    cbn [map length]. rewrite tiny_square.
    unfold Mat.divide_columns, Mat.broadcast_dim.
    cbn [Mat.transpose Mat.first_rows Tiny.VT nrows ncols length Nat.min].
    rewrite decide_True by reflexivity.
    rewrite decide_True; [reflexivity|]. split; [lia|].
    apply Exists_cons_hd. rewrite decide_True by reflexivity. reflexivity.
Qed.

(** ** Exceptions pass through the functions of the notebook *)

Lemma bind_raises_iff {A B} (m : result A) (k : A → result B) (e : exn)
    (rest : A → Prop) :
  (∀ a, k a = Raise e ↔ rest a) → ((m ≫= k) = Raise e ↔ raises_or m e rest).
Proof.
  intros Hk. unfold raises_or. destruct m as [a|e0]; cbn [mbind result_bind].
  - rewrite Hk. split.
    + intros H. right. exists a. split; [reflexivity | exact H].
    + intros [H|(a' & Ha & H)]; [discriminate|]. injection Ha as <-. exact H.
  - split.
    + intros [= ->]. left. reflexivity.
    + intros [[= ->]|(a & Ha & _)]; [reflexivity | discriminate].
Qed.

Lemma bind_ret_raises_iff {A B} (m : result A) (g : A → B) (e : exn) :
  (m ≫= λ a, mret (g a)) = Raise e ↔ m = Raise e.
Proof.
  destruct m as [a|e0]; cbn [mbind result_bind].
  - split; discriminate.
  - split; intros [= ->]; reflexivity.
Qed.

Lemma NB_bind_stops_iff {A B} (m : NB A) (k : A → NB B) (w : world) (e : exn)
    (w' : world) (rest : A → world → Prop) :
  (∀ a w1, k a w1 = (Raise e, w') ↔ rest a w1) →
  ((m ≫= k) w = (Raise e, w') ↔ stops_or m w e w' rest).
Proof.
  intros Hk. rewrite NB_bind_unfold. unfold stops_or.
  destruct (m w) as [[a|e0] w1].
  - rewrite Hk. split.
    + intros H. right. exists a, w1. split; [reflexivity | exact H].
    + intros [H|(a' & w1' & Ha & H)]; [discriminate|]. injection Ha as <- <-. exact H.
  - split.
    + intros [= -> ->]. left. reflexivity.
    + intros [[= -> ->]|(a & w1' & Ha & _)]; [reflexivity | discriminate].
Qed.

Lemma NB_bind_ret_stops_iff {A B} (m : NB A) (g : A → B) (w : world) (e : exn)
    (w' : world) :
  (m ≫= λ a, mret (g a)) w = (Raise e, w') ↔ m w = (Raise e, w').
Proof.
  rewrite NB_bind_unfold. destruct (m w) as [[a|e0] w1].
  - split; discriminate.
  - split; intros [= -> ->]; reflexivity.
Qed.

Ltac chain :=
  repeat first [ reflexivity
               | apply bind_raises_iff; intros ?
               | apply NB_bind_stops_iff; intros ? ?
               | apply bind_ret_raises_iff
               | apply NB_bind_ret_stops_iff ].

(** An operation on the elements of an array stops at the first element on
    which it raises. *)
Lemma mapM_raises {A B} (f : A → result B) (l : list A) (e : exn) :
  mapM f l = Raise e
  ↔ ∃ l1 a l2 bs, l = l1 ++ a :: l2 ∧ mapM f l1 = Ok bs ∧ f a = Raise e.
Proof.
  induction l as [|a0 l IH].
  - split; [discriminate|]. intros (l1 & a & l2 & bs & Hl & _).
    destruct l1; discriminate.
  - cbn [mapM]. destruct (f a0) as [b|e0] eqn:Hf; cbn [mbind result_bind].
    + rewrite bind_ret_raises_iff, IH. split.
      * intros (l1 & a & l2 & bs & -> & Hl & Hr).
        exists (a0 :: l1), a, l2, (b :: bs). split; [reflexivity|].
        split; [|exact Hr]. cbn [mapM]. rewrite Hf, Hl. reflexivity.
      * intros (l1 & a & l2 & bs & Hl & Hm & Hr). destruct l1 as [|a1 l1].
        -- injection Hl as <- <-. congruence.
        -- injection Hl as <- ->. cbn [mapM] in Hm. rewrite Hf in Hm.
           cbn [mbind result_bind] in Hm.
           destruct (mapM f l1) as [bs'|e'] eqn:Hl1; [|discriminate].
           exists l1, a, l2, bs'. split; [reflexivity|]. split; [exact Hl1 | exact Hr].
    + split.
      * intros [= ->]. exists [], a0, l, []. split; [reflexivity|].
        split; [reflexivity | exact Hf].
      * intros (l1 & a & l2 & bs & Hl & Hm & Hr). destruct l1 as [|a1 l1].
        -- injection Hl as <- <-. congruence.
        -- injection Hl as <- ->. cbn [mapM] in Hm. rewrite Hf in Hm. discriminate.
Qed.

(** The loop of cell 30 is its body, then the loop on the rest. *)
Lemma loop_unfold func st p args i m ms acc :
  GlobalFit.loop func st p args i (m :: ms) acc
  = (loop_body func st p args i m
     ≫= λ r, GlobalFit.loop func st p args (S i) ms (acc ++ r)).
Proof.
  cbn [GlobalFit.loop]. unfold loop_body.
  repeat match goal with
         | |- context [mbind _ ?c] =>
             lazymatch c with
             | mbind _ _ => fail
             | _ => destruct c; cbn [mbind result_bind]; try reflexivity
             end
         end.
Qed.

Lemma loop_raises func st p args (ms : list R) (i : nat) (acc : list R) (e : exn) :
  GlobalFit.loop func st p args i ms acc = Raise e
  ↔ ∃ ms1 m ms2 residuals,
      ms = ms1 ++ m :: ms2
      ∧ GlobalFit.loop func st p args i ms1 acc = Ok residuals
      ∧ loop_body func st p args (i + length ms1) m = Raise e.
Proof.
  revert i acc. induction ms as [|m0 ms IH]; intros i acc.
  - split; [discriminate|]. intros (ms1 & m & ms2 & r & Hms & _).
    destruct ms1; discriminate.
  - rewrite loop_unfold.
    destruct (loop_body func st p args i m0) as [r|e0] eqn:Hb; cbn [mbind result_bind].
    + rewrite IH. split.
      * intros (ms1 & m & ms2 & r' & -> & Hl & Hr).
        exists (m0 :: ms1), m, ms2, r'. split; [reflexivity|]. split.
        -- rewrite loop_unfold, Hb. exact Hl.
        -- cbn [length]. rewrite <- Nat.add_succ_comm. exact Hr.
      * intros (ms1 & m & ms2 & r' & Hms & Hl & Hr). destruct ms1 as [|m1 ms1].
        -- injection Hms as <- <-. cbn [length] in Hr. rewrite Nat.add_0_r in Hr.
           congruence.
        -- injection Hms as <- ->. exists ms1, m, ms2, r'. split; [reflexivity|].
           rewrite loop_unfold, Hb in Hl. split; [exact Hl|].
           cbn [length] in Hr. rewrite <- Nat.add_succ_comm in Hr. exact Hr.
    + split.
      * intros [= ->]. exists [], m0, ms, acc. split; [reflexivity|].
        split; [reflexivity|]. cbn [length]. rewrite Nat.add_0_r. exact Hb.
      * intros (ms1 & m & ms2 & r' & Hms & Hl & Hr). destruct ms1 as [|m1 ms1].
        -- injection Hms as <- <-. cbn [length] in Hr. rewrite Nat.add_0_r in Hr.
           congruence.
        -- injection Hms as <- ->. rewrite loop_unfold, Hb in Hl. discriminate.
Qed.

Lemma linearize_loop_raises st (n i : nat) args (e : exn) :
  Linearize.loop st args i n = Raise e
  ↔ ∃ j args', (j < n)%nat
      ∧ Linearize.loop st args i j = Ok args'
      ∧ Linearize.step st args' (i + j) = Raise e.
Proof.
  revert i args. induction n as [|n IH]; intros i args.
  - split; [discriminate|]. intros (j & args' & Hj & _). lia.
  - cbn [Linearize.loop].
    destruct (Linearize.step st args i) as [a1|e0] eqn:Hs; cbn [mbind result_bind].
    + rewrite IH. split.
      * intros (j & args' & Hj & Hl & Hr). exists (S j), args'.
        split; [lia|]. split.
        -- cbn [Linearize.loop]. rewrite Hs. exact Hl.
        -- rewrite <- Nat.add_succ_comm. exact Hr.
      * intros (j & args' & Hj & Hl & Hr). destruct j as [|j].
        -- cbn [Linearize.loop] in Hl. injection Hl as <-.
           rewrite Nat.add_0_r in Hr. congruence.
        -- cbn [Linearize.loop] in Hl. rewrite Hs in Hl. cbn [mbind result_bind] in Hl.
           exists j, args'. split; [lia|]. split; [exact Hl|].
           rewrite <- Nat.add_succ_comm in Hr. exact Hr.
    + split.
      * intros [= ->]. exists O, args. split; [lia|]. split; [reflexivity|].
        rewrite Nat.add_0_r. exact Hs.
      * intros (j & args' & Hj & Hl & Hr). destruct j as [|j].
        -- cbn [Linearize.loop] in Hl. injection Hl as <-.
           rewrite Nat.add_0_r in Hr. congruence.
        -- cbn [Linearize.loop] in Hl. rewrite Hs in Hl. discriminate.
Qed.

Lemma for_raises {A} (l : list A) (body : A → NB unit) (w : world) (e : exn)
    (w' : world) :
  for_ l body w = (Raise e, w')
  ↔ ∃ l1 a l2 w1, l = l1 ++ a :: l2
      ∧ for_ l1 body w = (Ok (), w1)
      ∧ body a w1 = (Raise e, w').
Proof.
  revert w. induction l as [|a0 l IH]; intros w.
  - split; [discriminate|]. intros (l1 & a & l2 & w1 & Hl & _).
    destruct l1; discriminate.
  - cbn [for_]. rewrite NB_bind_unfold.
    destruct (body a0 w) as [[[]|e0] w0] eqn:Hb.
    + rewrite IH. split.
      * intros (l1 & a & l2 & w1 & -> & Hl & Hr).
        exists (a0 :: l1), a, l2, w1. split; [reflexivity|]. split; [|exact Hr].
        cbn [for_]. rewrite NB_bind_unfold, Hb. exact Hl.
      * intros (l1 & a & l2 & w1 & Hl & Hf & Hr). destruct l1 as [|a1 l1].
        -- injection Hl as <- <-. cbn in Hf. injection Hf as <-. congruence.
        -- injection Hl as <- ->. exists l1, a, l2, w1. split; [reflexivity|].
           cbn [for_] in Hf. rewrite NB_bind_unfold, Hb in Hf. split; assumption.
    + split.
      * intros [= -> ->]. exists [], a0, l, w. split; [reflexivity|].
        split; [reflexivity | exact Hb].
      * intros (l1 & a & l2 & w1 & Hl & Hf & Hr). destruct l1 as [|a1 l1].
        -- injection Hl as <- <-. cbn in Hf. injection Hf as <-. congruence.
        -- injection Hl as <- ->. cbn [for_] in Hf.
           rewrite NB_bind_unfold, Hb in Hf. discriminate.
Qed.

Lemma for_acc_raises {A S} (l : list A) (body : A → S → NB S) (s : S) (w : world)
    (e : exn) (w' : world) :
  for_acc l body s w = (Raise e, w')
  ↔ ∃ l1 a l2 s1 w1, l = l1 ++ a :: l2
      ∧ for_acc l1 body s w = (Ok s1, w1)
      ∧ body a s1 w1 = (Raise e, w').
Proof.
  revert s w. induction l as [|a0 l IH]; intros s w.
  - split; [discriminate|]. intros (l1 & a & l2 & s1 & w1 & Hl & _).
    destruct l1; discriminate.
  - cbn [for_acc]. rewrite NB_bind_unfold.
    destruct (body a0 s w) as [[s0|e0] w0] eqn:Hb.
    + rewrite IH. split.
      * intros (l1 & a & l2 & s1 & w1 & -> & Hl & Hr).
        exists (a0 :: l1), a, l2, s1, w1. split; [reflexivity|]. split; [|exact Hr].
        cbn [for_acc]. rewrite NB_bind_unfold, Hb. exact Hl.
      * intros (l1 & a & l2 & s1 & w1 & Hl & Hf & Hr). destruct l1 as [|a1 l1].
        -- injection Hl as <- <-. cbn in Hf. injection Hf as <- <-. congruence.
        -- injection Hl as <- ->. exists l1, a, l2, s1, w1. split; [reflexivity|].
           cbn [for_acc] in Hf. rewrite NB_bind_unfold, Hb in Hf. split; assumption.
    + split.
      * intros [= -> ->]. exists [], a0, l, s, w. split; [reflexivity|].
        split; [reflexivity | exact Hb].
      * intros (l1 & a & l2 & s1 & w1 & Hl & Hf & Hr). destruct l1 as [|a1 l1].
        -- injection Hl as <- <-. cbn in Hf. injection Hf as <- <-. congruence.
        -- injection Hl as <- ->. cbn [for_acc] in Hf.
           rewrite NB_bind_unfold, Hb in Hf. discriminate.
Qed.

(** C7. No function and no cell of the notebook handles an exception: each
    is a sequence of calls, and it raises [e] exactly when one of its calls
    raises [e] after the calls before it have returned; so an exception of
    a call is never turned into a normal result or into another exception.
    This is stated for every function and every cell, call by call in the
    order of the source: the operations on arrays, the model functions, the
    two residual functions (for any model function [func], with the loop of
    cell 30 stopping at the first item whose body raises),
    [error_analysis] (for any [svd]) and the table rows, the preprocessing,
    the loop of cell 35, and the cells over the file system up to the whole
    run, where a library call that raises stops its cell in the world it
    was made in. *)
Theorem exceptions_propagate :
  (* an operation on the elements of an array *)
  (∀ A B (f : A → result B) l e,
     mapM f l = Raise e
     ↔ ∃ l1 a l2 bs, l = l1 ++ a :: l2 ∧ mapM f l1 = Ok bs ∧ f a = Raise e)
  ∧ (∀ A B C (f : A → B → result C) a b e,
       Np.broadcast f a b = Raise e
       ↔ if decide (length a = length b)
         then mapM (λ ab, f ab.1 ab.2) (zip a b) = Raise e
         else match a, b with
              | [u], _ => mapM (f u) b = Raise e
              | _, [v] => mapM (λ u, f u v) a = Raise e
              | _, _ => e = ValueError
              end)
  (* cell 13: func and leastsq_function *)
  ∧ (∀ st x param e,
       SingleExp.func st x param = Raise e
       ↔ raises_or (getitem param 0) e (λ p0,
         raises_or (getitem param 1) e (λ p1,
         mapM (λ xi, Np.divide st (- xi) p1) x = Raise e)))
  ∧ (∀ func st param args e,
       SingleExp.leastsq_function func st param args = Raise e
       ↔ raises_or (getitem args 1) e (λ y,
         raises_or (getitem args 0) e (λ x,
         raises_or (func x param) e (λ f,
         raises_or (Np.broadcast Np.subtract y f) e (λ d,
         raises_or (getitem args 2) e (λ yerr,
         Np.broadcast (Np.divide st) d yerr = Raise e))))))
  (* cell 25: func *)
  ∧ (∀ st x F0 tau0 e,
       CurveFit.func st x F0 tau0 = Raise e
       ↔ mapM (λ xi, Np.divide st (- xi) tau0) x = Raise e)
  (* cell 30: func, the body of the loop and leastsq_function *)
  ∧ (∀ st x param e,
       GlobalFit.func st x param = Raise e
       ↔ raises_or (getitem param 0) e (λ p0,
         raises_or (getitem param 1) e (λ p1,
         raises_or (mapM (λ xi, Np.divide st (- xi) p1) x) e (λ a,
         raises_or (getitem param 3) e (λ p3,
         raises_or (getitem param 2) e (λ p2,
         Np.broadcast Np.add a (map (λ xi, p3 * Np.expm1 (- p2 * xi)) x)
         = Raise e))))))
  ∧ (∀ func st p args i m e,
       loop_body func st p args i m = Raise e
       ↔ raises_or (getitem p 0) e (λ p0,
         raises_or (getitem p 1) e (λ p1,
         raises_or (getitem p 2) e (λ p2,
         raises_or (getitem args 1) e (λ ally,
         raises_or (getitem ally i) e (λ y,
         raises_or (getitem args 0) e (λ allx,
         raises_or (getitem allx i) e (λ x,
         raises_or (func x [p0; p1; p2; m]) e (λ f,
         raises_or (Np.broadcast Np.subtract y f) e (λ d,
         raises_or (getitem args 2) e (λ allyerr,
         raises_or (getitem allyerr i) e (λ yerr,
         Np.broadcast (Np.divide st) d yerr = Raise e))))))))))))
  ∧ (∀ func st p args i m ms residuals,
       GlobalFit.loop func st p args i (m :: ms) residuals
       = (loop_body func st p args i m
          ≫= λ r, GlobalFit.loop func st p args (S i) ms (residuals ++ r)))
  ∧ (∀ func st p args e,
       GlobalFit.leastsq_function func st p args = Raise e
       ↔ ∃ ms1 m ms2 residuals,
           drop 3 p = ms1 ++ m :: ms2
           ∧ GlobalFit.loop func st p args 0 ms1 [] = Ok residuals
           ∧ loop_body func st p args (length ms1) m = Raise e)
  (* cell 35: func, the body of the loop and the loop *)
  ∧ (∀ st x param e,
       LogFit.func st x param = Raise e
       ↔ raises_or (getitem param 0) e (λ p0,
         raises_or (getitem param 1) e (λ p1,
         raises_or (mapM (λ xi, Np.divide st xi p1) x) e (λ q,
         raises_or (getitem param 3) e (λ p3,
         raises_or (getitem param 2) e (λ p2,
         Np.broadcast Np.add (map (λ qi, p0 - qi) q)
           (map (λ xi, p3 * Np.expm1 (- p2 * xi)) x)
         = Raise e))))))
  ∧ (∀ A (a : list (list A)) i j v e,
       Linearize.setitem2 a i j v = Raise e
       ↔ raises_or (getitem a i) e (λ row,
         ¬ (j < length row)%nat ∧ e = IndexError))
  ∧ (∀ st args i e,
       Linearize.step st args i = Raise e
       ↔ raises_or (getitem args 2) e (λ allyerr,
         raises_or (getitem allyerr i) e (λ yerr,
         raises_or (getitem args 1) e (λ ally,
         raises_or (getitem ally i) e (λ y,
         raises_or (Np.broadcast (Np.divide st) yerr y) e (λ q,
         raises_or (Linearize.setitem2 args 2 i q) e (λ args1,
         raises_or (getitem args1 1) e (λ ally1,
         raises_or (getitem ally1 i) e (λ y1,
         raises_or (mapM (Linearize.log st) y1) e (λ l,
         Linearize.setitem2 args1 1 i l = Raise e))))))))))
  ∧ (∀ st args data e,
       Linearize.cell35 st args data = Raise e
       ↔ ∃ i args', (i < length data)%nat
           ∧ Linearize.loop st args 0 i = Ok args'
           ∧ Linearize.step st args' i = Raise e)
  (* cell 21: error_analysis; cells 23, 33 and 38: the row of the table *)
  ∧ (∀ svd st res e,
       error_analysis svd st res = Raise e
       ↔ raises_or (Np.divide st (2 * cost res)
                      (IZR (Z.of_nat (length (fun_ res))
                            - Z.of_nat (length (x res))))) e (λ s_sq,
         raises_or (svd (jac res)) e (λ usv,
         raises_or (getitem usv.1.2 0) e (λ s0,
         let threshold :=
           eps * INR (Nat.max (nrows (jac res)) (ncols (jac res))) * s0 in
         let s := filter (λ si, si > threshold) usv.1.2 in
         let VT := Mat.first_rows (length s) usv.2 in
         raises_or (Mat.divide_columns st (Mat.transpose VT)
                      (map (λ si, si ^ 2) s)) e (λ q,
         Mat.dot q VT = Raise e)))))
  ∧ (∀ svd st res e,
       F64.error_analysis svd st res = Raise e
       ↔ raises_or (Np.divide st (2 * cost res)
                      (IZR (Z.of_nat (length (fun_ res))
                            - Z.of_nat (length (x res))))) e (λ s_sq,
         raises_or (svd (jac res)) e (λ usv,
         raises_or (getitem usv.1.2 0) e (λ s0,
         let threshold :=
           eps * INR (Nat.max (nrows (jac res)) (ncols (jac res))) * s0 in
         let s := filter (λ si, si > threshold) usv.1.2 in
         let VT := Mat.first_rows (length s) usv.2 in
         raises_or (Mat.divide_columns st (Mat.transpose VT)
                      (map F64.square s)) e (λ q,
         Mat.dot q VT = Raise e)))))
  ∧ (∀ svd st res e,
       Table.p_and_err svd st res = Raise e
       ↔ raises_or (error_analysis svd st res) e (λ ea,
         raises_or (Table.assign_odd (Table.repeat2 (x res)) ea.1) e (λ _,
         error_analysis svd st res = Raise e)))
  (* cells 9 and 11: the preprocessing *)
  ∧ (∀ d e,
       Prep.discard_before_max d = Raise e
       ↔ raises_or (Np.amax (d.*2)) e (λ fmax,
         raises_or (Np.broadcast Prep.gt (d.*1)
                      ((filter (λ r, r.2 = fmax) d).*1)) e (λ mask,
         Np.bool_index d mask = Raise e)))
  ∧ (∀ d e, Prep.shifted d = Raise e ↔ getitem d 0 = Raise e)
  ∧ (∀ d e,
       Prep.preprocess d = Raise e
       ↔ raises_or (Prep.rows_of d) e (λ rows,
         raises_or (Prep.discard_before_max rows) e (λ kept,
         Prep.shifted kept = Raise e)))
  (* the cells: library calls, loops, and the run *)
  ∧ (∀ A (r : result A) w e w', lift r w = (Raise e, w') ↔ r = Raise e ∧ w' = w)
  ∧ (∀ path w e w',
       read_file path w = (Raise e, w')
       ↔ files w !! path = None ∧ e = OSError
         ∧ w' = World (files w) (events w ++ [EvRead path]))
  ∧ (∀ L path n w e w',
       loadtxt L path n w = (Raise e, w')
       ↔ stops_or (read_file path) w e w' (λ c w1,
         lift (parse_table L n c) w1 = (Raise e, w')))
  ∧ (∀ L path w e w',
       read_pickle L path w = (Raise e, w')
       ↔ stops_or (read_file path) w e w' (λ c w1,
         lift (pickle_loads L c) w1 = (Raise e, w')))
  ∧ (∀ L conc w e w',
       cell8_body L conc w = (Raise e, w')
       ↔ stops_or (loadtxt L (quencher_file L conc) 9) w e w' (λ d w1,
         stops_or (lift (unpack2 d)) w1 e w' (λ tF w2,
         lift (errorbar L tF.1 tF.2 (map sqrt tF.2)) w2 = (Raise e, w'))))
  ∧ (∀ L w e w',
       cell8 L w = (Raise e, w')
       ↔ ∃ pre conc post w1, concs = pre ++ conc :: post
           ∧ for_ pre (cell8_body L) w = (Ok (), w1)
           ∧ cell8_body L conc w1 = (Raise e, w'))
  ∧ (∀ L conc w e w',
       cell9_body L conc w = (Raise e, w')
       ↔ stops_or (loadtxt L (quencher_file L conc) 9) w e w' (λ d w1,
         stops_or (lift (Prep.preprocess d)) w1 e w' (λ c w2,
         lift (errorbar L (Curve.t c) (Curve.F c) (Curve.Ferr c)) w2
         = (Raise e, w'))))
  ∧ (∀ L w e w',
       cell9 L w = (Raise e, w')
       ↔ ∃ pre conc post w1, concs = pre ++ conc :: post
           ∧ for_ pre (cell9_body L) w = (Ok (), w1)
           ∧ cell9_body L conc w1 = (Raise e, w'))
  ∧ (∀ L conc data w e w',
       cell11_body L conc data w = (Raise e, w')
       ↔ stops_or (loadtxt L (quencher_file L conc) 9) w e w' (λ d w1,
         lift (Prep.preprocess d) w1 = (Raise e, w')))
  ∧ (∀ L w e w',
       cell11_data L w = (Raise e, w')
       ↔ ∃ pre conc post data w1, concs = pre ++ conc :: post
           ∧ for_acc pre (cell11_body L) [] w = (Ok data, w1)
           ∧ cell11_body L conc data w1 = (Raise e, w'))
  ∧ (∀ L df path w e w', to_pickle L df path w ≠ (Raise e, w'))
  ∧ (∀ L w e w',
       cell11 L w = (Raise e, w')
       ↔ stops_or (cell11_data L) w e w' (λ data w1,
         to_pickle L data pickle_file w1 = (Raise e, w')))
  ∧ (∀ L w e w',
       cell13 L w = (Raise e, w')
       ↔ stops_or (read_pickle L pickle_file) w e w' (λ df w1,
         stops_or (lift (dict_get 0.0 df)) w1 e w' (λ d w2,
         lift (fit_first L d) w2 = (Raise e, w'))))
  ∧ (∀ L w e w',
       cell28 L w = (Raise e, w')
       ↔ stops_or (read_pickle L pickle_file) w e w' (λ data w1,
         lift (fit_global L data) w1 = (Raise e, w')))
  ∧ (∀ w e w', cell6 w ≠ (Raise e, w') ∧ cell7 w ≠ (Raise e, w'))
  ∧ (∀ L w e w',
       run L w = (Raise e, w')
       ↔ stops_or cell6 w e w' (λ _ w1,
         stops_or cell7 w1 e w' (λ _ w2,
         stops_or (cell8 L) w2 e w' (λ _ w3,
         stops_or (cell9 L) w3 e w' (λ _ w4,
         stops_or (cell11 L) w4 e w' (λ _ w5,
         stops_or (cell13 L) w5 e w' (λ _ w6,
         cell28 L w6 = (Raise e, w')))))))).
Proof.
  repeat apply conj.
  - intros. apply mapM_raises.
  - intros A B C f a b e. unfold Np.broadcast.
    destruct (decide (length a = length b)); [reflexivity|].
    destruct a as [|u [|u' a]], b as [|v [|v' b]]; try reflexivity;
      split; congruence.
  - intros. unfold SingleExp.func. chain.
  - intros. unfold SingleExp.leastsq_function. chain.
  - intros. unfold CurveFit.func. chain.
  - intros. unfold GlobalFit.func. cbv zeta. chain.
  - intros. unfold loop_body. cbv zeta. chain.
  - intros. apply loop_unfold.
  - intros. unfold GlobalFit.leastsq_function. apply loop_raises.
  - intros. unfold LogFit.func. cbv zeta. chain.
  - intros A a i j v e. unfold Linearize.setitem2. apply bind_raises_iff.
    intros row. destruct (decide (j < length row)%nat) as [Hj|Hj].
    + split; [discriminate | intros [? _]; contradiction].
    + split; [intros [= <-]; auto | intros [_ ->]; reflexivity].
  - intros. unfold Linearize.step. chain.
  - intros. unfold Linearize.cell35. apply linearize_loop_raises.
  - intros. unfold error_analysis. cbv zeta. chain.
  - intros. unfold F64.error_analysis. cbv zeta. chain.
  - intros. unfold Table.p_and_err. cbv zeta. chain.
  - intros. unfold Prep.discard_before_max. cbv zeta. chain.
  - intros d e. unfold Prep.shifted, Prep.first_time.
    etransitivity; [apply bind_ret_raises_iff | apply bind_ret_raises_iff].
  - intros. unfold Prep.preprocess. chain.
  - intros A r w e w'. unfold lift. split.
    + intros [= -> ->]. split; reflexivity.
    + intros [-> ->]. reflexivity.
  - intros path w e w'. unfold read_file.
    destruct (files w !! path) as [c|]; split.
    + discriminate.
    + intros [? _]. discriminate.
    + intros [= <- <-]. auto.
    + intros (_ & -> & ->). reflexivity.
  - intros. unfold loadtxt. chain.
  - intros. unfold read_pickle. chain.
  - intros. unfold cell8_body. chain.
  - intros. unfold cell8. apply for_raises.
  - intros. unfold cell9_body. chain.
  - intros. unfold cell9. apply for_raises.
  - intros. unfold cell11_body. chain.
  - intros. unfold cell11_data. apply for_acc_raises.
  - intros L df path w e w'. unfold to_pickle, write_file. discriminate.
  - intros. unfold cell11. cbv zeta. chain.
  - intros. unfold cell13. chain.
  - intros. unfold cell28. chain.
  - intros w e w'. unfold cell6, cell7, log. split; discriminate.
  - intros. unfold run. chain.
Qed.

Lemma exceptions_propagate_witness :
  SingleExp.leastsq_function (SingleExp.func Np.ErrWarn) Np.ErrWarn
    [] [[0]; [1]; [1]] = Raise IndexError.
Proof.
  refine (proj2 (proj1 (proj2 (proj2 (proj2 exceptions_propagate)))
                   (SingleExp.func Np.ErrWarn) Np.ErrWarn [] [[0]; [1]; [1]]
                   IndexError) _).
  right. exists [1]. split; [reflexivity|].
  right. exists [0]. split; [reflexivity|].
  left. reflexivity.
Defined.

(** * Further properties of the cells *)

(** ** Parameters and datasets of the global fit (cell 30) *)

(** The loop reads one dataset per parameter [m], whatever follows them. *)
Lemma loop_steps st p0 p1 p2 tl (pre ds post : list dataset) (ms ms' acc : list R) :
  (st = Np.ErrRaise → p1 ≠ 0) →
  length ms = length ds →
  Forall dataset_ok ds →
  GlobalFit.loop (GlobalFit.func st) st (p0 :: p1 :: p2 :: tl)
    [(pre ++ ds ++ post).*1.*1; (pre ++ ds ++ post).*1.*2; (pre ++ ds ++ post).*2]
    (length pre) (ms ++ ms') acc
  = GlobalFit.loop (GlobalFit.func st) st (p0 :: p1 :: p2 :: tl)
      [(pre ++ ds ++ post).*1.*1; (pre ++ ds ++ post).*1.*2; (pre ++ ds ++ post).*2]
      (length pre + length ds) ms'
      (acc ++ concat (zip_with
         (λ m, weighted_residuals
                 (λ t, p0 * exp (- t / p1 + m * Np.expm1 (- p2 * t)))) ms ds)).
Proof.
  intros Hp1. revert pre ds acc.
  induction ms as [|m ms IH]; intros pre [|d ds] acc Hlen Hok; try discriminate.
  - cbn [app length zip_with concat]. rewrite app_nil_r, Nat.add_0_r. reflexivity.
  - inversion Hok as [|? ? Hd Hds]; subst.
    assert (Hget : getitem (pre ++ d :: (ds ++ post)) (length pre) = Ok d)
      by apply getitem_middle.
    cbn [app GlobalFit.loop]. cbn [getitem lookup list_lookup mbind result_bind].
    rewrite (getitem_fmap snd _ _ _ (getitem_fmap fst _ _ _ Hget)).
    cbn [mbind result_bind].
    rewrite (getitem_fmap fst _ _ _ (getitem_fmap fst _ _ _ Hget)).
    cbn [mbind result_bind].
    rewrite (global_func_Ok st _ p0 p1 p2 m Hp1). cbn [mbind result_bind].
    rewrite (getitem_fmap snd _ _ _ Hget).
    pose proof (weighted_residuals_Ok st
      (λ t, p0 * exp (- t / p1 + m * Np.expm1 (- p2 * t))) d Hd) as Hr.
    destruct (Np.broadcast Np.subtract d.1.2 _) as [d0|e] eqn:Hsub; [|discriminate].
    cbn [mbind result_bind] in Hr |- *. rewrite Hr. cbn [mbind result_bind].
    specialize (IH (pre ++ [d]) ds (acc ++ weighted_residuals
      (λ t, p0 * exp (- t / p1 + m * Np.expm1 (- p2 * t))) d)).
    rewrite <- !(assoc_L (++) pre [d] (ds ++ post)) in IH. cbn [app] in IH.
    rewrite length_app in IH. cbn [length] in IH.
    replace (length pre + 1)%nat with (S (length pre)) in IH by lia.
    cbn [app] in *. rewrite IH; [|cbn in Hlen; lia|exact Hds].
    cbn [zip_with concat length]. rewrite <- !(assoc_L (++)).
    replace (S (length pre) + length ds)%nat with (length pre + S (length ds))%nat by lia.
    reflexivity.
Qed.

Lemma weighted_residuals_length (model : R → R) (d : dataset) :
  dataset_ok d → length (weighted_residuals model d) = length d.1.2.
Proof.
  intros (Hxy & Hye & _). unfold weighted_residuals.
  rewrite !length_zip_with, length_map. lia.
Qed.

Lemma blocks_length (model : R → R → R) (ms : list R) (ds : list dataset) :
  length ms = length ds → Forall dataset_ok ds →
  length (concat (zip_with (λ m, weighted_residuals (model m)) ms ds))
  = sum_list_with (λ d, length d.1.2) ds.
Proof.
  revert ds. induction ms as [|m ms IH]; intros [|d ds] Hlen Hok; try discriminate.
  - reflexivity.
  - inversion Hok; subst. cbn [zip_with concat sum_list_with].
    rewrite length_app, weighted_residuals_length by assumption.
    rewrite IH by (try assumption; cbn in Hlen; lia). reflexivity.
Qed.

(** X1. The residual function of the global fit returns one residual per data
    point: for a parameter vector of length [3 + n] and [n] datasets with
    positive weights, the length of its result is the sum of the lengths of
    the datasets. *)
Theorem global_residuals_one_per_point st (p : list R) (ds : list dataset) :
  length p = (3 + length ds)%nat →
  (st = Np.ErrRaise → nth 1 p 0 ≠ 0) →
  Forall dataset_ok ds →
  ∃ r, GlobalFit.leastsq_function (GlobalFit.func st) st p
         [ds.*1.*1; ds.*1.*2; ds.*2] = Ok r
       ∧ length r = sum_list_with (λ d, length d.1.2) ds.
Proof.
  intros Hlen Hp1 Hok.
  destruct p as [|p0 [|p1 [|p2 ms]]]; try (cbn in Hlen; lia).
  cbn in Hp1. assert (Hms : length ms = length ds) by (cbn in Hlen; lia).
  unfold GlobalFit.leastsq_function.
  change (drop 3 (p0 :: p1 :: p2 :: ms)) with ms.
  pose proof (loop_appends st p0 p1 p2 ms [] ds ms [] Hp1 Hms Hok) as H.
  cbn [app length] in H. rewrite H. eexists. split; [reflexivity|].
  apply (blocks_length (λ m t, p0 * exp (- t / p1 + m * Np.expm1 (- p2 * t))));
    assumption.
Qed.

Lemma global_residuals_one_per_point_witness :
  ∃ r, GlobalFit.leastsq_function (GlobalFit.func Np.ErrWarn) Np.ErrWarn
         [3000; 160; 0.04; 0; 0.5]
         [[[0; 1]; [0]]; [[2900; 2800]; [2700]]; [[50; 40]; [30]]] = Ok r
       ∧ length r = 3%nat.
Proof.
  refine (global_residuals_one_per_point Np.ErrWarn [3000; 160; 0.04; 0; 0.5]
            [([0; 1], [2900; 2800], [50; 40]); ([0], [2700], [30])] _ _ _).
  - reflexivity.
  - discriminate.
  - repeat (apply Forall_cons_2;
            [split; [reflexivity | split; [reflexivity | Forall_lra]]|]).
    apply Forall_nil_2.
Defined.

(** X2. The number of parameters [m] decides how many datasets are read: the
    datasets beyond it are ignored, whatever they hold, and with three
    parameters or fewer the result is the empty array for any model
    function and any arguments. *)
Theorem global_fit_ignores_extra_datasets :
  (∀ st p0 p1 p2 (ms : list R) (ds extra : list dataset),
     (st = Np.ErrRaise → p1 ≠ 0) →
     length ms = length ds →
     Forall dataset_ok ds →
     GlobalFit.leastsq_function (GlobalFit.func st) st (p0 :: p1 :: p2 :: ms)
       [(ds ++ extra).*1.*1; (ds ++ extra).*1.*2; (ds ++ extra).*2]
     = GlobalFit.leastsq_function (GlobalFit.func st) st (p0 :: p1 :: p2 :: ms)
         [ds.*1.*1; ds.*1.*2; ds.*2])
  ∧ (∀ func st (p : list R) args,
       (length p ≤ 3)%nat → GlobalFit.leastsq_function func st p args = Ok []).
Proof.
  split.
  - intros st p0 p1 p2 ms ds extra Hp1 Hlen Hok.
    unfold GlobalFit.leastsq_function.
    change (drop 3 (p0 :: p1 :: p2 :: ms)) with ms.
    pose proof (loop_appends st p0 p1 p2 ms [] ds ms [] Hp1 Hlen Hok) as H0.
    cbn [app length] in H0. rewrite H0.
    pose proof (loop_steps st p0 p1 p2 ms [] ds extra ms [] [] Hp1 Hlen Hok) as H.
    rewrite app_nil_r in H. cbn [app length] in H. rewrite H. reflexivity.
  - intros func st p args Hp. unfold GlobalFit.leastsq_function.
    rewrite drop_ge by exact Hp. reflexivity.
Qed.

Lemma global_fit_ignores_extra_datasets_witness :
  GlobalFit.leastsq_function (GlobalFit.func Np.ErrWarn) Np.ErrWarn
    [3000; 160; 0.04; 0.5]
    [[[0; 1]; [7; 8; 9]]; [[2900; 2800]; []]; [[50; 40]; [0]]]
  = GlobalFit.leastsq_function (GlobalFit.func Np.ErrWarn) Np.ErrWarn
      [3000; 160; 0.04; 0.5] [[[0; 1]]; [[2900; 2800]]; [[50; 40]]].
Proof.
  refine (proj1 global_fit_ignores_extra_datasets Np.ErrWarn 3000 160 0.04 [0.5]
            [([0; 1], [2900; 2800], [50; 40])] [([7; 8; 9], [], [0])] _ _ _).
  - discriminate.
  - reflexivity.
  - apply Forall_cons_2; [|apply Forall_nil_2].
    split; [reflexivity | split; [reflexivity | Forall_lra]].
Defined.

(** X3. With more parameters [m] than datasets, the residual function raises
    [IndexError] once the datasets are used up. *)
Theorem global_fit_needs_a_dataset_per_m st p0 p1 p2 (ms : list R) m (ms' : list R)
    (ds : list dataset) :
  (st = Np.ErrRaise → p1 ≠ 0) →
  length ms = length ds →
  Forall dataset_ok ds →
  GlobalFit.leastsq_function (GlobalFit.func st) st
    (p0 :: p1 :: p2 :: ms ++ m :: ms') [ds.*1.*1; ds.*1.*2; ds.*2]
  = Raise IndexError.
Proof.
  intros Hp1 Hlen Hok. unfold GlobalFit.leastsq_function.
  change (drop 3 (p0 :: p1 :: p2 :: ms ++ m :: ms')) with (ms ++ m :: ms').
  pose proof (loop_steps st p0 p1 p2 (ms ++ m :: ms') [] ds [] ms (m :: ms') []
                Hp1 Hlen Hok) as H.
  rewrite app_nil_r in H. cbn [app length] in H. rewrite H.
  assert (Hy : getitem (ds.*1.*2) (0 + length ds) = Raise IndexError).
  { unfold getitem. rewrite lookup_ge_None_2; [reflexivity|].
    rewrite !length_fmap. unfold dataset. lia. }
  cbn [GlobalFit.loop getitem lookup list_lookup mbind result_bind].
  rewrite Hy. reflexivity.
Qed.

Lemma global_fit_needs_a_dataset_per_m_witness :
  GlobalFit.leastsq_function (GlobalFit.func Np.ErrWarn) Np.ErrWarn
    [3000; 160; 0.04; 0; 0.5] [[[0; 1]]; [[2900; 2800]]; [[50; 40]]]
  = Raise IndexError.
Proof.
  refine (global_fit_needs_a_dataset_per_m Np.ErrWarn 3000 160 0.04 [0] 0.5 []
            [([0; 1], [2900; 2800], [50; 40])] _ _ _).
  - discriminate.
  - reflexivity.
  - apply Forall_cons_2; [|apply Forall_nil_2].
    split; [reflexivity | split; [reflexivity | Forall_lra]].
Defined.

(** ** Shapes and zeros of the single-exponential residuals (cell 13) *)

Lemma broadcast_mismatch {A B C} (f : A → B → result C) (a : list A) (b : list B) :
  length a ≠ length b → length a ≠ 1%nat → length b ≠ 1%nat →
  Np.broadcast f a b = Raise ValueError.
Proof.
  intros Hab Ha Hb. unfold Np.broadcast. rewrite decide_False by exact Hab.
  destruct a as [|u [|u' a]]; destruct b as [|v [|v' b]]; cbn in *;
    try reflexivity; congruence.
Qed.

(** X4. Arrays that do not fit raise [ValueError], none is cut to the length of
    another: so for the times against the intensities and for the errors
    against the residuals, when the lengths differ and neither is one; a
    single error is applied to every point. Here [tau0] is not zero. *)
Theorem single_exp_residuals_shapes st F0 tau0 (x y yerr : list R) :
  tau0 ≠ 0 →
  (length x ≠ length y → length x ≠ 1%nat → length y ≠ 1%nat →
   SingleExp.leastsq_function (SingleExp.func st) st [F0; tau0] [x; y; yerr]
   = Raise ValueError)
  ∧ (length x = length y →
     length yerr ≠ length y → length yerr ≠ 1%nat → length y ≠ 1%nat →
     SingleExp.leastsq_function (SingleExp.func st) st [F0; tau0] [x; y; yerr]
     = Raise ValueError)
  ∧ (∀ e, length x = length y → yerr = [e] → e ≠ 0 →
     SingleExp.leastsq_function (SingleExp.func st) st [F0; tau0] [x; y; yerr]
     = Ok (map (λ r, r / e)
             (zip_with Rminus y (map (λ xi, F0 * exp (- xi / tau0)) x)))).
Proof.
  intros Htau. unfold SingleExp.leastsq_function.
  cbn -[SingleExp.func]. rewrite (single_func_Ok st x F0 tau0 (λ _, Htau)). cbn.
  split; [|split].
  - intros Hxy Hx Hy. rewrite broadcast_mismatch; [reflexivity|..];
      rewrite ?length_map; auto.
  - intros Hxy Hey He Hy.
    rewrite broadcast_subtract by (rewrite length_map; congruence). cbn.
    apply broadcast_mismatch; rewrite ?length_zip_with, ?length_map; lia.
  - intros e Hxy -> He.
    rewrite broadcast_subtract by (rewrite length_map; congruence). cbn.
    apply broadcast_stretch_r. intros u. apply divide_Ok. auto.
Qed.

Lemma single_exp_residuals_shapes_witness :
  SingleExp.leastsq_function (SingleExp.func Np.ErrWarn) Np.ErrWarn
    [3000; 150] [[0; 1; 2]; [2900; 2800]; [50; 40]] = Raise ValueError.
Proof.
  refine (proj1 (single_exp_residuals_shapes Np.ErrWarn 3000 150
                   [0; 1; 2] [2900; 2800] [50; 40] _) _ _ _);
    first [lra | cbn; lia].
Defined.

Lemma residuals_zero_iff (y f e : list R) :
  length y = length f → length f = length e → Forall (λ v, v ≠ 0) e →
  Forall (λ v, v = 0) (zip_with Rdiv (zip_with Rminus y f) e) ↔ y = f.
Proof.
  revert f e. induction y as [|yi y IH]; intros [|fi f] [|ei e] Hyf Hfe He;
    try discriminate.
  - split; [reflexivity | intros _; apply Forall_nil_2].
  - cbn [zip_with]. inversion He as [|? ? Hei He']; subst.
    rewrite Forall_cons, (IH f e) by (try assumption; cbn in *; lia).
    split.
    + intros [H0 ->]. f_equal.
      unfold Rdiv in H0. apply Rmult_integral in H0 as [H0|H0]; [lra|].
      exfalso. exact (Rinv_neq_0_compat ei Hei H0).
    + intros [= -> ->]. split; [|reflexivity]. unfold Rdiv. lra.
Qed.

(** X5. Data on the curve and nothing else gives residuals that are all zero:
    for arrays of one length, non-zero errors and a non-zero [tau0], every
    residual is zero exactly when [y] is the decay [F0 * exp(-x / tau0)] at
    every time. *)
Theorem single_exp_residuals_zero_iff st F0 tau0 (x y yerr r : list R) :
  tau0 ≠ 0 →
  length x = length y → length y = length yerr →
  Forall (λ e, e ≠ 0) yerr →
  SingleExp.leastsq_function (SingleExp.func st) st [F0; tau0] [x; y; yerr] = Ok r →
  Forall (λ v, v = 0) r ↔ y = map (λ xi, F0 * exp (- xi / tau0)) x.
Proof.
  intros Htau Hxy Hye Hnz. unfold SingleExp.leastsq_function.
  cbn -[SingleExp.func]. rewrite (single_func_Ok st x F0 tau0 (λ _, Htau)). cbn.
  rewrite broadcast_subtract by (rewrite length_map; congruence). cbn.
  rewrite broadcast_divide by
    (try (rewrite length_zip_with, length_map; lia); intros _; exact Hnz).
  intros [= <-]. apply residuals_zero_iff; rewrite ?length_map;
    [congruence | congruence | exact Hnz].
Qed.

Lemma single_exp_residuals_zero_iff_witness :
  Forall (λ v, v = 0)
         [(3000 * exp (- 0 / 150) - 3000 * exp (- 0 / 150)) / 50]
  ↔ [3000 * exp (- 0 / 150)] = map (λ xi, 3000 * exp (- xi / 150)) [0].
Proof.
  refine (single_exp_residuals_zero_iff Np.ErrWarn 3000 150 [0]
            [3000 * exp (- 0 / 150)] [50] _ _ _ _ _ _).
  - lra.
  - reflexivity.
  - reflexivity.
  - Forall_lra.
  - reflexivity.
Defined.

(** ** The linearized fit (cells 35 and 36) *)

Lemma log_func_Ok st x p0 p1 p2 m :
  (st = Np.ErrRaise → p1 ≠ 0) →
  LogFit.func st x [p0; p1; p2; m]
  = Ok (map (λ t, p0 - t / p1 + m * Np.expm1 (- p2 * t)) x).
Proof.
  intros Hp1. unfold LogFit.func. cbn.
  rewrite (mapM_divide st p1 (λ t, t) x Hp1). cbn.
  rewrite broadcast_add by (rewrite !length_map; reflexivity).
  f_equal. clear Hp1. induction x as [|t x IH]; [reflexivity|].
  cbn. f_equal. exact IH.
Qed.

(** X6. The model function of cell 35 is the logarithm of the one of cell 30:
    for [F0 > 0] and a non-zero [tau0], [func] of cell 35 at
    [(ln F0, tau0, k_q, m)] returns, time by time, the logarithm of what
    [func] of cell 30 returns at [(F0, tau0, k_q, m)]. *)
Theorem log_func_is_log_of_func st F0 tau0 k_q m (x : list R) :
  F0 > 0 → tau0 ≠ 0 →
  ∃ g, GlobalFit.func st x [F0; tau0; k_q; m] = Ok g
       ∧ LogFit.func st x [ln F0; tau0; k_q; m] = Ok (map ln g)
       ∧ Forall (λ v, v > 0) g.
Proof.
  intros HF0 Htau. eexists. split; [apply global_func_Ok; intros _; exact Htau|].
  split.
  - rewrite log_func_Ok by (intros _; exact Htau). f_equal. rewrite map_map.
    apply map_ext. intros t. rewrite ln_mult by (try apply exp_pos; lra).
    rewrite ln_exp. lra.
  - apply Forall_forall. intros v Hv. apply list_elem_of_fmap in Hv as (t & -> & _).
    apply Rmult_gt_0_compat; [exact HF0 | apply exp_pos].
Qed.

Lemma log_func_is_log_of_func_witness :
  ∃ g, GlobalFit.func Np.ErrWarn [0; 10] [3000; 160; 0.04; 0.5] = Ok g
       ∧ LogFit.func Np.ErrWarn [0; 10] [ln 3000; 160; 0.04; 0.5] = Ok (map ln g)
       ∧ Forall (λ v, v > 0) g.
Proof.
  refine (log_func_is_log_of_func Np.ErrWarn 3000 160 0.04 0.5 [0; 10] _ _).
  - lra.
  - lra.
Defined.

Lemma insert_middle {A} (pre : list A) (a b : A) (post : list A) :
  <[length pre := b]> (pre ++ a :: post) = pre ++ b :: post.
Proof.
  rewrite insert_app_r_alt by lia. rewrite Nat.sub_diag. reflexivity.
Qed.

Lemma mapM_log st (y : list R) :
  (st = Np.ErrRaise → Forall (λ v, v > 0) y) →
  mapM (Linearize.log st) y = Ok (map ln y).
Proof.
  intros Hy. apply mapM_Ok. destruct st; [apply Forall_forall; reflexivity|].
  eapply Forall_impl; [exact (Hy eq_refl)|]. cbn. intros v Hv.
  rewrite decide_False by lra. reflexivity.
Qed.

(** One pass of the loop of cell 35 on dataset [length done]. *)
Lemma linearize_step st (done todo : list dataset) (d : dataset) :
  length d.2 = length d.1.2 →
  (st = Np.ErrRaise → Forall (λ v, v > 0) d.1.2) →
  Linearize.step st
    [(done ++ d :: todo).*1.*1; (done ++ d :: todo).*1.*2; (done ++ d :: todo).*2]
    (length done)
  = Ok [(done ++ linearized d :: todo).*1.*1;
        (done ++ linearized d :: todo).*1.*2;
        (done ++ linearized d :: todo).*2].
Proof.
  intros Hlen Hpos.
  assert (Hget : getitem (done ++ d :: todo) (length done) = Ok d)
    by apply getitem_middle.
  assert (Hi : ∀ {B} (f : dataset → B),
            (length done < length (f <$> (done ++ d :: todo)))%nat).
  { intros B f. rewrite length_fmap, length_app. cbn. lia. }
  unfold Linearize.step, Linearize.setitem2.
  cbn [getitem lookup list_lookup mbind result_bind].
  rewrite (getitem_fmap snd _ _ _ Hget). cbn [mbind result_bind].
  rewrite (getitem_fmap snd _ _ _ (getitem_fmap fst _ _ _ Hget)).
  cbn [mbind result_bind].
  rewrite broadcast_divide; [|exact Hlen|].
  2:{ intros Hst. eapply Forall_impl; [exact (Hpos Hst)|]. cbn. intros; lra. }
  cbn [mbind result_bind].
  rewrite decide_True by apply (Hi _ snd).
  cbn [mbind result_bind].
  change (<[2%nat := ?v]> [?a; ?b; ?c]) with [a; b; v].
  cbn [getitem lookup list_lookup mbind result_bind].
  rewrite (getitem_fmap snd _ _ _ (getitem_fmap fst _ _ _ Hget)).
  cbn [mbind result_bind]. rewrite (mapM_log st _ Hpos). cbn [mbind result_bind].
  rewrite decide_True.
  2:{ rewrite length_fmap. apply (Hi _ fst). }
  change (<[1%nat := ?v]> [?a; ?b; ?c]) with [a; v; c]. f_equal.
  rewrite !fmap_app, !fmap_cons.
  replace (length done) with (length (done.*1.*2)) at 1
    by (rewrite !length_fmap; reflexivity).
  rewrite insert_middle.
  replace (length done) with (length (done.*2)) at 1
    by (rewrite !length_fmap; reflexivity).
  rewrite insert_middle. reflexivity.
Qed.

Lemma linearize_loop st (done todo : list dataset) :
  Forall (λ d, length d.2 = length d.1.2
               ∧ (st = Np.ErrRaise → Forall (λ v, v > 0) d.1.2)) todo →
  Linearize.loop st
    [(done ++ todo).*1.*1; (done ++ todo).*1.*2; (done ++ todo).*2]
    (length done) (length todo)
  = Ok [(done ++ (linearized <$> todo)).*1.*1;
        (done ++ (linearized <$> todo)).*1.*2;
        (done ++ (linearized <$> todo)).*2].
Proof.
  intros Hok. revert done. induction Hok as [|d todo [Hlen Hpos] _ IH]; intros done.
  - reflexivity.
  - change (length (d :: todo)) with (S (length todo)).
    change (Linearize.loop st ?a ?i (S ?n))
      with (Linearize.step st a i ≫= λ a', Linearize.loop st a' (S i) n).
    pose proof (linearize_step st done todo d Hlen Hpos) as Hstep.
    unfold dataset in *. rewrite Hstep.
    cbn [mbind result_bind]. specialize (IH (done ++ [linearized d])).
    rewrite <- !(assoc_L (++) done [linearized d]) in IH. cbn [app] in IH.
    rewrite length_app in IH. cbn [length] in IH.
    replace (length done + 1)%nat with (S (length done)) in IH by lia.
    rewrite IH. cbn [fmap list_fmap]. reflexivity.
Qed.

Lemma args_of_datasets (data : DataFrame) :
  Cell28.args data
  = [(datasets_of data).*1.*1; (datasets_of data).*1.*2; (datasets_of data).*2].
Proof.
  unfold Cell28.args, datasets_of.
  change (map ?f data) with (f <$> data).
  rewrite <- !list_fmap_compose. reflexivity.
Qed.

(** X7. Cell 35 turns every dataset [(x, y, yerr)] of the global fit into
    [(x, ln y, yerr / y)]: the times stay, the errors are divided by the
    intensities as they were before the logarithm is taken. The errors have
    the length of the intensities, and the intensities are positive. *)
Theorem cell35_linearizes st (data : DataFrame) :
  Forall (λ kc, length (Curve.Ferr kc.2) = length (Curve.F kc.2)
                ∧ Forall (λ v, v > 0) (Curve.F kc.2)) data →
  Linearize.cell35 st (Cell28.args data) data
  = Ok [map (λ kc, Curve.t kc.2) data;
        map (λ kc, map ln (Curve.F kc.2)) data;
        map (λ kc, zip_with Rdiv (Curve.Ferr kc.2) (Curve.F kc.2)) data].
Proof.
  intros Hok. unfold Linearize.cell35. rewrite args_of_datasets.
  pose proof (linearize_loop st [] (datasets_of data)) as H.
  cbn [app length] in H.
  replace (length data) with (length (datasets_of data))
    by (unfold datasets_of; apply length_map).
  unfold dataset in *. rewrite H.
  - f_equal. unfold datasets_of. change (map ?f data) with (f <$> data).
    rewrite <- !list_fmap_compose. reflexivity.
  - unfold datasets_of. change (map ?f data) with (f <$> data).
    apply Forall_fmap. eapply Forall_impl; [exact Hok|]. cbn.
    intros kc [Hlen Hpos]. split; [exact Hlen | intros _; exact Hpos].
Qed.

Lemma cell35_linearizes_witness :
  Linearize.cell35 Np.ErrWarn
    (Cell28.args [(0, Curve.Build [0; 1] [4; 1] [2; 1])])
    [(0, Curve.Build [0; 1] [4; 1] [2; 1])]
  = Ok [[[0; 1]]; [[ln 4; ln 1]]; [[2 / 4; 1 / 1]]].
Proof.
  refine (cell35_linearizes Np.ErrWarn [(0, Curve.Build [0; 1] [4; 1] [2; 1])] _).
  apply Forall_cons_2; [|apply Forall_nil_2].
  split; [reflexivity | cbn [snd Curve.F]; Forall_lra].
Defined.

Lemma sqrt_over (v : R) : v > 0 → sqrt v / v = 1 / sqrt v.
Proof.
  intros Hv. assert (Hs : 0 < sqrt v) by (apply sqrt_lt_R0; lra).
  rewrite <- (sqrt_sqrt v) at 2 by lra. field. lra.
Qed.

(** X8. With the errors of cell 11, the errors of the linearized data are
    [1 / sqrt(F)]: for a curve that the preprocessing returns with positive
    intensities, dividing [Ferr] by [F] as cell 35 does gives the inverse
    square roots of the intensities. *)
Theorem linearized_errors_of_counts (d : ndarray) (c : curve) :
  Prep.preprocess d = Ok c →
  Forall (λ v, v > 0) (Curve.F c) →
  (linearized (Curve.t c, Curve.F c, Curve.Ferr c)).2
  = map (λ v, 1 / sqrt v) (Curve.F c).
Proof.
  intros Hpre Hpos.
  apply preprocess_Ok_inv in Hpre as (rows & kept & _ & _ & _ & ->).
  unfold linearized. cbn [fst snd]. induction Hpos as [|v F Hv _ IH]; [reflexivity|].
  cbn [map zip_with]. rewrite IH, (sqrt_over v Hv). reflexivity.
Qed.

Lemma linearized_errors_of_counts_witness :
  (linearized (Curve.t Demo.stored, Curve.F Demo.stored, Curve.Ferr Demo.stored)).2
  = map (λ v, 1 / sqrt v) (Curve.F Demo.stored).
Proof.
  refine (linearized_errors_of_counts (Arr2 Demo.rows) Demo.stored demo_preprocess _).
  cbn [Curve.F Demo.stored]. Forall_lra.
Defined.

(** ** The linearized fit (cell 36) *)

(** The loop of cell 30 for any model function that returns, for the
    parameters [(p0, p1, p2, m)], [model m] at every time. *)
Lemma loop_appends_model (func : list R → list R → result (list R))
    (model : R → R → R) st p0 p1 p2 tl (pre ds : list dataset) (ms acc : list R) :
  (∀ x m, func x [p0; p1; p2; m] = Ok (map (model m) x)) →
  length ms = length ds →
  Forall dataset_ok ds →
  GlobalFit.loop func st (p0 :: p1 :: p2 :: tl)
    [(pre ++ ds).*1.*1; (pre ++ ds).*1.*2; (pre ++ ds).*2] (length pre) ms acc
  = Ok (acc ++ concat (zip_with (λ m, weighted_residuals (model m)) ms ds)).
Proof.
  intros Hfunc. revert pre ds acc.
  induction ms as [|m ms IH]; intros pre [|d ds] acc Hlen Hok; try discriminate.
  - cbn. rewrite app_nil_r. reflexivity.
  - inversion Hok as [|? ? Hd Hds]; subst.
    assert (Hget : getitem (pre ++ d :: ds) (length pre) = Ok d)
      by apply getitem_middle.
    cbn [GlobalFit.loop]. cbn [getitem lookup list_lookup mbind result_bind].
    rewrite (getitem_fmap snd _ _ _ (getitem_fmap fst _ _ _ Hget)).
    cbn [mbind result_bind].
    rewrite (getitem_fmap fst _ _ _ (getitem_fmap fst _ _ _ Hget)).
    cbn [mbind result_bind].
    rewrite Hfunc. cbn [mbind result_bind].
    rewrite (getitem_fmap snd _ _ _ Hget).
    pose proof (weighted_residuals_Ok st (model m) d Hd) as Hr.
    destruct (Np.broadcast Np.subtract d.1.2 _) as [d0|e] eqn:Hsub; [|discriminate].
    cbn [mbind result_bind] in Hr |- *. rewrite Hr. cbn [mbind result_bind].
    specialize (IH (pre ++ [d]) ds (acc ++ weighted_residuals (model m) d)).
    rewrite <- !(assoc_L (++) pre [d] ds) in IH. cbn [app] in IH.
    rewrite length_app in IH. cbn [length] in IH.
    replace (length pre + 1)%nat with (S (length pre)) in IH by lia.
    rewrite IH; [|cbn in Hlen; lia|exact Hds].
    cbn [zip_with concat]. rewrite <- !(assoc_L (++)). reflexivity.
Qed.

Lemma linearized_ok (d : dataset) :
  dataset_ok d → Forall (λ v, v > 0) d.1.2 → dataset_ok (linearized d).
Proof.
  destruct d as [[x y] yerr]. unfold dataset_ok, linearized. cbn [fst snd].
  intros (Hxy & Hye & Hpos) Hy. rewrite length_map, length_zip_with.
  split; [exact Hxy|]. split; [lia|].
  clear Hxy. revert y Hye Hy. induction Hpos as [|e yerr He _ IH]; intros [|v y] Hye Hy;
    try discriminate; cbn [zip_with]; [apply Forall_nil_2|].
  inversion Hy as [|? ? Hv Hy']; subst.
  apply Forall_cons_2.
  - apply Rdiv_lt_0_compat; lra.
  - apply IH; [cbn in Hye; lia | exact Hy'].
Qed.

(** X9. Cells 35 and 36 together: on the arguments that cell 35 has rewritten,
    the residual function of cell 30, which now calls the [func] of cell 35,
    returns for every curve and every point
    [(ln F - (p0 - t/p1 + m*expm1(-p2*t))) / (Ferr / F)], curve after curve.
    The curves have one length each, positive errors and positive
    intensities, there is one parameter [m] per curve, and [p1] is not
    zero. *)
Theorem linearized_fit_residuals st p0 p1 p2 (ms : list R) (data : DataFrame) :
  p1 ≠ 0 →
  length ms = length data →
  Forall (λ d, dataset_ok d ∧ Forall (λ v, v > 0) d.1.2) (datasets_of data) →
  (args' ← Linearize.cell35 st (Cell28.args data) data;
   GlobalFit.leastsq_function (LogFit.func st) st (p0 :: p1 :: p2 :: ms) args')
  = Ok (concat (zip_with
          (λ m d, zip_with Rdiv
                    (zip_with Rminus (map ln d.1.2)
                       (map (λ t, p0 - t / p1 + m * Np.expm1 (- p2 * t)) d.1.1))
                    (zip_with Rdiv d.2 d.1.2))
          ms (datasets_of data))).
Proof.
  intros Hp1 Hlen Hok. unfold Linearize.cell35. rewrite args_of_datasets.
  assert (Hl : length (datasets_of data) = length data)
    by (unfold datasets_of; apply length_map).
  rewrite <- Hl in *. clear Hl.
  generalize dependent (datasets_of data). intros ds Hlen Hok.
  pose proof (linearize_loop st [] ds) as H. cbn [app length] in H.
  unfold dataset in *. rewrite H.
  - cbn [mbind result_bind]. unfold GlobalFit.leastsq_function.
    change (drop 3 (p0 :: p1 :: p2 :: ms)) with ms.
    pose proof (loop_appends_model (LogFit.func st)
      (λ m t, p0 - t / p1 + m * Np.expm1 (- p2 * t)) st p0 p1 p2 ms []
      (linearized <$> ds) ms []) as H0.
    cbn [app length] in H0. unfold dataset in *. rewrite H0.
    + f_equal. clear. revert ds. induction ms as [|m ms IH]; intros [|d ds];
        try reflexivity.
      cbn [fmap list_fmap zip_with concat]. f_equal. apply IH.
    + intros x m. apply log_func_Ok. intros _. exact Hp1.
    + rewrite length_fmap. exact Hlen.
    + apply Forall_fmap. eapply Forall_impl; [exact Hok|].
      intros d [Hd Hy]. apply linearized_ok; assumption.
  - eapply Forall_impl; [exact Hok|]. intros d [(Hxy & Hye & _) Hy].
    split; [congruence | intros _; exact Hy].
Qed.

Lemma linearized_fit_residuals_witness :
  (args' ← Linearize.cell35 Np.ErrWarn
             (Cell28.args [(0, Curve.Build [0; 1] [4; 1] [2; 1])])
             [(0, Curve.Build [0; 1] [4; 1] [2; 1])];
   GlobalFit.leastsq_function (LogFit.func Np.ErrWarn) Np.ErrWarn
     [8; 160; 0.04; 0.5] args')
  = Ok [(ln 4 - (8 - 0 / 160 + 0.5 * Np.expm1 (- (0.04) * 0))) / (2 / 4);
        (ln 1 - (8 - 1 / 160 + 0.5 * Np.expm1 (- (0.04) * 1))) / (1 / 1)].
Proof.
  refine (linearized_fit_residuals Np.ErrWarn 8 160 0.04 [0.5]
            [(0, Curve.Build [0; 1] [4; 1] [2; 1])] _ _ _).
  - lra.
  - reflexivity.
  - apply Forall_cons_2; [|apply Forall_nil_2].
    split; [split; [reflexivity | split; [reflexivity | Forall_lra]] | Forall_lra].
Defined.

(** ** More on the preprocessing (cells 9 and 11) *)

Lemma filter_all_length {A} (P : A → Prop) `{!∀ a, Decision (P a)} (l : list A) :
  length (filter P l) = length l → filter P l = l.
Proof.
  induction l as [|a l IH]; [reflexivity|]. intros Hall.
  destruct (decide (P a)) as [Ha|Ha].
  - rewrite filter_cons_True in Hall |- * by exact Ha. cbn in Hall.
    f_equal. apply IH. lia.
  - rewrite filter_cons_False in Hall by exact Ha.
    pose proof (length_filter P l). cbn in Hall. lia.
Qed.

Lemma gt_self_mask (ts : list R) :
  Np.broadcast Prep.gt ts ts = Ok (map (λ _, false) ts).
Proof.
  rewrite (broadcast_Ok Prep.gt (λ a b, bool_decide (a > b)))
    by (try reflexivity; apply Forall_forall; reflexivity).
  f_equal. induction ts as [|t ts IH]; [reflexivity|].
  cbn [zip_with map]. rewrite IH. f_equal. apply bool_decide_eq_false_2. lra.
Qed.

Lemma bool_index_none {A} (l : list A) (ts : list R) :
  length ts = length l → Np.bool_index l (map (λ _, false) ts) = Ok [].
Proof.
  intros H. unfold Np.bool_index.
  rewrite decide_True by (rewrite length_map; congruence).
  assert (Hf : filter (λ am : A * bool, am.2 = true) (zip l (map (λ _, false) ts)) = []).
  { revert ts H. induction l as [|a l IH]; intros [|t ts] H; try discriminate;
      [reflexivity|].
    cbn [map zip zip_with]. rewrite filter_cons_False by (cbn; discriminate).
    apply IH. cbn in H. lia. }
  rewrite Hf. reflexivity.
Qed.

(** X10. A maximum that is attained more than once stops the preprocessing: with
    [k] rows at the maximal intensity, [1 < k < N], the comparison of the [N]
    times with the [k] times of the maximum raises [ValueError]; with the
    same intensity in every row ([k = N]) each time is compared with itself,
    no row is kept and [d[0,0]] raises [IndexError]. *)
Theorem preprocess_plateau (rows : list (R * R)) (fmax : R) :
  Np.amax (rows.*2) = Ok fmax →
  let k := length (filter (λ r, r.2 = fmax) rows) in
  ((1 < k < length rows)%nat → Prep.preprocess (Arr2 rows) = Raise ValueError)
  ∧ (k = length rows → Prep.preprocess (Arr2 rows) = Raise IndexError).
Proof.
  intros Hmax k. unfold Prep.preprocess, Prep.discard_before_max.
  cbn [Prep.rows_of mbind result_bind]. rewrite Hmax. cbn [mbind result_bind].
  split.
  - intros Hk. rewrite broadcast_mismatch; [reflexivity|..];
      rewrite !length_fmap; fold k; lia.
  - intros Hk. rewrite (filter_all_length _ rows Hk), gt_self_mask.
    cbn [mbind result_bind].
    rewrite bool_index_none by (rewrite length_fmap; reflexivity). reflexivity.
Qed.

Lemma preprocess_plateau_witness :
  Prep.preprocess (Arr2 [(0, 5); (1, 5); (2, 3)]) = Raise ValueError.
Proof.
  refine (proj1 (preprocess_plateau [(0, 5); (1, 5); (2, 3)] 5 _) _).
  - apply amax_Ok; [apply elem_of_cons; left; reflexivity | Forall_lra].
  - filter_lra. cbn. lia.
Defined.

Lemma preprocess_lengths d c :
  Prep.preprocess d = Ok c →
  length (Curve.t c) = length (Curve.F c) ∧ Curve.Ferr c = map sqrt (Curve.F c).
Proof.
  unfold Prep.preprocess. intros H.
  apply bind_Ok_inv in H as (rows & _ & H).
  apply bind_Ok_inv in H as (kept & _ & H).
  unfold Prep.shifted in H. apply bind_Ok_inv in H as (t0 & _ & H).
  injection H as <-. cbn [Curve.t Curve.F Curve.Ferr].
  rewrite length_map, !length_fmap. split; reflexivity.
Qed.

(** X11. Cells 11 to 14 together: a curve that the preprocessing returns, with
    positive intensities, fits the residual function of cell 13 as cell 14
    passes it, [args = (d['t'], d['F'], d['Ferr'])]: for a non-zero [tau0]
    the residuals are [(F - F0*exp(-t/tau0)) / sqrt(F)], point by point. *)
Theorem preprocessed_curve_residuals st (d : ndarray) (c : curve) (F0 tau0 : R) :
  Prep.preprocess d = Ok c →
  Forall (λ v, v > 0) (Curve.F c) →
  tau0 ≠ 0 →
  SingleExp.leastsq_function (SingleExp.func st) st [F0; tau0]
    [Curve.t c; Curve.F c; Curve.Ferr c]
  = Ok (zip_with (λ ti Fi, (Fi - F0 * exp (- ti / tau0)) / sqrt Fi)
          (Curve.t c) (Curve.F c)).
Proof.
  intros Hpre Hpos Htau. apply preprocess_lengths in Hpre as [Hlen ->].
  unfold SingleExp.leastsq_function.
  cbn -[SingleExp.func]. rewrite (single_func_Ok st _ F0 tau0 (λ _, Htau)). cbn.
  rewrite broadcast_subtract by (rewrite length_map; congruence). cbn.
  rewrite broadcast_divide.
  - f_equal. revert Hlen. generalize (Curve.t c). clear.
    induction (Curve.F c) as [|v F IH]; intros [|ti ts] Hlen; try discriminate;
      [reflexivity|].
    cbn [map zip_with]. f_equal. apply IH. cbn in Hlen. lia.
  - rewrite length_zip_with, !length_map. lia.
  - intros _. apply Forall_fmap. eapply Forall_impl; [exact Hpos|]. cbn.
    intros v Hv. assert (0 < sqrt v) by (apply sqrt_lt_R0; lra). lra.
Qed.

Lemma preprocessed_curve_residuals_witness :
  SingleExp.leastsq_function (SingleExp.func Np.ErrWarn) Np.ErrWarn [3000; 150]
    [Curve.t Demo.stored; Curve.F Demo.stored; Curve.Ferr Demo.stored]
  = Ok (zip_with (λ ti Fi, (Fi - 3000 * exp (- ti / 150)) / sqrt Fi)
          (Curve.t Demo.stored) (Curve.F Demo.stored)).
Proof.
  refine (preprocessed_curve_residuals Np.ErrWarn (Arr2 Demo.rows) Demo.stored
            3000 150 demo_preprocess _ _).
  - cbn [Curve.F Demo.stored]. Forall_lra.
  - lra.
Defined.

Lemma mapM_divide_zero (ab : list (R * R)) :
  (∃ p, p ∈ ab ∧ p.2 = 0) →
  mapM (λ p, Np.divide Np.ErrRaise p.1 p.2) ab = Raise FloatingPointError.
Proof.
  induction ab as [|q ab IH]; intros (p & Hin & Hp); [inversion Hin|].
  cbn [mapM]. destruct (decide (q.2 = 0)) as [Hq|Hq].
  { assert (Hd : Np.divide Np.ErrRaise q.1 q.2 = Raise FloatingPointError)
      by (unfold Np.divide; rewrite decide_True by exact Hq; reflexivity).
    rewrite Hd. reflexivity. }
  rewrite (divide_Ok Np.ErrRaise q.1 q.2 (λ _, Hq)).
  cbn [mbind result_bind]. rewrite IH; [reflexivity|].
  exists p. split; [|exact Hp]. apply elem_of_cons in Hin as [->|Hin];
    [contradiction | exact Hin].
Qed.

Lemma zip_sqrt_zero (a F : list R) :
  length a = length F → 0 ∈ F → ∃ p, p ∈ zip a (map sqrt F) ∧ p.2 = 0.
Proof.
  revert a. induction F as [|v F IH]; intros [|u a] Hlen Hin; try discriminate;
    [inversion Hin|].
  apply elem_of_cons in Hin as [<-|Hin].
  - exists (u, sqrt 0). split; [apply elem_of_cons; left; reflexivity | apply sqrt_0].
  - destruct (IH a) as (p & Hp & Hz); [cbn in Hlen; lia | exact Hin|].
    exists p. split; [apply elem_of_cons; right; exact Hp | exact Hz].
Qed.

(** X12. An intensity of zero counts among the kept rows has the error
    [sqrt(0) = 0], by which the residual function of cell 13 divides: where
    a division by zero raises ([np.seterr(all='raise')]) the residual
    function raises [FloatingPointError] on such a curve, for every pair of
    parameters with [tau0] not zero. *)
Theorem zero_count_divides_by_zero (d : ndarray) (c : curve) (F0 tau0 : R) :
  Prep.preprocess d = Ok c →
  0 ∈ Curve.F c →
  tau0 ≠ 0 →
  0 ∈ Curve.Ferr c
  ∧ SingleExp.leastsq_function (SingleExp.func Np.ErrRaise) Np.ErrRaise [F0; tau0]
      [Curve.t c; Curve.F c; Curve.Ferr c]
    = Raise FloatingPointError.
Proof.
  intros Hpre Hin Htau. apply preprocess_lengths in Hpre as [Hlen ->]. split.
  - rewrite <- sqrt_0. apply (list_elem_of_fmap_2 sqrt), Hin.
  - unfold SingleExp.leastsq_function.
    cbn -[SingleExp.func].
    rewrite (single_func_Ok Np.ErrRaise _ F0 tau0 (λ _, Htau)). cbn.
    rewrite broadcast_subtract by (rewrite length_map; congruence). cbn.
    rewrite broadcast_same_length by (rewrite length_zip_with, !length_map; lia).
    apply mapM_divide_zero, zip_sqrt_zero; [|exact Hin].
    rewrite length_zip_with, length_map. lia.
Qed.

Lemma zero_count_divides_by_zero_witness :
  0 ∈ [sqrt 0; sqrt 3]
  ∧ SingleExp.leastsq_function (SingleExp.func Np.ErrRaise) Np.ErrRaise [3000; 150]
      [[1 - 1; 2 - 1]; [0; 3]; [sqrt 0; sqrt 3]]
    = Raise FloatingPointError.
Proof.
  refine (zero_count_divides_by_zero (Arr2 [(0, 5); (1, 0); (2, 3)])
            (Curve.Build [1 - 1; 2 - 1] [0; 3] [sqrt 0; sqrt 3]) 3000 150 _ _ _).
  - refine (preprocess_kept [(0, 5); (1, 0); (2, 3)] 0 5 (1, 0) [(2, 3)] _ _).
    + exists [], [(1, 0); (2, 3)]. split; [reflexivity|]. cbn [app]. Forall_lra.
    + filter_lra. reflexivity.
  - apply elem_of_cons. left. reflexivity.
  - lra.
Defined.

(** ** The DataFrame of cell 11 and its readers (cells 13 and 28) *)

(** Every curve of the dictionary of cell 11 is a result of the
    preprocessing. *)
Lemma cell11_data_preprocessed L (w : world) data w1 :
  cell11_data L w = (Ok data, w1) →
  Forall (λ kc : R * curve, ∃ d, Prep.preprocess d = Ok kc.2) data.
Proof.
  intros H.
  refine (proj1 (for_acc_inv
           (λ data : DataFrame,
              Forall (λ kc : R * curve, ∃ d, Prep.preprocess d = Ok kc.2) data)
           (λ _, True) _ _ _ _ _ _ _ I _ H)); [apply Forall_nil_2|].
  intros conc data0 w0 data1 w2 _ Hdata _ Hb.
  apply NB_bind_Ok_inv in Hb as (d & w0' & _ & Hb).
  apply NB_bind_Ok_inv in Hb as (c & w0'' & Hpre & Hret).
  unfold lift in Hpre. injection Hpre as Hpre _. injection Hret as <- _.
  split; [|exact I].
  apply (dict_set_Forall (λ _ v, ∃ d, Prep.preprocess d = Ok v)); [exact Hdata|].
  exists d. exact Hpre.
Qed.

Lemma cell11_inv L (w : world) df w' :
  cell11 L w = (Ok df, w') →
  ∃ w1, cell11_data L w = (Ok df, w1)
        ∧ w' = World (<["data/fluorescence.p" := pickle_dumps L df]> (files w1))
                 (events w1 ++ [EvWrite "data/fluorescence.p"]).
Proof.
  unfold cell11. intros H. apply NB_bind_Ok_inv in H as (data & w1 & Hdata & H).
  apply NB_bind_Ok_inv in H as ([] & w2 & Hw & Hret).
  injection Hret as <- <-. unfold to_pickle, write_file in Hw. injection Hw as <-.
  exists w1. split; [exact Hdata | reflexivity].
Qed.

(** X13. The DataFrame of cell 11 has one column per concentration of the loop,
    in the order of the loop, none missing and none twice; and [data[conc]]
    is, for every concentration of the loop, the curve of the file of that
    concentration. *)
Theorem cell11_columns (L : library) (w : world) df w' :
  cell11 L w = (Ok df, w') →
  df.*1 = [0; 0.2; 0.5; 1.0; 1.5]
  ∧ ∀ conc, conc ∈ concs →
      ∃ c, dict_get conc df = Ok c ∧ stored_curve L w conc c.
Proof.
  intros H. apply cell11_inv in H as (w1 & Hdata & _).
  pose proof (cell11_data_keys L w df w1 Hdata) as Hkeys.
  split; [exact Hkeys|]. intros conc Hin.
  destruct (dict_get_elem conc df) as (c & Hget & Hc); [rewrite Hkeys; exact Hin|].
  exists c. split; [exact Hget|].
  apply cell11_data_stored in Hdata as [Hall _].
  rewrite Forall_forall in Hall. exact (proj2 (Hall (conc, c) Hc)).
Qed.

Lemma roundtrip_data_file conc : quencher_file demo_roundtrip conc = Demo.data_file.
Proof. reflexivity. Qed.

Lemma roundtrip_cell11 (w : world) :
  files w = files Demo.start →
  cell11 demo_roundtrip w
  = (Ok demo_dataframe,
     World (<["data/fluorescence.p" := "pickle"]> (files Demo.start))
       (events w ++ concat (map (λ _, [EvRead Demo.data_file]) concs)
          ++ [EvWrite "data/fluorescence.p"])).
Proof.
  intros Hfs. unfold cell11. rewrite NB_bind_unfold.
  assert (Hdata : cell11_data demo_roundtrip w
                  = (Ok demo_dataframe,
                     World (files Demo.start)
                       (events w ++ concat (map (λ _, [EvRead Demo.data_file]) concs)))).
  { unfold cell11_data, demo_dataframe.
    apply (for_acc_Ok (files Demo.start) (λ _, [EvRead Demo.data_file])
             (λ conc data, dict_set conc Demo.stored data)); [exact Hfs|].
    intros conc data w0 Hw0. rewrite NB_bind_unfold, roundtrip_data_file.
    rewrite (loadtxt_Ok demo_roundtrip Demo.data_file 9 "t F")
      by (rewrite Hw0; reflexivity).
    cbn [parse_table demo_roundtrip]. rewrite NB_bind_unfold. unfold lift.
    rewrite demo_preprocess, Hw0. reflexivity. }
  rewrite Hdata, NB_bind_unfold. unfold to_pickle, write_file, pickle_file.
  cbn [files events]. rewrite <- (assoc_L (++)). reflexivity.
Qed.

Lemma cell11_columns_witness :
  demo_dataframe.*1 = [0; 0.2; 0.5; 1.0; 1.5]
  ∧ ∀ conc, conc ∈ concs →
      ∃ c, dict_get conc demo_dataframe = Ok c
           ∧ stored_curve demo_roundtrip Demo.start conc c.
Proof.
  exact (cell11_columns demo_roundtrip Demo.start demo_dataframe _
           (roundtrip_cell11 Demo.start eq_refl)).
Defined.

(** X14. Cell 13 after cell 11, for a pickle that loads to what was dumped: the
    DataFrame read back has the column [0.0], the lookup [[0.0]] returns the
    curve of the file of concentration 0, the first column, and that curve
    goes to the fit; the cell reads the pickle and touches nothing else. *)
Theorem cell13_fits_the_first_curve (L : library) (w : world) df w1 :
  cell11 L w = (Ok df, w1) →
  pickle_loads L (pickle_dumps L df) = Ok df →
  ∃ c rest, df = (0, c) :: rest
    ∧ stored_curve L w 0 c
    ∧ cell13 L w1
      = (fit_first L c,
         World (files w1) (events w1 ++ [EvRead "data/fluorescence.p"])).
Proof.
  intros H Hload. apply cell11_inv in H as (w0 & Hdata & ->).
  pose proof (cell11_data_keys L w df w0 Hdata) as Hkeys.
  apply cell11_data_stored in Hdata as [Hall _].
  destruct df as [|[k c] rest]; [discriminate|].
  rewrite fmap_cons in Hkeys. injection Hkeys as Hk _. cbn in Hk. subst k.
  exists c, rest. split; [reflexivity|].
  apply Forall_cons_1 in Hall as [[_ Hst] _]. cbn [fst snd] in Hst.
  split; [exact Hst|].
  unfold cell13, read_pickle, read_file, pickle_file.
  rewrite !NB_bind_unfold. cbn [files events]. rewrite lookup_insert_eq.
  unfold lift. rewrite Hload. cbn [dict_get fst snd].
  rewrite decide_True by lra. reflexivity.
Qed.

Lemma cell13_fits_the_first_curve_witness :
  ∃ c rest, demo_dataframe = (0, c) :: rest
    ∧ stored_curve demo_roundtrip Demo.start 0 c
    ∧ cell13 demo_roundtrip
        (World (<["data/fluorescence.p" := "pickle"]> (files Demo.start))
           ([] ++ concat (map (λ _, [EvRead Demo.data_file]) concs)
              ++ [EvWrite "data/fluorescence.p"]))
      = (fit_first demo_roundtrip c,
         World (<["data/fluorescence.p" := "pickle"]> (files Demo.start))
           (([] ++ concat (map (λ _, [EvRead Demo.data_file]) concs)
               ++ [EvWrite "data/fluorescence.p"])
            ++ [EvRead "data/fluorescence.p"])).
Proof.
  exact (cell13_fits_the_first_curve demo_roundtrip Demo.start demo_dataframe _
           (roundtrip_cell11 Demo.start eq_refl) eq_refl).
Defined.

Lemma preprocessed_dataset_ok (d : ndarray) (c : curve) :
  Prep.preprocess d = Ok c →
  Forall (λ v, v > 0) (Curve.F c) →
  dataset_ok (Curve.t c, Curve.F c, Curve.Ferr c).
Proof.
  intros Hpre Hpos. apply preprocess_lengths in Hpre as [Hlen ->].
  unfold dataset_ok. cbn [fst snd]. rewrite length_map.
  split; [exact Hlen|]. split; [reflexivity|].
  apply Forall_fmap. eapply Forall_impl; [exact Hpos|]. cbn.
  intros v Hv. apply sqrt_lt_R0. lra.
Qed.

(** X15. Cells 11, 28 and 31 together: the start parameters of the global fit,
    [param0 = [3000, 160, 0.04, 0] + [0.5]*4], carry one [m] for each of the
    five columns of the DataFrame of cell 11, so the residual function of
    cell 30 returns at [param0], on the arguments that cell 28 builds, one
    block of weighted residuals per column, when the intensities are
    positive. *)
Theorem start_parameters_fit_the_dataframe st (L : library) (w : world) df w1 :
  cell11 L w = (Ok df, w1) →
  Forall (λ kc, Forall (λ v, v > 0) (Curve.F kc.2)) df →
  GlobalFit.leastsq_function (GlobalFit.func st) st Cell28.param0 (Cell28.args df)
  = Ok (concat (zip_with
          (λ m, weighted_residuals
                  (λ t, 3000 * exp (- t / 160 + m * Np.expm1 (- (0.04) * t))))
          [0; 0.5; 0.5; 0.5; 0.5] (datasets_of df))).
Proof.
  intros H Hpos. apply cell11_inv in H as (w0 & Hdata & _).
  pose proof (cell11_data_keys L w df w0 Hdata) as Hkeys.
  pose proof (cell11_data_preprocessed L w df w0 Hdata) as Hpre.
  rewrite args_of_datasets. unfold GlobalFit.leastsq_function.
  change (drop 3 Cell28.param0) with [0; 0.5; 0.5; 0.5; 0.5].
  change Cell28.param0 with (3000 :: 160 :: 0.04 :: [0; 0.5; 0.5; 0.5; 0.5]).
  pose proof (loop_appends st 3000 160 0.04 [0; 0.5; 0.5; 0.5; 0.5] []
                (datasets_of df) [0; 0.5; 0.5; 0.5; 0.5] []) as H0.
  cbn [app] in H0. change (length (@nil dataset)) with O in H0.
  unfold dataset in *. apply H0.
  - intros _. lra.
  - unfold datasets_of. rewrite length_map.
    rewrite <- (length_fmap fst df), Hkeys. reflexivity.
  - unfold datasets_of. change (map ?f df) with (f <$> df). apply Forall_fmap.
    apply Forall_forall. intros kc Hin. cbn.
    rewrite Forall_forall in Hpre, Hpos. destruct (Hpre kc Hin) as [d Hd].
    exact (preprocessed_dataset_ok d kc.2 Hd (Hpos kc Hin)).
Qed.

Lemma demo_dataframe_stored : Forall (λ kc : R * curve, kc.2 = Demo.stored) demo_dataframe.
Proof.
  unfold demo_dataframe, concs. cbn [foldl].
  repeat (apply (dict_set_Forall (λ _ v, v = Demo.stored)); [|reflexivity]).
  apply Forall_nil_2.
Qed.

Lemma start_parameters_fit_the_dataframe_witness :
  GlobalFit.leastsq_function (GlobalFit.func Np.ErrWarn) Np.ErrWarn Cell28.param0
    (Cell28.args demo_dataframe)
  = Ok (concat (zip_with
          (λ m, weighted_residuals
                  (λ t, 3000 * exp (- t / 160 + m * Np.expm1 (- (0.04) * t))))
          [0; 0.5; 0.5; 0.5; 0.5] (datasets_of demo_dataframe))).
Proof.
  refine (start_parameters_fit_the_dataframe Np.ErrWarn demo_roundtrip Demo.start
            demo_dataframe _ (roundtrip_cell11 Demo.start eq_refl) _).
  eapply Forall_impl; [exact demo_dataframe_stored|]. cbn. intros kc ->.
  cbn [Curve.F Demo.stored]. Forall_lra.
Defined.

(** ** What a run reads *)

Lemma read_only_ret {A} (a : A) : read_only (mret a : NB A).
Proof. intros w. reflexivity. Qed.

Lemma read_only_lift {A} (r : result A) : read_only (lift r).
Proof. intros w. reflexivity. Qed.

Lemma read_only_log (e : fs_event) : read_only (log e).
Proof. intros w. reflexivity. Qed.

Lemma read_only_read_file (path : string) : read_only (read_file path).
Proof. intros w. reflexivity. Qed.

Lemma read_only_bind {A B} (m : NB A) (k : A → NB B) :
  read_only m → (∀ a, read_only (k a)) → read_only (m ≫= k).
Proof.
  intros Hm Hk w. rewrite NB_bind_unfold. specialize (Hm w).
  destruct (m w) as [[a|e] w1]; cbn [snd] in Hm |- *; [|exact Hm].
  rewrite (Hk a w1). exact Hm.
Qed.

Lemma read_only_for {A} (l : list A) (body : A → NB unit) :
  (∀ a, read_only (body a)) → read_only (for_ l body).
Proof.
  intros Hb. induction l as [|a l IH]; [apply read_only_ret|].
  cbn [for_]. apply read_only_bind; [apply Hb | intros _; exact IH].
Qed.

Lemma read_only_for_acc {A S} (l : list A) (body : A → S → NB S) (s : S) :
  (∀ a s0, read_only (body a s0)) → read_only (for_acc l body s).
Proof.
  intros Hb. revert s. induction l as [|a l IH]; intros s; [apply read_only_ret|].
  cbn [for_acc]. apply read_only_bind; [apply Hb | intros s'; apply IH].
Qed.

Lemma respects_ret Rel {A} (a : A) : respects Rel (mret a : NB A).
Proof. intros w w' _. reflexivity. Qed.

Lemma respects_lift Rel {A} (r : result A) : respects Rel (lift r).
Proof. intros w w' _. reflexivity. Qed.

Lemma respects_log Rel (e : fs_event) : respects Rel (log e).
Proof. intros w w' _. reflexivity. Qed.

Lemma respects_read_file (Rel : gmap string string → gmap string string → Prop)
    (path : string) :
  (∀ f f', Rel f f' → f !! path = f' !! path) → respects Rel (read_file path).
Proof.
  intros HR w w' Hw. unfold read_file. cbn [fst]. rewrite (HR _ _ Hw). reflexivity.
Qed.

Lemma respects_bind Rel {A B} (m : NB A) (k : A → NB B) :
  respects Rel m → read_only m → (∀ a, respects Rel (k a)) →
  respects Rel (m ≫= k).
Proof.
  intros Hm Hro Hk w w' Hw. rewrite !NB_bind_unfold.
  pose proof (Hm w w' Hw) as Hres.
  pose proof (Hro w) as Hf. pose proof (Hro w') as Hf'.
  destruct (m w) as [[a|e] w1], (m w') as [[a'|e'] w1'];
    cbn [fst snd] in Hres, Hf, Hf' |- *; try discriminate.
  - injection Hres as <-. apply Hk. rewrite Hf, Hf'. exact Hw.
  - injection Hres as <-. reflexivity.
Qed.

Lemma respects_for Rel {A} (l : list A) (body : A → NB unit) :
  (∀ a, respects Rel (body a)) → (∀ a, read_only (body a)) →
  respects Rel (for_ l body).
Proof.
  intros Hb Hro. induction l as [|a l IH]; [apply respects_ret|].
  cbn [for_]. apply respects_bind; [apply Hb | apply Hro | intros _; exact IH].
Qed.

Lemma respects_for_acc Rel {A S} (l : list A) (body : A → S → NB S) (s : S) :
  (∀ a s0, respects Rel (body a s0)) → (∀ a s0, read_only (body a s0)) →
  respects Rel (for_acc l body s).
Proof.
  intros Hb Hro. revert s. induction l as [|a l IH]; intros s; [apply respects_ret|].
  cbn [for_acc]. apply respects_bind; [apply Hb | apply Hro | intros s'; apply IH].
Qed.

Lemma read_only_loadtxt L path n : read_only (loadtxt L path n).
Proof.
  apply read_only_bind; [apply read_only_read_file | intros c; apply read_only_lift].
Qed.

Lemma respects_loadtxt L conc n :
  respects same_inputs (loadtxt L (quencher_file L conc) n).
Proof.
  apply respects_bind;
    [|apply read_only_read_file | intros c; apply respects_lift].
  apply respects_read_file. intros f f' Hf. apply Hf.
  apply quencher_file_not_pickle, quencher_file_is_quencher_file.
Qed.

Lemma read_only_cell8 L : read_only (cell8 L).
Proof.
  apply read_only_for. intros conc.
  apply read_only_bind; [apply read_only_loadtxt | intros d].
  apply read_only_bind; intros; apply read_only_lift.
Qed.

Lemma respects_cell8 L : respects same_inputs (cell8 L).
Proof.
  apply respects_for; [|intros conc; apply read_only_bind;
    [apply read_only_loadtxt | intros d; apply read_only_bind; intros; apply read_only_lift]].
  intros conc.
  apply respects_bind; [apply respects_loadtxt | apply read_only_loadtxt | intros d].
  apply respects_bind; [apply respects_lift | apply read_only_lift | intros tF].
  apply respects_lift.
Qed.

Lemma read_only_cell9 L : read_only (cell9 L).
Proof.
  apply read_only_for. intros conc.
  apply read_only_bind; [apply read_only_loadtxt | intros d].
  apply read_only_bind; intros; apply read_only_lift.
Qed.

Lemma respects_cell9 L : respects same_inputs (cell9 L).
Proof.
  apply respects_for; [|intros conc; apply read_only_bind;
    [apply read_only_loadtxt | intros d; apply read_only_bind; intros; apply read_only_lift]].
  intros conc.
  apply respects_bind; [apply respects_loadtxt | apply read_only_loadtxt | intros d].
  apply respects_bind; [apply respects_lift | apply read_only_lift | intros c].
  apply respects_lift.
Qed.

Lemma read_only_cell11_data L : read_only (cell11_data L).
Proof.
  apply read_only_for_acc. intros conc data.
  apply read_only_bind; [apply read_only_loadtxt | intros d].
  apply read_only_bind; [apply read_only_lift | intros c; apply read_only_ret].
Qed.

Lemma respects_cell11_data L : respects same_inputs (cell11_data L).
Proof.
  apply respects_for_acc; [|intros conc data; apply read_only_bind;
    [apply read_only_loadtxt | intros d; apply read_only_bind;
      [apply read_only_lift | intros c; apply read_only_ret]]].
  intros conc data.
  apply respects_bind; [apply respects_loadtxt | apply read_only_loadtxt | intros d].
  apply respects_bind; [apply respects_lift | apply read_only_lift | intros c].
  apply respects_ret.
Qed.

Lemma read_only_readers L : read_only (cell13 L ≫= λ _, cell28 L).
Proof.
  apply read_only_bind; [|intros _].
  - apply read_only_bind;
      [apply read_only_bind; [apply read_only_read_file | intros; apply read_only_lift]|].
    intros df. apply read_only_bind; intros; apply read_only_lift.
  - apply read_only_bind;
      [apply read_only_bind; [apply read_only_read_file | intros; apply read_only_lift]|].
    intros df. apply read_only_lift.
Qed.

Lemma respects_read_pickle L : respects eq (read_pickle L pickle_file).
Proof.
  apply respects_bind; [|apply read_only_read_file | intros c; apply respects_lift].
  apply respects_read_file. intros f f' ->. reflexivity.
Qed.

Lemma read_only_read_pickle L : read_only (read_pickle L pickle_file).
Proof.
  apply read_only_bind; [apply read_only_read_file | intros; apply read_only_lift].
Qed.

Lemma respects_readers L : respects eq (cell13 L ≫= λ _, cell28 L).
Proof.
  apply respects_bind; [| |intros _].
  - apply respects_bind; [apply respects_read_pickle | apply read_only_read_pickle|].
    intros df.
    apply respects_bind; [apply respects_lift | apply read_only_lift|].
    intros d. apply respects_lift.
  - apply read_only_bind; [apply read_only_read_pickle | intros df].
    apply read_only_bind; intros; apply read_only_lift.
  - apply respects_bind; [apply respects_read_pickle | apply read_only_read_pickle|].
    intros df. apply respects_lift.
Qed.

(** From cell 11 on: the pickle that is read is the one just written. *)
Lemma written_then_read L (w w' : world) :
  same_inputs (files w) (files w') →
  let rest := cell11 L ≫= λ _, cell13 L ≫= λ _, cell28 L in
  (rest w).1 = (rest w').1
  ∧ (is_Ok (rest w).1 → files (rest w).2 = files (rest w').2).
Proof.
  intros Hw rest. subst rest. set (readers := cell13 L ≫= λ _, cell28 L).
  unfold cell11. rewrite !NB_bind_unfold.
  pose proof (respects_cell11_data L w w' Hw) as Hres.
  pose proof (read_only_cell11_data L w) as Hf.
  pose proof (read_only_cell11_data L w') as Hf'.
  destruct (cell11_data L w) as [[df|e] w1], (cell11_data L w') as [[df'|e'] w1'];
    cbn [fst snd] in Hres, Hf, Hf'; try discriminate.
  - injection Hres as <-.
    unfold to_pickle, write_file, pickle_file, mret, NB_ret.
    rewrite !NB_bind_unfold. cbv beta iota.
    set (u := World (<[_ := _]> (files w1)) _).
    set (u' := World (<[_ := _]> (files w1')) _).
    assert (Hu : files u = files u').
    { subst u u'. cbn [files]. apply map_eq. intros path.
      destruct (decide (path = "data/fluorescence.p")) as [->|Hne].
      - rewrite !lookup_insert_eq. reflexivity.
      - rewrite !lookup_insert_ne by congruence. rewrite Hf, Hf'. apply Hw, Hne. }
    split; [apply (respects_readers L u u' Hu)|].
    intros _. subst readers.
    rewrite (read_only_readers L u), (read_only_readers L u'). exact Hu.
  - injection Hres as <-. cbn [fst snd]. split; [reflexivity | intros []].
Qed.

Lemma run_same_inputs L (w w' : world) :
  same_inputs (files w) (files w') →
  (run L w).1 = (run L w').1
  ∧ (is_Ok (run L w).1 → files (run L w).2 = files (run L w').2).
Proof.
  intros Hw. unfold run.
  assert (Hstep : ∀ (m : NB unit) (k : NB unit),
            respects same_inputs m → read_only m →
            (∀ w w', same_inputs (files w) (files w') →
               (k w).1 = (k w').1 ∧ (is_Ok (k w).1 → files (k w).2 = files (k w').2)) →
            ∀ w w', same_inputs (files w) (files w') →
              ((m ≫= λ _, k) w).1 = ((m ≫= λ _, k) w').1
              ∧ (is_Ok ((m ≫= λ _, k) w).1 →
                 files ((m ≫= λ _, k) w).2 = files ((m ≫= λ _, k) w').2)).
  { intros m k Hm Hro Hk v v' Hv. rewrite !NB_bind_unfold.
    pose proof (Hm v v' Hv) as Hres.
    pose proof (Hro v) as Hf. pose proof (Hro v') as Hf'.
    destruct (m v) as [[[]|e] v1], (m v') as [[[]|e'] v1'];
      cbn [fst snd] in Hres, Hf, Hf' |- *; try discriminate.
    - apply Hk. rewrite Hf, Hf'. exact Hv.
    - injection Hres as <-. split; [reflexivity | intros []]. }
  revert w w' Hw.
  apply Hstep; [apply respects_log | apply read_only_log|].
  apply Hstep; [apply respects_log | apply read_only_log|].
  apply Hstep; [apply respects_cell8 | apply read_only_cell8|].
  apply Hstep; [apply respects_cell9 | apply read_only_cell9|].
  intros w w' Hw. exact (written_then_read L w w' Hw).
Qed.

(** X16. A run never depends on a pickle left behind by an earlier run: from two
    file systems that agree on every file but [data/fluorescence.p], the run
    ends in the same way, with the same exception if it raises, and a run
    that completes leaves the same files. *)
Theorem run_ignores_old_pickle (L : library) (w w' : world) :
  same_inputs (files w) (files w') →
  (run L w).1 = (run L w').1
  ∧ ((run L w).1 = Ok () → files (run L w).2 = files (run L w').2).
Proof.
  intros Hw. destruct (run_same_inputs L w w' Hw) as [Hres Hfiles].
  split; [exact Hres|]. intros Hok. apply Hfiles. rewrite Hok. exact I.
Qed.

Lemma run_ignores_old_pickle_witness :
  (run Demo.lib Demo.start).1
  = (run Demo.lib
       (World (<["data/fluorescence.p" := "stale"]> (files Demo.start)) [])).1
  ∧ ((run Demo.lib Demo.start).1 = Ok () →
     files (run Demo.lib Demo.start).2
     = files (run Demo.lib
                (World (<["data/fluorescence.p" := "stale"]> (files Demo.start)) [])).2).
Proof.
  refine (run_ignores_old_pickle Demo.lib Demo.start
            (World (<["data/fluorescence.p" := "stale"]> (files Demo.start)) []) _).
  intros path Hne. cbn [files]. rewrite lookup_insert_ne by congruence. reflexivity.
Defined.

(** X17. A run can be repeated: started again from the world that a run has
    left, the notebook ends as it did the first time, and after a run that
    completed the second run leaves every file as it found it. *)
Theorem run_is_repeatable (L : library) (w : world) :
  (run L (run L w).2).1 = (run L w).1
  ∧ ((run L w).1 = Ok () → files (run L (run L w).2).2 = files (run L w).2).
Proof.
  assert (Hsame : same_inputs (files w) (files (run L w).2)).
  { destruct (confined_run L w) as (evs & _ & _ & _ & _ & Hfr).
    intros path Hne. symmetry. apply Hfr, Hne. }
  destruct (run_same_inputs L w (run L w).2 Hsame) as [Hres Hfiles].
  split; [symmetry; exact Hres|]. intros Hok. symmetry. apply Hfiles.
  rewrite Hok. exact I.
Qed.

Lemma for_Ok_inv {A} (l : list A) (body : A → NB unit) (w w' : world) (a : A) :
  (∀ a0, read_only (body a0)) →
  for_ l body w = (Ok (), w') → a ∈ l →
  ∃ w0, files w0 = files w ∧ (body a w0).1 = Ok ().
Proof.
  intros Hro. revert w. induction l as [|a0 l IH]; intros w H Hin; [inversion Hin|].
  cbn [for_] in H. apply NB_bind_Ok_inv in H as ([] & w1 & Hb & H).
  apply elem_of_cons in Hin as [->|Hin].
  - exists w. split; [reflexivity | rewrite Hb; reflexivity].
  - destruct (IH w1 H Hin) as (w0 & Hf & Hok). exists w0.
    split; [|exact Hok]. rewrite Hf. pose proof (Hro a0 w) as Hw. rewrite Hb in Hw.
    exact Hw.
Qed.

(** X18. A run needs all five data files: if the file of one concentration of
    the loop is missing, the run does not complete, and it leaves every file
    as it was: the pickle is not written. *)
Theorem run_needs_every_data_file (L : library) (w : world) (conc : R) :
  conc ∈ concs →
  files w !! quencher_file L conc = None →
  (run L w).1 ≠ Ok () ∧ files (run L w).2 = files w.
Proof.
  intros Hin Hnone. unfold run. rewrite NB_bind_unfold. cbn [cell6 log].
  rewrite NB_bind_unfold. cbn [cell7 log].
  rewrite NB_bind_unfold.
  match goal with |- context [cell8 L ?v] => set (w2 := v) end.
  pose proof (read_only_cell8 L w2) as Hf.
  destruct (cell8 L w2) as [[[]|e] w3] eqn:H8; cbn [fst snd] in Hf |- *.
  - exfalso. unfold cell8 in H8.
    apply (for_Ok_inv _ _ _ _ conc) in H8 as (w0 & Hw0 & Hok); [| |exact Hin].
    + rewrite NB_bind_unfold in Hok.
      destruct (loadtxt L (quencher_file L conc) 9 w0) as [[d|e] w0'] eqn:Hl;
        [|discriminate].
      apply loadtxt_Ok_inv in Hl as (_ & content & Hsome & _).
      rewrite Hw0 in Hsome. subst w2. cbn [files] in Hsome. congruence.
    + intros c. apply read_only_bind; [apply read_only_loadtxt | intros d].
      apply read_only_bind; intros; apply read_only_lift.
  - split; [discriminate | exact Hf].
Qed.

Lemma run_needs_every_data_file_witness :
  (run Demo.bare (World ∅ [])).1 ≠ Ok ()
  ∧ files (run Demo.bare (World ∅ [])).2 = files (World ∅ []).
Proof.
  refine (run_needs_every_data_file Demo.bare (World ∅ []) 0 _ _).
  - apply elem_of_cons. left. reflexivity.
  - apply lookup_empty.
Defined.

(** ** More on the error analysis (cell 21) *)

(** X19. [error_analysis] where it stops early: with as many residuals as
    parameters the degrees of freedom are zero and, where a division by zero
    raises, the function raises [FloatingPointError] before the
    decomposition is asked for; and a decomposition without any singular
    value makes [s[0]] raise [IndexError]. *)
Theorem error_analysis_stops_early svd res :
  (length (fun_ res) = length (x res) →
   error_analysis svd Np.ErrRaise res = Raise FloatingPointError)
  ∧ (∀ st U VT,
       (st = Np.ErrRaise → length (fun_ res) ≠ length (x res)) →
       svd (jac res) = Ok (U, [], VT) →
       error_analysis svd st res = Raise IndexError).
Proof.
  split.
  - intros Hnk. unfold error_analysis, Np.divide. rewrite Hnk, Z.sub_diag.
    rewrite decide_True by reflexivity. reflexivity.
  - intros st U VT Hnk Hsvd. unfold error_analysis.
    rewrite divide_Ok.
    + cbn [mbind result_bind]. rewrite Hsvd. reflexivity.
    + intros Hst. specialize (Hnk Hst). apply not_0_IZR. lia.
Qed.

Lemma map_const_seq {B} (c : B) (g : nat → B) (a k : nat) :
  (∀ i, g i = c) → map g (seq a k) = replicate k c.
Proof.
  intros Hg. revert a. induction k as [|k IH]; intros a; [reflexivity|].
  cbn [seq map replicate]. rewrite Hg, IH. reflexivity.
Qed.

(** X20. A Jacobian whose singular values are all zero: no singular value is
    above the threshold (which is zero as well), the covariance matrix is
    the product of a matrix without columns and one without rows, and every
    parameter gets the error 0. *)
Theorem error_analysis_zero_jacobian svd st res U s VT :
  (length (x res) < length (fun_ res))%nat →
  svd (jac res) = Ok (U, s, VT) →
  s ≠ [] →
  Forall (λ v, v = 0) s →
  error_analysis svd st res
  = Ok (replicate (ncols VT) 0,
        2 * cost res / IZR (Z.of_nat (length (fun_ res)) - Z.of_nat (length (x res)))).
Proof.
  intros Hnk Hsvd Hne Hzero. unfold error_analysis.
  rewrite divide_Ok by (intros _; apply degrees_of_freedom_nonzero, Hnk).
  cbn [mbind result_bind]. rewrite Hsvd. cbn [mbind result_bind fst snd].
  destruct s as [|s0 s']; [contradiction|].
  change (getitem (s0 :: s') 0) with (Ok s0). cbn [mbind result_bind].
  assert (Hs0 : s0 = 0) by (inversion Hzero; assumption). subst s0.
  rewrite Rmult_0_r.
  rewrite (filter_none (λ si, si > 0))
    by (eapply Forall_impl; [exact Hzero|]; cbn; intros v ->; lra).
  cbn [map length].
  unfold Mat.divide_columns, Mat.broadcast_dim.
  cbn [Mat.transpose Mat.first_rows nrows ncols length Nat.min].
  rewrite decide_True by reflexivity.
  assert (Hq : ∀ q : matrix,
            match st with
            | Np.ErrWarn => Ok q
            | Np.ErrRaise =>
                if decide ((0 < ncols VT)%nat
                           ∧ Exists (λ j, nth (if decide (0%nat = 1%nat) then O else j)
                                            (@nil R) 0 = 0) (seq 0 0))
                then Raise FloatingPointError else Ok q
            end = Ok q).
  { intros q. destruct st; [reflexivity|].
    rewrite decide_False; [reflexivity|]. intros [_ Hex]. inversion Hex. }
  rewrite Hq. cbn [mbind result_bind].
  unfold Mat.dot. cbn [nrows ncols Nat.min]. rewrite decide_True by reflexivity.
  cbn [mbind result_bind mret result_ret]. f_equal. f_equal.
  unfold Mat.diag, Mat.scale.
  cbn [nrows ncols entry Mat.sum_upto Mat.first_rows Mat.transpose].
  rewrite Nat.min_id, map_map. apply map_const_seq. intros i.
  rewrite Rmult_0_l. apply sqrt_0.
Qed.

Lemma error_analysis_zero_jacobian_witness :
  error_analysis (λ _, Ok (Demo.U, [0], Demo.VT)) Np.ErrRaise Demo.res
  = Ok (replicate (ncols Demo.VT) 0,
        2 * cost Demo.res
        / IZR (Z.of_nat (length (fun_ Demo.res)) - Z.of_nat (length (x Demo.res)))).
Proof.
  refine (error_analysis_zero_jacobian (λ _, Ok (Demo.U, [0], Demo.VT)) Np.ErrRaise
            Demo.res Demo.U [0] Demo.VT _ _ _ _).
  - cbn. lia.
  - reflexivity.
  - discriminate.
  - apply Forall_cons_2; [reflexivity | apply Forall_nil_2].
Defined.

(** *** The covariance matrix and the normal matrix [J^T J] *)











(** ** The rows of the tables (cells 23, 33 and 38) *)

Lemma repeat2_length (xs : list R) : length (Table.repeat2 xs) = (2 * length xs)%nat.
Proof.
  induction xs as [|a xs IH]; [reflexivity|].
  change (Table.repeat2 (a :: xs)) with (a :: a :: Table.repeat2 xs).
  cbn [length]. rewrite IH. lia.
Qed.

Lemma put_odd_repeat2 (xs es : list R) :
  length es = length xs →
  Table.put_odd (Table.repeat2 xs) es = concat (zip_with (λ p e, [p; e]) xs es).
Proof.
  revert es. induction xs as [|a xs IH]; intros [|e es] Hlen; try discriminate;
    [reflexivity|].
  change (Table.repeat2 (a :: xs)) with (a :: a :: Table.repeat2 xs).
  cbn [Table.put_odd zip_with concat app]. rewrite IH by (cbn in Hlen; lia).
  reflexivity.
Qed.

(** X22. The row of a table alternates parameter and error,
    [p0, err0, p1, err1, ...], and comes with the reduced chi squared, when
    [error_analysis] returns one error per parameter; with another number of
    errors, other than one, the assignment [p_and_err[1::2] = ...] raises
    [ValueError]. *)
Theorem p_and_err_interleaves svd st res (perr : list R) (chi : R) :
  error_analysis svd st res = Ok (perr, chi) →
  (length perr = length (x res) →
   Table.p_and_err svd st res
   = Ok (chi, concat (zip_with (λ p e, [p; e]) (x res) perr)))
  ∧ (length perr ≠ length (x res) → length perr ≠ 1%nat →
     Table.p_and_err svd st res = Raise ValueError).
Proof.
  intros Hea. unfold Table.p_and_err. rewrite Hea. cbn [mbind result_bind fst snd].
  unfold Table.assign_odd. rewrite repeat2_length.
  replace (2 * length (x res) / 2)%nat with (length (x res))
    by (rewrite Nat.mul_comm, Nat.div_mul; [reflexivity | lia]).
  split.
  - intros Hlen. rewrite decide_True by exact Hlen. cbn [mbind result_bind].
    rewrite put_odd_repeat2 by exact Hlen. reflexivity.
  - intros Hne H1. rewrite decide_False by exact Hne.
    destruct perr as [|e [|e' perr]]; try reflexivity. contradiction.
Qed.

Lemma p_and_err_interleaves_witness :
  let s_sq := 2 * cost Demo.res
              / (INR (length (fun_ Demo.res)) - INR (length (x Demo.res))) in
  let threshold :=
    eps * INR (Nat.max (nrows (jac Demo.res)) (ncols (jac Demo.res))) * nth 0 [5] 0 in
  let perr := map sqrt (Mat.diag (Spec.pcov Demo.VT [5] threshold s_sq)) in
  (length perr = length (x Demo.res) →
   Table.p_and_err Demo.svd Np.ErrWarn Demo.res
   = Ok (s_sq, concat (zip_with (λ p e, [p; e]) (x Demo.res) perr)))
  ∧ (length perr ≠ length (x Demo.res) → length perr ≠ 1%nat →
     Table.p_and_err Demo.svd Np.ErrWarn Demo.res = Raise ValueError).
Proof.
  refine (p_and_err_interleaves Demo.svd Np.ErrWarn Demo.res _ _ _).
  refine (error_analysis_Ok Demo.svd Np.ErrWarn Demo.res Demo.U [5] Demo.VT
            _ _ demo_svd_result_ok _).
  - cbn. lia.
  - reflexivity.
  - discriminate.
Defined.

(** ** The file-system calls of a run that completes *)

Lemma loadtxt_trace L path n (w : world) :
  events (loadtxt L path n w).2 = events w ++ [EvRead path].
Proof.
  unfold loadtxt. rewrite NB_bind_unfold. unfold read_file, lift.
  destruct (files w !! path); [destruct (parse_table L n s)|]; reflexivity.
Qed.

Lemma read_pickle_trace L (w : world) :
  events (read_pickle L pickle_file w).2 = events w ++ [EvRead "data/fluorescence.p"].
Proof.
  unfold read_pickle. rewrite NB_bind_unfold. unfold read_file, lift, pickle_file.
  destruct (files w !! "data/fluorescence.p"); [destruct (pickle_loads L s)|];
    reflexivity.
Qed.

Lemma for_trace {A} (ev : A → list fs_event) (l : list A) (body : A → NB unit)
    (w w' : world) :
  (∀ a w0 w1, body a w0 = (Ok (), w1) → events w1 = events w0 ++ ev a) →
  for_ l body w = (Ok (), w') →
  events w' = events w ++ concat (map ev l).
Proof.
  intros Hb. revert w. induction l as [|a l IH]; intros w H.
  - cbn in H. injection H as <-. cbn. rewrite app_nil_r. reflexivity.
  - cbn [for_] in H. apply NB_bind_Ok_inv in H as ([] & w1 & H1 & H).
    rewrite (IH w1 H), (Hb a w w1 H1). cbn [map concat].
    rewrite <- (assoc_L (++)). reflexivity.
Qed.

Lemma for_acc_trace {A S} (ev : A → list fs_event) (l : list A)
    (body : A → S → NB S) (s : S) (w : world) s' w' :
  (∀ a s0 w0 s1 w1, body a s0 w0 = (Ok s1, w1) → events w1 = events w0 ++ ev a) →
  for_acc l body s w = (Ok s', w') →
  events w' = events w ++ concat (map ev l).
Proof.
  intros Hb. revert s w. induction l as [|a l IH]; intros s w H.
  - cbn in H. injection H as _ <-. cbn. rewrite app_nil_r. reflexivity.
  - cbn [for_acc] in H. apply NB_bind_Ok_inv in H as (s1 & w1 & H1 & H).
    rewrite (IH s1 w1 H), (Hb a s w s1 w1 H1). cbn [map concat].
    rewrite <- (assoc_L (++)). reflexivity.
Qed.

Lemma loadtxt_then_lift_trace {A} L path n (k : ndarray → NB A) (w : world) a w' :
  (∀ d v, (k d v).2 = v) →
  (loadtxt L path n ≫= k) w = (Ok a, w') →
  events w' = events w ++ [EvRead path].
Proof.
  intros Hk H. apply NB_bind_Ok_inv in H as (d & w1 & Hl & H).
  pose proof (loadtxt_trace L path n w) as Hev. rewrite Hl in Hev. cbn [snd] in Hev.
  pose proof (Hk d w1) as Hw. rewrite H in Hw. cbn [snd] in Hw. subst w'. exact Hev.
Qed.

(** X23. The file-system calls of a run that completes, in full: the [head] of
    cell 6, the [ls] of cell 7, then cells 8, 9 and 11 read the five data
    files in the order of the concentrations, each of them once, cell 11
    writes the pickle, and cells 13 and 28 read it. *)
Theorem completed_run_trace (L : library) (w w' : world) :
  run L w = (Ok (), w') →
  let reads := map (λ conc, EvRead (quencher_file L conc)) concs in
  events w'
  = events w
    ++ [EvRead "data/fluorescence/quencher_0.0.txt"; EvList "data/fluorescence"]
    ++ reads ++ reads ++ reads
    ++ [EvWrite "data/fluorescence.p";
        EvRead "data/fluorescence.p"; EvRead "data/fluorescence.p"].
Proof.
  intros H reads. unfold run in H.
  assert (Hreads : reads = concat (map (λ conc, [EvRead (quencher_file L conc)]) concs))
    by reflexivity.
  apply NB_bind_Ok_inv in H as ([] & w1 & H6 & H).
  apply NB_bind_Ok_inv in H as ([] & w2 & H7 & H).
  apply NB_bind_Ok_inv in H as ([] & w3 & H8 & H).
  apply NB_bind_Ok_inv in H as ([] & w4 & H9 & H).
  apply NB_bind_Ok_inv in H as (df & w5 & H11 & H).
  apply NB_bind_Ok_inv in H as ([] & w6 & H13 & H28).
  injection H6 as <-. injection H7 as <-. cbn [events files] in *.
  apply (for_trace (λ conc, [EvRead (quencher_file L conc)])) in H8;
    [|intros conc v v1 Hb; refine (loadtxt_then_lift_trace _ _ _ _ _ _ _ _ Hb);
      intros d v0; rewrite NB_bind_unfold; unfold lift;
      destruct (unpack2 d); reflexivity].
  apply (for_trace (λ conc, [EvRead (quencher_file L conc)])) in H9;
    [|intros conc v v1 Hb; refine (loadtxt_then_lift_trace _ _ _ _ _ _ _ _ Hb);
      intros d v0; rewrite NB_bind_unfold; unfold lift;
      destruct (Prep.preprocess d); reflexivity].
  apply cell11_inv in H11 as (w4' & Hdata & ->).
  apply (for_acc_trace (λ conc, [EvRead (quencher_file L conc)])) in Hdata;
    [|intros conc data v s1 v1 Hb; refine (loadtxt_then_lift_trace _ _ _ _ _ _ _ _ Hb);
      intros d v0; rewrite NB_bind_unfold; unfold lift;
      destruct (Prep.preprocess d); reflexivity].
  unfold cell13 in H13. apply NB_bind_Ok_inv in H13 as (df1 & w5' & Hr13 & H13).
  pose proof (read_pickle_trace L
    (World (<["data/fluorescence.p" := pickle_dumps L df]> (files w4'))
       (events w4' ++ [EvWrite "data/fluorescence.p"]))) as E13.
  rewrite Hr13 in E13. cbn [snd events] in E13.
  apply NB_bind_Ok_inv in H13 as (d & w5'' & Hg & Hfit).
  apply lift_world in Hg. apply lift_world in Hfit. subst w5'' w6.
  unfold cell28 in H28. apply NB_bind_Ok_inv in H28 as (data & w6' & Hr28 & H28).
  pose proof (read_pickle_trace L w5') as E28. rewrite Hr28 in E28. cbn [snd] in E28.
  apply lift_world in H28. subst w'.
  rewrite E28, E13, Hdata, H9, H8, Hreads. cbn [events].
  rewrite <- !(assoc_L (++)). reflexivity.
Qed.

Lemma completed_run_trace_witness :
  let reads := map (λ conc, EvRead (quencher_file Demo.lib conc)) concs in
  events (run Demo.lib Demo.start).2
  = events Demo.start
    ++ [EvRead "data/fluorescence/quencher_0.0.txt"; EvList "data/fluorescence"]
    ++ reads ++ reads ++ reads
    ++ [EvWrite "data/fluorescence.p";
        EvRead "data/fluorescence.p"; EvRead "data/fluorescence.p"].
Proof.
  refine (completed_run_trace Demo.lib Demo.start (run Demo.lib Demo.start).2 _).
  pose proof demo_run_returns as H.
  destruct (run Demo.lib Demo.start) as [r v]. cbn [fst snd] in H |- *.
  rewrite H. reflexivity.
Defined.
